(** * Verification of the forest-tutorials notebooks

    The repository is a set of notebooks over the pyQuil SDK.  Two pieces of
    it carry logic of their own:

    - [ghz_program] (Active Qubit Reset notebook): builds the GHZ program
      gate by gate on a mutable [Program] object;
    - [state_tomo_settings], the correction loop and
      [linear_inv_state_estimate] (Bell state tomography notebook): the
      readout correction and the linear-inversion state estimator.

    Around them: the two programs and the counting of the bitstrings of the
    Active Qubit Reset notebook, [build_rho_true] and [hinton] of the
    tomography notebook, and [query_device] and the program of [hello_qmi]
    (Hello QMI notebook).

    Numbers: the notebooks compute with IEEE doubles.  The development
    idealises them as exact real numbers ([R]) and complex numbers as pairs of
    reals, so every statement below is a statement in exact arithmetic. *)

From Stdlib Require Import String.
From Stdlib Require Import List Arith Lia Bool.
From Stdlib Require Import Reals Lra.
From Stdlib Require Import Permutation.
Import ListNotations.

(** ** Abnormal ends of the modelled code

    The Python exceptions that the code can raise, and the division of a
    float by zero.  What that division does depends on the type of the
    numbers: on Python floats it raises [ZeroDivisionError]; on
    [numpy.float64] it warns and gives [inf] or [nan], which the real
    numbers do not have.  The model ends there with [DivisionByZero] and says
    nothing of what follows. *)

Inductive exn : Type :=
| IndexError          (* list index out of range *)
| ValueError          (* numpy: vstack of an empty sequence *)
| LinAlgError         (* scipy: the pseudo-inverse did not converge *)
| DivisionByZero.     (* a float divided by zero *)

(** A computation over a mutable store [S] that may raise. *)
Definition Py (S A : Type) : Type := S -> exn + (A * S).

Definition ret {S A} (a : A) : Py S A := fun s => inr (a, s).

Definition raise {S A} (e : exn) : Py S A := fun _ => inl e.

Definition bind {S A B} (m : Py S A) (k : A -> Py S B) : Py S B :=
  fun s => match m s with
           | inl e => inl e
           | inr (a, s') => k a s'
           end.

Declare Scope py_scope.
Delimit Scope py_scope with py.
Notation "x <- m ;; k" := (bind m (fun x => k))
  (at level 61, m at next level, right associativity) : py_scope.
Notation "m ;;; k" := (bind m (fun _ => k))
  (at level 61, right associativity) : py_scope.

(** [for x in xs: body x] *)
Fixpoint for_each {S A} (xs : list A) (body : A -> Py S unit) : Py S unit :=
  match xs with
  | [] => ret tt
  | x :: xs' => bind (body x) (fun _ => for_each xs' body)
  end.

(** [[f x for x in xs]], where [f] may raise and may read the store. *)
Fixpoint comprehension {S A B} (xs : list A) (f : A -> Py S B) : Py S (list B) :=
  match xs with
  | [] => ret []
  | x :: xs' =>
      bind (f x) (fun y => bind (comprehension xs' f) (fun ys => ret (y :: ys)))
  end.

(** [range(n)] and [enumerate(xs)] *)
Definition range (n : nat) : list nat := seq 0 n.

Definition enumerate {A} (xs : list A) : list (nat * A) :=
  combine (seq 0 (length xs)) xs.

(** ** The GHZ program (Active Qubit Reset notebook) *)

Module GHZ.

(** Quil instructions used by the notebook.  A memory reference [ro[idx]] is
    the pair of the region's name and the offset. *)
Definition MemoryReference : Type := (string * nat)%type.

Inductive instruction : Type :=
| H (qubit : nat)
| CNOT (control target : nat)
| DECLARE (name : string) (memory_type : string) (memory_size : nat)
| MEASURE (qubit : nat) (classical_reg : MemoryReference).

(** The store: the caller's list [qubits] (a mutable Python list, only read
    here) and the [Program] object under construction, whose instructions are
    appended in place by [inst] and [declare]. *)
Record store : Type := mkStore {
  qubits : list nat;
  program : list instruction
}.

(** [Program()] *)
Definition Program : Py store unit :=
  fun s => inr (tt, mkStore (qubits s) []).

(** [program.inst(i)] and [program.inst([i1, ..., ik])] *)
Definition inst (i : instruction) : Py store unit :=
  fun s => inr (tt, mkStore (qubits s) (program s ++ [i])).

Definition inst_list (l : list instruction) : Py store unit :=
  fun s => inr (tt, mkStore (qubits s) (program s ++ l)).

(** [program.declare(name, memory_type, memory_size)] appends the
    declaration and returns the base reference. *)
Definition declare (name memory_type : string) (memory_size : nat)
  : Py store MemoryReference :=
  fun s => inr ((name, 0),
                mkStore (qubits s)
                        (program s ++ [DECLARE name memory_type memory_size])).

(** [ro[idx]] *)
Definition getref (ro : MemoryReference) (idx : nat) : MemoryReference :=
  (fst ro, idx).

(** [qubits[i]]: raises [IndexError] out of range. *)
Definition getitem (i : nat) : Py store nat :=
  fun s => match nth_error (qubits s) i with
           | Some q => ret q s
           | None => raise IndexError s
           end.

(** [len(qubits)] *)
Definition len : Py store nat := fun s => inr (length (qubits s), s).

(** Iteration over the list object itself ([enumerate(qubits)]). *)
Definition enumerate_qubits : Py store (list (nat * nat)) :=
  fun s => inr (enumerate (qubits s), s).

Local Open Scope py_scope.

Definition ghz_program : Py store (list instruction) :=
  Program ;;;
  q0 <- getitem 0 ;;
  inst (H q0) ;;;
  n <- len ;;
  for_each (range (n - 1))
    (fun i => a <- getitem i ;; b <- getitem (i + 1) ;; inst (CNOT a b)) ;;;
  n <- len ;;
  ro <- declare "ro" "BIT" n ;;
  pairs <- enumerate_qubits ;;
  ms <- comprehension pairs
          (fun '(idx, qubit) => ret (MEASURE qubit (getref ro idx))) ;;
  inst_list ms ;;;
  (fun s => inr (program s, s)).

(** The program the documentation of the notebook describes, written
    directly over the list [qs]. *)
Definition ghz_expected (qs : list nat) : list instruction :=
  [H (nth 0 qs 0)]
  ++ map (fun i => CNOT (nth i qs 0) (nth (i + 1) qs 0)) (seq 0 (length qs - 1))
  ++ [DECLARE "ro" "BIT" (length qs)]
  ++ map (fun i => MEASURE (nth i qs 0) ("ro"%string, i)) (seq 0 (length qs)).

End GHZ.

(** ** Computations that may raise, without a store *)

Definition result (A : Type) : Type := (exn + A)%type.

Definition try {A B} (m : result A) (k : A -> result B) : result B :=
  match m with
  | inl e => inl e
  | inr a => k a
  end.

Notation "x <-- m ;; k" := (try m (fun x => k))
  (at level 61, m at next level, right associativity) : py_scope.

(** ** Complex numbers (numpy's complex128, idealised) *)

Definition C : Type := (R * R)%type.

Definition RtoC (x : R) : C := (x, 0%R).
Definition C0 : C := RtoC 0.
Definition C1 : C := RtoC 1.
Definition Ci : C := (0%R, 1%R).
Definition Cadd (a b : C) : C := ((fst a + fst b)%R, (snd a + snd b)%R).
Definition Copp (a : C) : C := ((- fst a)%R, (- snd a)%R).
Definition Csub (a b : C) : C := Cadd a (Copp b).
Definition Cmul (a b : C) : C :=
  ((fst a * fst b - snd a * snd b)%R, (fst a * snd b + snd a * fst b)%R).
Definition Cconj (a : C) : C := (fst a, (- snd a)%R).
(** Division of a complex number by a real one. *)
Definition Cdivr (a : C) (r : R) : C := ((fst a / r)%R, (snd a / r)%R).

(** [sum_(l < n) f l] *)
Fixpoint Csum (n : nat) (f : nat -> C) : C :=
  match n with
  | 0 => C0
  | S n' => Cadd (Csum n' f) (f n')
  end.

(** ** Arrays (numpy's ndarray of dimension 1 and 2)

    A 1-D array is the list of its entries, a 2-D array the list of its
    rows.  Each operation is given by the entries of its result, as numpy
    documents it.  numpy raises on operands whose shapes do not fit; the
    operations below are used on operands whose shapes fit, and the shape
    lemmas of the second part show that they do. *)

Definition vector : Type := list C.
Definition matrix : Type := list (list C).

Definition nrows (A : matrix) : nat := length A.
Definition ncols (A : matrix) : nat :=
  match A with
  | [] => 0
  | row :: _ => length row
  end.

(** [A[i, j]] *)
Definition ent (A : matrix) (i j : nat) : C := nth j (nth i A []) C0.

(** The [m] x [n] array whose entry [(i, j)] is [f i j]. *)
Definition mk_matrix (m n : nat) (f : nat -> nat -> C) : matrix :=
  map (fun i => map (fun j => f i j) (seq 0 n)) (seq 0 m).

Definition mk_vector (n : nat) (f : nat -> C) : vector := map f (seq 0 n).

(** [A.T] *)
Definition transpose (A : matrix) : matrix :=
  mk_matrix (ncols A) (nrows A) (fun i j => ent A j i).

(** [A.conj()] *)
Definition conj (A : matrix) : matrix :=
  mk_matrix (nrows A) (ncols A) (fun i j => Cconj (ent A i j)).

(** [A @ B] for two 2-D arrays *)
Definition matmul (A B : matrix) : matrix :=
  mk_matrix (nrows A) (ncols B)
    (fun i j => Csum (ncols A) (fun l => Cmul (ent A i l) (ent B l j))).

(** [A @ v] for a 2-D array and a 1-D array *)
Definition matvec (A : matrix) (v : vector) : vector :=
  mk_vector (nrows A)
    (fun i => Csum (ncols A) (fun l => Cmul (ent A i l) (nth l v C0))).

(** [A + B] *)
Definition madd (A B : matrix) : matrix :=
  mk_matrix (nrows A) (ncols A) (fun i j => Cadd (ent A i j) (ent B i j)).

(** [A * c] for a scalar [c] *)
Definition mscale (A : matrix) (c : C) : matrix :=
  mk_matrix (nrows A) (ncols A) (fun i j => Cmul (ent A i j) c).

(** [A / r] for a real scalar [r] *)
Definition mdiv (A : matrix) (r : R) : matrix :=
  mk_matrix (nrows A) (ncols A) (fun i j => Cdivr (ent A i j) r).

(** [np.zeros((m, n))] and [np.eye(n)] *)
Definition zeros (m n : nat) : matrix := mk_matrix m n (fun _ _ => C0).
Definition eye (n : nat) : matrix :=
  mk_matrix n n (fun i j => if Nat.eqb i j then C1 else C0).

(** [np.kron(A, B)]: the block matrix of the [A[i, j] * B]. *)
Definition kron (A B : matrix) : matrix :=
  mk_matrix (nrows A * nrows B) (ncols A * ncols B)
    (fun i j => Cmul (ent A (i / nrows B) (j / ncols B))
                     (ent B (i mod nrows B) (j mod ncols B))).

(** [np.trace(A)] *)
Definition trace (A : matrix) : C := Csum (nrows A) (fun i => ent A i i).

(** [np.vstack(blocks)]: the blocks one under the other.  numpy raises
    [ValueError] when there is no block, and when two blocks differ in
    their number of columns. *)
Definition vstack (blocks : list matrix) : result matrix :=
  match blocks with
  | [] => inl ValueError
  | b :: _ =>
      if forallb (fun b' => Nat.eqb (ncols b') (ncols b)) blocks
      then inr (concat blocks)
      else inl ValueError
  end.

(** ** Pauli terms, settings and results (pyQuil's experiment objects) *)

Inductive pauli_op : Type := op_I | op_X | op_Y | op_Z.

Definition pauli_op_eqb (a b : pauli_op) : bool :=
  match a, b with
  | op_I, op_I | op_X, op_X | op_Y, op_Y | op_Z, op_Z => true
  | _, _ => false
  end.

(** A [PauliTerm]: the non-identity operators by qubit, and a coefficient. *)
Record PauliTerm : Type := mkPauliTerm {
  ops : list (nat * pauli_op);
  coefficient : C
}.

(** [term[qubit]]: the operator on [qubit], the identity when the term has
    none there. *)
Fixpoint lookup_op (l : list (nat * pauli_op)) (qubit : nat) : pauli_op :=
  match l with
  | [] => op_I
  | (q, o) :: l' => if Nat.eqb q qubit then o else lookup_op l' qubit
  end.

Definition term_getitem (term : PauliTerm) (qubit : nat) : pauli_op :=
  lookup_op (ops term) qubit.

(** One factor of a [TensorProductState]: label, eigenstate index, qubit. *)
Record OneQState : Type := mkOneQState {
  label : pauli_op;
  index : nat;
  qubit : nat
}.

Record ExperimentSetting : Type := mkExperimentSetting {
  in_state : list OneQState;
  out_operator : PauliTerm
}.

Record ExperimentResult : Type := mkExperimentResult {
  setting : ExperimentSetting;
  expectation : R;
  std_err : R;
  total_counts : nat
}.

(** ** Library functions the tomography notebook calls *)

(** [pyquil.simulation.matrices.QUANTUM_GATES] at the four Pauli labels *)
Definition QUANTUM_GATES (o : pauli_op) : matrix :=
  match o with
  | op_I => [[C1; C0]; [C0; C1]]
  | op_X => [[C0; C1]; [C1; C0]]
  | op_Y => [[C0; Copp Ci]; [Ci; C0]]
  | op_Z => [[C1; C0]; [C0; Copp C1]]
  end.

(** The loop of [lifted_pauli] over the qubits:
    [term_hilbert = np.kron(QUANTUM_GATES[term[qubit]], term_hilbert)]. *)
Definition term_hilbert (term : PauliTerm) (qubits : list nat) (acc : matrix)
  : matrix :=
  fold_left (fun acc qubit => kron (QUANTUM_GATES (term_getitem term qubit)) acc)
            qubits acc.

(** Modelled from the spec: [lifted_pauli] (pyQuil) is absent from src/.
    The matrix representation of an observable is the tensor product of the
    2x2 Pauli matrices of its qubits, scaled by its coefficient, a
    [2^n] x [2^n] complex matrix.  The product is built qubit by qubit from
    the 1x1 matrix [[1]], each new factor on the left. *)
Definition lifted_pauli (term : PauliTerm) (qubits : list nat) : matrix :=
  let n_qubits := length qubits in
  let result_hilbert := zeros (2 ^ n_qubits) (2 ^ n_qubits) in
  madd result_hilbert
       (mscale (term_hilbert term qubits [[C1]]) (coefficient term)).

(** Modelled from the spec: [vec] and [unvec] (forest-benchmarking) are
    absent from src/.  [vec] flattens a matrix into a column vector and
    [unvec] is its inverse on square matrices, both by one convention; the
    convention taken is column stacking: entry [k] of [vec A] is
    [A[k mod r, k / r]] for [r] the number of rows of [A], and [unvec v] is
    the square matrix of side [isqrt(len v)] with [A[i, j] = v[j * side + i]]. *)
Definition vec (A : matrix) : matrix :=
  mk_matrix (nrows A * ncols A) 1
    (fun k _ => ent A (k mod nrows A) (k / nrows A)).

Definition unvec (v : vector) : matrix :=
  let dim := Nat.sqrt (length v) in
  mk_matrix dim dim (fun i j => nth (j * dim + i) v C0).

(** [itertools.product("IXYZ", repeat=n)] *)
Fixpoint product_IXYZ (n : nat) : list (list pauli_op) :=
  match n with
  | 0 => [[]]
  | S n' =>
      flat_map (fun o => map (cons o) (product_IXYZ n'))
               [op_I; op_X; op_Y; op_Z]
  end.

(** The term with operator [labels[i]] on [qubits[i]] and coefficient 1;
    identity factors are not stored. *)
Definition pauli_term_of (qubits : list nat) (labels : list pauli_op) : PauliTerm :=
  mkPauliTerm
    (filter (fun qo => negb (pauli_op_eqb (snd qo) op_I)) (combine qubits labels))
    C1.

(** Modelled from the spec: [all_traceless_pauli_terms] (forest-benchmarking)
    is absent from src/.  It enumerates all the Pauli tensor products on the
    qubits but the identity; the order is the one the notebook prints for
    qubits (0, 1): X1, Y1, Z1, X0, X0X1, ..., Z0Z1, that is the product order
    over the labels I, X, Y, Z with its first element, the identity, left
    out. *)
Definition all_traceless_pauli_terms (qubits : list nat) : list PauliTerm :=
  tl (map (pauli_term_of qubits) (product_IXYZ (length qubits))).

(** Modelled from the spec: [zeros_state] (pyQuil) is absent from src/.  The
    all-zeros state on the qubits: on each of them the eigenstate of index 0
    of Z (the notebook prints it as Z0_0 * Z0_1 for qubits (0, 1)). *)
Definition zeros_state (qubits : list nat) : list OneQState :=
  map (fun q => mkOneQState op_Z 0 q) qubits.

(** ** The tomography notebook *)

(** The generator [state_tomo_settings], as the list of what it yields (the
    source also binds [list_of_terms] to a first enumeration that it never
    reads). *)
Definition state_tomo_settings (qubits : list nat) : list ExperimentSetting :=
  map (fun obs => mkExperimentSetting (zeros_state qubits) obs)
      (all_traceless_pauli_terms qubits).

(** Modelled from the spec: [correct_experiment_result] (pyQuil) is absent
    from src/, which calls it and records its arguments and its results for
    the fifteen settings.  The corrected expectation is [e_r / e_c]; the
    corrected standard error is the first-order propagation of the errors
    through the ratio.  Of the two forms of that propagation the definition
    takes the variance form,
    [sqrt (s_r^2 / e_c^2 + e_r^2 * s_c^2 / e_c^4)], which in double
    arithmetic gives the fifteen recorded standard errors digit for digit.
    The product form of the spec,
    [|e'| * sqrt ((s_r / e_r)^2 + (s_c / e_c)^2)], is equal to it for
    [e_r <> 0]; its guard at [e_r = 0] (first term 0) is left out: there
    the variance form is [|s_r| / |e_c|].  The corrected result keeps the
    setting of the raw one, as the notebook prints it.  At [e_c = 0] the
    function divides by zero ([DivisionByZero]). *)
Definition correct_experiment_result (r c : ExperimentResult)
  : result ExperimentResult :=
  if Req_dec_T (expectation c) 0 then inl DivisionByZero
  else
    let corrected_expectation := (expectation r / expectation c)%R in
    let corrected_variance :=
      (std_err r ^ 2 / expectation c ^ 2
       + expectation r ^ 2 * std_err c ^ 2 / expectation c ^ 4)%R in
    inr (mkExperimentResult
           (setting r)
           corrected_expectation
           (sqrt corrected_variance)
           (total_counts r)).

Local Open Scope py_scope.

(** The correction loop of the notebook:
    [for r, c in zip(results, calibrations): results_corrected.append(...)];
    the store is the list [results_corrected]. *)
Definition correct_all (results calibrations : list ExperimentResult)
  : Py (list ExperimentResult) unit :=
  for_each (combine results calibrations)
    (fun '(r, c) => fun results_corrected =>
       match correct_experiment_result r c with
       | inl e => inl e
       | inr r' => inr (tt, results_corrected ++ [r'])
       end).

(** [linear_inv_state_estimate].  [pinv] stands for [scipy.linalg.pinv],
    which returns a matrix or raises. *)
Definition linear_inv_state_estimate
    (pinv : matrix -> result matrix)
    (results : list ExperimentResult) (qubits : list nat) : result matrix :=
  measurement_matrix <--
    vstack (map (fun result =>
                   conj (transpose (vec (lifted_pauli
                                           (out_operator (setting result))
                                           qubits))))
                results) ;;
  let expectations := map (fun result => RtoC (expectation result)) results in
  pinv_measurement_matrix <-- pinv measurement_matrix ;;
  let rho := matvec pinv_measurement_matrix expectations in
  let dim := 2 ^ length qubits in
  inr (madd (unvec rho) (mdiv (eye dim) (INR dim))).

(** [A] is an array of shape [(m, n)]. *)
Definition well_formed (m n : nat) (A : matrix) : Prop :=
  length A = m /\ Forall (fun row => length row = n) A.

(** What [scipy.linalg.pinv] computes in exact arithmetic: [P] is the
    Moore-Penrose pseudo-inverse of [A] when it has the shape of the
    transpose of [A] and the four Penrose equations hold. *)
Definition moore_penrose (A P : matrix) : Prop :=
  well_formed (ncols A) (nrows A) P /\
  matmul (matmul A P) A = A /\
  matmul (matmul P A) P = P /\
  conj (transpose (matmul A P)) = matmul A P /\
  conj (transpose (matmul P A)) = matmul P A.

(** The measurement matrix in the words of the specification: one row per
    result, in the order of the input, the row of an observable being the
    conjugate transpose of its vectorized [2^n] x [2^n] matrix; and the
    vector of the expectations in the same order. *)
Definition spec_measurement_matrix
    (results : list ExperimentResult) (qubits : list nat) : matrix :=
  map (fun result =>
         mk_vector (4 ^ length qubits)
           (fun k => Cconj (ent (vec (lifted_pauli
                                        (out_operator (setting result)) qubits))
                                k 0)))
      results.

Definition spec_expectations (results : list ExperimentResult) : vector :=
  map (fun result => RtoC (expectation result)) results.

(** Gate matrices of [pyquil.simulation.matrices] used by the notebook *)
Definition psm_I : matrix := [[C1; C0]; [C0; C1]].
Definition psm_H : matrix :=
  mscale [[C1; C1]; [C1; Copp C1]] (RtoC (1 / sqrt 2)).
Definition psm_CNOT : matrix :=
  [[C1; C0; C0; C0]; [C0; C1; C0; C0]; [C0; C0; C0; C1]; [C0; C0; C1; C0]].

(** [np.outer(a, b)]: the products of the entries of the two flattened
    arrays. *)
Definition flat (A : matrix) (k : nat) : C := ent A (k / ncols A) (k mod ncols A).

Definition outer (a b : matrix) : matrix :=
  mk_matrix (nrows a * ncols a) (nrows b * ncols b)
    (fun i j => Cmul (flat a i) (flat b j)).

(** [build_rho_true]: the density matrix of the state |00> + |11>. *)
Definition build_rho_true : matrix :=
  let psi00 := [[C1]; [C0]; [C0]; [C0]] in
  let bell00 := matmul (matmul psm_CNOT (kron psm_H psm_I)) psi00 in
  outer bell00 (conj (transpose bell00)).

(** ** Auxiliary notions of the proofs *)

(** The column [vec A] as a 1-D array. *)
Definition ravel (A : matrix) : vector :=
  mk_vector (nrows A) (fun k => ent A k 0).

(** The block that [linear_inv_state_estimate] stacks for one result. *)
Definition measurement_row (qubits : list nat) (result : ExperimentResult)
  : matrix :=
  conj (transpose (vec (lifted_pauli (out_operator (setting result)) qubits))).

(** [c I] of side [k], for a real [c] *)
Definition scaled_eye (k : nat) (c : R) : matrix :=
  mk_matrix k k (fun i j => if Nat.eqb i j then RtoC c else C0).

(** The entrywise inner product [sum_(r, c) conj (A[r, c]) * B[r, c]] of
    two square arrays of side [d]. *)
Definition hs (d : nat) (A B : matrix) : C :=
  Csum d (fun c => Csum d (fun r => Cmul (Cconj (ent A r c)) (ent B r c))).

(** The product over the qubits of the inner products of the factors. *)
Fixpoint overlap (t t' : PauliTerm) (qubits : list nat) : C :=
  match qubits with
  | [] => C1
  | q :: qubits' =>
      Cmul (if pauli_op_eqb (term_getitem t q) (term_getitem t' q)
            then RtoC 2 else C0)
           (overlap t t' qubits')
  end.

(** The pseudo-inverse of a measurement matrix of Pauli tensor products on
    [n] qubits: its conjugate transpose over [2^n]. *)
Definition pauli_pinv (n : nat) (A : matrix) : result matrix :=
  inr (mdiv (conj (transpose A)) (INR (2 ^ n))).

(** ** Concrete inputs *)

(** The X0X1 row of the notebook: the raw result and its calibration. *)
Definition raw_X0X1 : ExperimentResult :=
  mkExperimentResult
    (mkExperimentSetting (zeros_state [0; 1])
                         (pauli_term_of [0; 1] [op_X; op_X]))
    0.759%R 0.014562470009115317%R 500.

Definition calibration_X0X1 : ExperimentResult :=
  mkExperimentResult
    (mkExperimentSetting [mkOneQState op_X 0 0; mkOneQState op_X 0 1]
                         (pauli_term_of [0; 1] [op_X; op_X]))
    0.768%R 0.01432447539345329%R 500.

(** A calibration result with expectation 0, and one with expectation 1
    and standard error 0. *)
Definition calibration_zero : ExperimentResult :=
  mkExperimentResult (setting calibration_X0X1) 0%R 0.0316%R 500.

Definition calibration_unit : ExperimentResult :=
  mkExperimentResult (setting calibration_X0X1) 1%R 0%R 500.

(** A raw result with expectation 0 and a positive standard error. *)
Definition raw_zero_expectation : ExperimentResult :=
  mkExperimentResult (setting raw_X0X1) 0%R 1%R 500.

(** A result for qubit 0: the setting of a label with an expectation. *)
Definition result_1q (o : pauli_op) (e : R) : ExperimentResult :=
  mkExperimentResult
    (mkExperimentSetting (zeros_state [0]) (pauli_term_of [0] [o]))
    e 0%R 500.

(** The three results of a one-qubit tomography and two of them. *)
Definition results_1q (ex ey ez : R) : list ExperimentResult :=
  [result_1q op_X ex; result_1q op_Y ey; result_1q op_Z ez].

Definition results_1q_short : list ExperimentResult :=
  [result_1q op_X 0%R; result_1q op_Z 1%R].

(** The exact expectations of the Bell state (|00> + |11>) / sqrt 2 on the
    fifteen observables, in the order of the enumeration:
    X0X1 = 1, Y0Y1 = -1, Z0Z1 = 1 and 0 elsewhere. *)
Definition bell_expectations : list R :=
  [0; 0; 0; 0; 1; 0; 0; 0; 0; -1; 0; 0; 0; 0; 1]%R.

(** The fifteen results of the notebook's experiment with the exact
    expectations of the Bell state. *)
Definition results_bell : list ExperimentResult :=
  map (fun se => mkExperimentResult (fst se) (snd se) 0%R 500)
      (combine (state_tomo_settings [0; 1]) bell_expectations).

Definition rho_bell : matrix :=
  [[RtoC (1 / 2); C0; C0; RtoC (1 / 2)];
   [C0; C0; C0; C0];
   [C0; C0; C0; C0];
   [RtoC (1 / 2); C0; C0; RtoC (1 / 2)]].

(** Entry [(i, j)] of [(I + sum_l e_l L_l) / 4] for the fifteen matrices
    [L_l] of the observables and the Bell expectations [e_l]. *)
Definition bell_sum (i j : nat) : C :=
  Cadd (Csum 15 (fun l =>
          Cmul (ent (lifted_pauli (nth l (all_traceless_pauli_terms [0; 1])
                                         (pauli_term_of [0; 1] []))
                                  [0; 1]) i j)
               (Cdivr (RtoC (nth l bell_expectations 0%R)) (INR 4))))
       (ent (mdiv (eye 4) (INR 4)) i j).

(** The fifteen rows that the notebook prints, in the order of the
    settings: the raw expectation and standard error, those of the
    calibration, and those of the corrected result. *)
Definition notebook_rows : list ((R * R) * (R * R) * (R * R)) :=
  [
   ((0.004, 0.03163834674860532), (0.876, 0.015259647992560535), (0.0045662100456621, 0.036116921777475025));
   ((-0.038, 0.03161574853701167), (0.866, 0.01582069196635515), (-0.04387990762124711, 0.03651659268669426));
   ((0.016, 0.03163454985841817), (0.882, 0.014909671300813386), (0.018140589569160998, 0.03586814747777249));
   ((-0.006, 0.03163803035849364), (0.864, 0.015929775822583245), (-0.006944444444444445, 0.03661831453380543));
   ((0.759, 0.014562470009115317), (0.768, 0.01432447539345329), (0.98828125, 0.026444641002639036));
   ((-0.003, 0.02236617139367857), (0.764, 0.014431082012934165), (-0.003926701570680628, 0.02927518740611426));
   ((0.028, 0.022357502744369335), (0.77, 0.01427066312099604), (0.03636363636363636, 0.02904353809603714));
   ((-0.018, 0.0316334739900106), (0.884, 0.014790630911585981), (-0.02036199095022624, 0.035786094555706645));
   ((0.024, 0.022359829627939816), (0.759, 0.014562470009115317), (0.03162055335968379, 0.02946583737592669));
   ((-0.749, 0.014819220784249288), (0.783, 0.013912306643330895), (-0.9565772669220944, 0.025437759579199533));
   ((-0.031, 0.022355522465206355), (0.787, 0.013798938558913735), (-0.03939008894536213, 0.028414395414503135));
   ((0.024, 0.03162948662916338), (0.9, 0.013790945949795835), (0.026666666666666665, 0.03514624948436394));
   ((0.015, 0.022363755694971985), (0.752, 0.014743021343644913), (0.019946808510638295, 0.029741607866311474));
   ((-0.001, 0.022366260858990406), (0.785, 0.013855810757435775), (-0.0012738853503184713, 0.02849206092187224));
   ((0.749, 0.014819220784249288), (0.776, 0.01410714378436955), (0.9652061855670103, 0.025934194205755223))
  ]%R.

(** The Correction Step, on results with the numbers of a row, returns the
    corrected numbers of the row up to [10^-12]. *)
Definition reproduces (row : (R * R) * (R * R) * (R * R)) : Prop :=
  let '(raw, cal, cor) := row in
  forall r c : ExperimentResult,
    expectation r = fst raw -> std_err r = snd raw ->
    expectation c = fst cal -> std_err c = snd cal ->
    exists r',
      correct_experiment_result r c = inr r' /\
      (Rabs (expectation r' - fst cor) <= 1 / 10 ^ 12)%R /\
      (Rabs (std_err r' - snd cor) <= 1 / 10 ^ 12)%R.

(** ** Further code of the notebooks *)

(** Exceptions of the code below: a missing dictionary key, or one of the
    exceptions above. *)
Inductive exception : Type :=
| KeyError
| Builtin (e : exn).

(** *** Counting the bitstrings (Active Qubit Reset notebook, last cell) *)

Module ShotCounts.

(** A shot result as a tuple of integers, and the dictionary [counts]: a
    Python dictionary keeps its keys in the order of their insertion, which
    is the order the notebook prints them in, so it is the list of its
    items. *)
Definition bit_tuple : Type := list nat.
Definition dict : Type := list (bit_tuple * nat).

Definition tuple_eq_dec : forall a b : bit_tuple, {a = b} + {a <> b} :=
  list_eq_dec Nat.eq_dec.

(** [itertools.product((0, 1), repeat=n)] *)
Fixpoint product_bits (n : nat) : list bit_tuple :=
  match n with
  | 0 => [[]]
  | S n' => flat_map (fun b => map (cons b) (product_bits n')) [0; 1]
  end.

(** [d[k]]: raises [KeyError] on a missing key. *)
Fixpoint getitem (d : dict) (k : bit_tuple) : exception + nat :=
  match d with
  | [] => inl KeyError
  | (k', v) :: d' => if tuple_eq_dec k' k then inr v else getitem d' k
  end.

(** [d[k] = v]: a present key keeps its place, a new one goes last. *)
Fixpoint setitem (d : dict) (k : bit_tuple) (v : nat) : dict :=
  match d with
  | [] => [(k, v)]
  | (k', v') :: d' =>
      if tuple_eq_dec k' k then (k', v) :: d' else (k', v') :: setitem d' k v
  end.

(** [{bit_tuple: 0 for bit_tuple in itertools.product((0, 1), repeat=3)}] *)
Definition initial_counts : dict :=
  fold_left (fun d t => setitem d t 0) (product_bits 3) [].

(** [for shot_result in results: counts[tuple(shot_result)] += 1] *)
Fixpoint count_loop (results : list bit_tuple) (counts : dict)
  : exception + dict :=
  match results with
  | [] => inr counts
  | shot_result :: rest =>
      match getitem counts shot_result with
      | inl e => inl e
      | inr c => count_loop rest (setitem counts shot_result (c + 1))
      end
  end.

Definition count_shots (results : list bit_tuple) : exception + dict :=
  count_loop results initial_counts.

(** A tuple of [n] bits. *)
Definition is_bit_tuple (n : nat) (t : bit_tuple) : Prop :=
  length t = n /\ Forall (fun b => b <= 1) t.

End ShotCounts.

(** *** The correction loop with its partial effect *)

(** [for r, c in zip(results, calibrations):
       results_corrected.append(correct(r, c))]
    for any function [correct]: the content of the list
    [results_corrected] when the loop ends, and the exception that ended it
    if one did.  What was appended before an exception stays in the list. *)
Fixpoint correction_loop
    (correct : ExperimentResult -> ExperimentResult -> result ExperimentResult)
    (pairs : list (ExperimentResult * ExperimentResult))
    (results_corrected : list ExperimentResult)
  : list ExperimentResult * option exn :=
  match pairs with
  | [] => (results_corrected, None)
  | (r, c) :: pairs' =>
      match correct r c with
      | inl e => (results_corrected, Some e)
      | inr r' => correction_loop correct pairs' (results_corrected ++ [r'])
      end
  end.

Definition correct_results
    (correct : ExperimentResult -> ExperimentResult -> result ExperimentResult)
    (results calibrations : list ExperimentResult)
  : list ExperimentResult * option exn :=
  correction_loop correct (combine results calibrations) [].

(** A correction function that checks the calibration first, an instance
    for the loop: it raises [ValueError] on a calibration expectation zero
    and corrects otherwise. *)
Definition checked_correction (r c : ExperimentResult)
  : result ExperimentResult :=
  if Req_dec_T (expectation c) 0 then inl ValueError
  else correct_experiment_result r c.

(** *** Programs with more instructions *)

Module Quil.

(** The instructions of the GHZ program and the three others that the
    notebooks use. *)
Inductive instruction : Type :=
| RESET
| PRAGMA (command : string) (args : list string)
| RX (angle : R) (qubit : nat)
| Basic (i : GHZ.instruction).

(** A [Program] object: its instructions and its number of shots. *)
Record Program : Type := mkProgram {
  instructions : list instruction;
  num_shots : Z
}.

(** [Program(i1, ..., ik)] *)
Definition new_program (l : list instruction) : Program := mkProgram l 1%Z.

(** [program.inst(other)] for another program, [program += i] *)
Definition inst_program (p : Program) (other : list GHZ.instruction) : Program :=
  mkProgram (instructions p ++ map Basic other) (num_shots p).

Definition iadd (p : Program) (i : instruction) : Program :=
  mkProgram (instructions p ++ [i]) (num_shots p).

(** [program.wrap_in_numshots_loop(shots)] *)
Definition wrap_in_numshots_loop (p : Program) (shots : Z) : Program :=
  mkProgram (instructions p) shots.

(** The cell that builds the two programs of the Active Qubit Reset
    notebook from the list [qubits]: [program] and [program_reset].  The two
    calls of [ghz_program] read the same list object; the calls of
    [qpu.compile] between them read the programs and are left out. *)
Definition active_reset_programs (qubits : list nat) : result (Program * Program) :=
  match GHZ.ghz_program (GHZ.mkStore qubits []) with
  | inl e => inl e
  | inr (ghz, s) =>
      let program := new_program [] in
      let program := inst_program program ghz in
      let program := wrap_in_numshots_loop program 10000%Z in
      match GHZ.ghz_program (GHZ.mkStore (GHZ.qubits s) []) with
      | inl e => inl e
      | inr (ghz', _) =>
          let program_reset := new_program [RESET] in
          let program_reset := inst_program program_reset ghz' in
          let program_reset := wrap_in_numshots_loop program_reset 10000%Z in
          inr (program, program_reset)
      end
  end.

End Quil.

(** *** The Hello QMI notebook *)

Module HelloQMI.
Import Quil.

(** Dictionaries with string keys, as the lists of their items: a device is
    a dictionary of which only the entry ['qubits'] is read, itself a
    dictionary whose values are the qubits. *)
Definition qubits_dict : Type := list (string * nat).
Definition device : Type := list (string * qubits_dict).
Definition lattices_dict : Type := list (string * device).

Fixpoint lookup {V} (d : list (string * V)) (k : string) : option V :=
  match d with
  | [] => None
  | (k', v) :: d' => if String.eqb k' k then Some v else lookup d' k
  end.

(** [d[k]] *)
Definition getitem {V} (d : list (string * V)) (k : string) : exception + V :=
  match lookup d k with
  | Some v => inr v
  | None => inl KeyError
  end.

(** [k in list(d.keys())] *)
Definition in_keys {V} (k : string) (d : list (string * V)) : bool :=
  existsb (String.eqb k) (map fst d).

(** [d.values()] *)
Definition values {V} (d : list (string * V)) : list V := map snd d.

(** [query_device]; [lattices] is what [list_lattices()] returns. *)
Definition query_device (lattices : lattices_dict) (device_name : string)
  : exception + option device :=
  if in_keys device_name lattices then
    match getitem lattices device_name with
    | inl e => inl e
    | inr d => inr (Some d)
    end
  else inr None.

(** The string ['"GREEDY"'], quotes included. *)
Definition greedy : string :=
  String (Ascii.ascii_of_nat 34)
         (String.append "GREEDY" (String (Ascii.ascii_of_nat 34) EmptyString)).

Definition MEASURE (qubit : nat) (ref : GHZ.MemoryReference) : instruction :=
  Basic (GHZ.MEASURE qubit ref).

(** The part of [hello_qmi] that builds the program, up to
    [wrap_in_numshots_loop]. *)
Definition hello_qmi_program
    (lattices : lattices_dict) (device_name : string) (shots : Z)
  : exception + Program :=
  let program := new_program [] in
  let program := iadd program (PRAGMA "INITIAL_REWIRING" [greedy]) in
  match query_device lattices device_name with
  | inl e => inl e
  | inr (Some device) =>
      match getitem device "qubits" with
      | inl e => inl e
      | inr qubits =>
          let readout : GHZ.MemoryReference := ("ro"%string, 0) in
          let program :=
            iadd program (Basic (GHZ.DECLARE "ro" "BIT" (length qubits))) in
          match getitem device "qubits" with
          | inl e => inl e
          | inr qubits1 =>
              let program :=
                fold_left (fun p qubit => iadd p (RX (PI / 2) qubit))
                          (values qubits1) program in
              match getitem device "qubits" with
              | inl e => inl e
              | inr qubits2 =>
                  let program :=
                    fold_left
                      (fun p iq => iadd p (MEASURE (snd iq)
                                             (GHZ.getref readout (fst iq))))
                      (enumerate (values qubits2)) program in
                  inr (wrap_in_numshots_loop program shots)
              end
          end
      end
  | inr None =>
      let readout : GHZ.MemoryReference := ("ro"%string, 0) in
      let program := iadd program (Basic (GHZ.DECLARE "ro" "BIT" 3)) in
      let program := iadd program (RX (PI / 2) 0) in
      let program := iadd program (RX (PI / 2) 1) in
      let program := iadd program (RX (PI / 2) 2) in
      let program := iadd program (MEASURE 0 (GHZ.getref readout 0)) in
      let program := iadd program (MEASURE 1 (GHZ.getref readout 1)) in
      let program := iadd program (MEASURE 2 (GHZ.getref readout 2)) in
      inr (wrap_in_numshots_loop program shots)
  end.

(** The program for the qubits [qs]. *)
Definition hello_program (qs : list nat) (shots : Z) : Program :=
  mkProgram
    ([PRAGMA "INITIAL_REWIRING" [greedy];
      Basic (GHZ.DECLARE "ro" "BIT" (length qs))]
     ++ map (RX (PI / 2)) qs
     ++ map (fun iq => MEASURE (snd iq) ("ro"%string, fst iq)) (enumerate qs))
    shots.

End HelloQMI.

(** *** Readout of a GHZ program *)

Section Readout.
Import GHZ.

(** The qubits that the [MEASURE]s of a program read with the classical
    registers that they write, in order, and the regions that the program
    declares with their sizes. *)
Definition measured (p : list instruction) : list (nat * MemoryReference) :=
  flat_map (fun i => match i with MEASURE q r => [(q, r)] | _ => [] end) p.

Definition declared (p : list instruction) : list (string * nat) :=
  flat_map (fun i => match i with DECLARE n _ k => [(n, k)] | _ => [] end) p.

End Readout.

(** *** The estimator in closed form *)

(** The sum of a list of complex numbers. *)
Fixpoint Csum_list (l : list C) : C :=
  match l with
  | [] => C0
  | x :: l' => Cadd x (Csum_list l')
  end.

(** The linear-inversion formula in closed form:
    [(I + sum_r e_r L_r) / 2^n], for [e_r] the expectation of the result
    [r] and [L_r] the matrix of its observable. *)
Definition pauli_expansion (results : list ExperimentResult) (qubits : list nat)
  : matrix :=
  let d := 2 ^ length qubits in
  mk_matrix d d
    (fun i j =>
       Cdivr (Cadd (if Nat.eqb i j then C1 else C0)
                   (Csum_list
                      (map (fun r =>
                              Cmul (RtoC (expectation r))
                                   (ent (lifted_pauli (out_operator (setting r))
                                                      qubits) i j))
                           results)))
             (INR d)).

(** The observables of the results are the terms of label vectors on the
    qubits. *)
Definition pauli_results (qubits : list nat) (results : list ExperimentResult)
  : Prop :=
  Forall (fun r => exists labels,
              length labels = length qubits /\
              out_operator (setting r) = pauli_term_of qubits labels)
         results.

Definition observables (results : list ExperimentResult) : list PauliTerm :=
  map (fun r => out_operator (setting r)) results.

(** [A] is equal to its conjugate transpose on the square of side [d]. *)
Definition hermitian (d : nat) (A : matrix) : Prop :=
  forall i j, i < d -> j < d -> ent A j i = Cconj (ent A i j).

(** The tensor product that [lifted_pauli] builds, by the labels: each new
    factor on the left. *)
Definition pauli_kron (labels : list pauli_op) (acc : matrix) : matrix :=
  fold_left (fun acc o => kron (QUANTUM_GATES o) acc) labels acc.

(** The state |0><0| of one qubit. *)
Definition rho_ground : matrix := [[C1; C0]; [C0; C0]].

(** The results of a one-qubit tomography with other standard errors,
    counts and input states. *)
Definition results_1q_other (ex ey ez : R) : list ExperimentResult :=
  map (fun r => mkExperimentResult
                  (mkExperimentSetting [] (out_operator (setting r)))
                  (expectation r) 0.5%R 7)
      (results_1q ex ey ez).

(** *** The Hinton plot of the tomography notebook *)

Module Hinton.

(** [np.abs(w)] for a complex number *)
Definition Cabs (w : C) : R := sqrt (fst w * fst w + snd w * snd w).

(** [np.arctan2(y, x)]: the angle of the point [(x, y)].  Where [y] is zero
    and [x] is zero or negative, numpy's result depends on the signs of the
    floating-point zeros ([+-0] or [+-pi]); the real numbers have one zero,
    and the model gives no angle there ([None]). *)
Definition arctan2 (y x : R) : option R :=
  if Rlt_dec 0 x then Some (atan (y / x))
  else if Rlt_dec x 0 then
         if Rlt_dec 0 y then Some (atan (y / x) + PI)%R
         else if Rlt_dec y 0 then Some (atan (y / x) - PI)%R
              else None
       else if Rlt_dec 0 y then Some (PI / 2)%R
            else if Rlt_dec y 0 then Some (- PI / 2)%R else None.

(** A [plt.Rectangle]: its lower corner, its sides, and the angle that the
    colour map turns into its colour, where the model has one. *)
Record Rectangle : Type := mkRectangle {
  xy : R * R;
  width : R;
  height : R;
  color : option R
}.

Definition max_weight : R := 1.0.

(** [np.ndenumerate(matrix)]: the entries with their indices, row by
    row. *)
Definition ndenumerate (matrix : list (list C)) : list ((nat * nat) * C) :=
  flat_map (fun ir => map (fun jw => ((fst ir, fst jw), snd jw))
                          (enumerate (snd ir)))
           (enumerate matrix).

(** The body of the loop of [hinton]: the rectangle drawn for the entry
    [w] at [(x, y)]. *)
Definition patch (x y : nat) (w : C) : Rectangle :=
  let color := arctan2 (fst w) (snd w) in
  let size := sqrt (Cabs w / max_weight) in
  mkRectangle (INR x - size / 2, INR y - size / 2)%R size size color.

(** [hinton]: the rectangles added to the axes, in order, and the limits
    set for the two axes. *)
Definition hinton (matrix : list (list C))
  : list Rectangle * ((R * R) * (R * R)) :=
  (map (fun e => patch (fst (fst e)) (snd (fst e)) (snd e)) (ndenumerate matrix),
   ((- max_weight / 2, INR (nrows matrix) - max_weight / 2)%R,
    (- max_weight / 2, INR (ncols matrix) - max_weight / 2)%R)).

End Hinton.

(** * Proofs *)

(** ** GHZ program *)

Section GHZ_proofs.
Import GHZ.

Lemma getitem_lt (qs : list nat) (p : list instruction) (i : nat) :
  i < length qs ->
  getitem i (mkStore qs p) = inr (nth i qs 0, mkStore qs p).
Proof.
  intros Hi. unfold getitem. simpl.
  rewrite (nth_error_nth' qs 0 Hi). reflexivity.
Qed.

(** The CNOT loop appends one CNOT per index and leaves [qubits] alone. *)
Lemma cnot_loop (qs : list nat) (k a : nat) (p : list instruction) :
  a + k + 1 <= length qs ->
  for_each (seq a k)
    (fun i => bind (getitem i) (fun x =>
              bind (getitem (i + 1)) (fun y => inst (CNOT x y))))
    (mkStore qs p)
  = inr (tt, mkStore qs
               (p ++ map (fun i => CNOT (nth i qs 0) (nth (i + 1) qs 0))
                         (seq a k))).
Proof.
  revert a p. induction k as [|k IH]; intros a p Hle; simpl.
  - unfold ret. now rewrite app_nil_r.
  - unfold bind at 1 2 3.
    rewrite getitem_lt by lia. rewrite getitem_lt by lia.
    unfold inst at 1. cbn [qubits program].
    rewrite IH by lia. now rewrite <- app_assoc.
Qed.

(** The list comprehension over [enumerate(qubits)] never raises. *)
Lemma measure_comprehension (ro : MemoryReference) (s : store)
      (l : list (nat * nat)) :
  comprehension l (fun '(idx, qubit) => ret (MEASURE qubit (getref ro idx))) s
  = inr (map (fun '(idx, qubit) => MEASURE qubit (getref ro idx)) l, s).
Proof.
  induction l as [|[idx q] l IH]; simpl; [reflexivity|].
  unfold bind, ret in *. now rewrite IH.
Qed.

Lemma enumerate_measures (qs : list nat) (a : nat) (f : nat -> nat -> instruction) :
  forall d, map (fun '(idx, qubit) => f idx qubit) (combine (seq a (length qs)) qs)
  = map (fun i => f (a + i) (nth i qs d)) (seq 0 (length qs)).
Proof.
  intros d. revert a. induction qs as [|q qs IH]; intros a; simpl; [reflexivity|].
  rewrite Nat.add_0_r. f_equal.
  rewrite IH, <- seq_shift, map_map.
  apply map_ext. intros i. now rewrite Nat.add_succ_r.
Qed.

(** C10.  For every non-empty list of qubits [qs], [ghz_program] returns
    the program made of one [H] on [qs[0]], then the [len(qs) - 1] gates
    [CNOT qs[i] qs[i+1]] in order, then the declaration of the readout
    register ["ro"] of [len(qs)] bits, then one [MEASURE qs[i] ro[i]] per
    qubit; the list [qs] held by the caller is left as it was. *)
Theorem ghz_program_correct (qs : list nat) (p0 : list instruction) :
  qs <> [] ->
  ghz_program (mkStore qs p0)
  = inr (ghz_expected qs, mkStore qs (ghz_expected qs)).
Proof.
  intros Hne.
  assert (Hlen : 0 < length qs) by (destruct qs; [congruence | simpl; lia]).
  unfold ghz_program, ghz_expected.
  unfold bind at 1. unfold Program at 1. cbn [qubits].
  unfold bind at 1. rewrite getitem_lt by exact Hlen.
  unfold bind at 1. unfold inst at 1. cbn [qubits program app].
  unfold bind at 1. unfold len at 1. cbn [qubits].
  unfold bind at 1. unfold range.
  rewrite cnot_loop by lia.
  unfold bind at 1. unfold len at 1. cbn [qubits].
  unfold bind at 1. unfold declare at 1. cbn [qubits program].
  unfold bind at 1. unfold enumerate_qubits at 1. cbn [qubits].
  unfold bind at 1. rewrite measure_comprehension.
  unfold bind at 1. unfold inst_list at 1. cbn [qubits program].
  unfold enumerate, getref. cbn [fst].
  rewrite (enumerate_measures qs 0
             (fun idx qubit => MEASURE qubit ("ro"%string, idx)) 0).
  cbn [Nat.add].
  repeat rewrite <- app_assoc. reflexivity.
Qed.

(** On the empty list [qubits[0]] raises. *)
Lemma ghz_program_no_qubit (p0 : list instruction) :
  ghz_program (mkStore [] p0) = inl IndexError.
Proof. reflexivity. Qed.

(** The statement at the three qubits the notebook selects. *)
Lemma ghz_program_correct_witness :
  [15; 16; 17] <> [] /\
  ghz_program (mkStore [15; 16; 17] [])
  = inr ([H 15; CNOT 15 16; CNOT 16 17; DECLARE "ro" "BIT" 3;
          MEASURE 15 ("ro"%string, 0); MEASURE 16 ("ro"%string, 1);
          MEASURE 17 ("ro"%string, 2)],
         mkStore [15; 16; 17]
           [H 15; CNOT 15 16; CNOT 16 17; DECLARE "ro" "BIT" 3;
            MEASURE 15 ("ro"%string, 0); MEASURE 16 ("ro"%string, 1);
            MEASURE 17 ("ro"%string, 2)]).
Proof.
  split; [discriminate|].
  exact (ghz_program_correct [15; 16; 17] [] ltac:(discriminate)).
Defined.

End GHZ_proofs.

(** ** Correction step *)

Section Correction.
Local Open Scope R_scope.

(** For [e_r <> 0] the variance form is the formula
    [|e'| * sqrt ((s_r / e_r)^2 + (s_c / e_c)^2)]. *)
Lemma ratio_variance_form (er sr ec sc : R) :
  er <> 0 -> ec <> 0 ->
  Rabs (er / ec) * sqrt ((sr / er) ^ 2 + (sc / ec) ^ 2)
  = sqrt (sr ^ 2 / ec ^ 2 + er ^ 2 * sc ^ 2 / ec ^ 4).
Proof.
  intros Hr Hc.
  replace (sr ^ 2 / ec ^ 2 + er ^ 2 * sc ^ 2 / ec ^ 4)
    with (Rsqr (er / ec) * ((sr / er) ^ 2 + (sc / ec) ^ 2))
    by (unfold Rsqr; field; split; assumption).
  rewrite sqrt_mult.
  - now rewrite sqrt_Rsqr_abs.
  - apply Rle_0_sqr.
  - nra.
Qed.

(** At [e_r = 0] the variance form is [|s_r| / |e_c|]. *)
Lemma ratio_variance_zero (sr ec sc : R) :
  ec <> 0 ->
  sqrt (sr ^ 2 / ec ^ 2 + 0 ^ 2 * sc ^ 2 / ec ^ 4) = Rabs sr / Rabs ec.
Proof.
  intros Hc.
  replace (sr ^ 2 / ec ^ 2 + 0 ^ 2 * sc ^ 2 / ec ^ 4) with (Rsqr (sr / ec))
    by (unfold Rsqr; field; exact Hc).
  rewrite sqrt_Rsqr_abs. unfold Rdiv.
  rewrite Rabs_mult, Rabs_inv. reflexivity.
Qed.

(** The result of the correction where the calibration expectation is not
    zero. *)
Lemma correct_experiment_result_nonzero (r c : ExperimentResult) :
  expectation c <> 0 ->
  correct_experiment_result r c
  = inr (mkExperimentResult
           (setting r)
           (expectation r / expectation c)
           (sqrt (std_err r ^ 2 / expectation c ^ 2
                  + expectation r ^ 2 * std_err c ^ 2 / expectation c ^ 4))
           (total_counts r)).
Proof.
  intros Hc. unfold correct_experiment_result.
  destruct (Req_dec_T (expectation c) 0) as [E|_]; [contradiction|reflexivity].
Qed.

(** C5 as stated fails: at a raw expectation 0 with standard error 1, under
    the calibration of expectation 1 and standard error 0, the claimed
    standard error is [|0| * sqrt (0 + 0) = 0], and the one returned is 1:
    the function has no guard at [e_r = 0]. *)
Lemma correction_guard_counterexample :
  ~ (forall r c : ExperimentResult,
        expectation c <> 0 ->
        exists r',
          correct_experiment_result r c = inr r' /\
          expectation r' = expectation r / expectation c /\
          (expectation r <> 0 ->
           std_err r' = Rabs (expectation r / expectation c)
                        * sqrt ((std_err r / expectation r) ^ 2
                                + (std_err c / expectation c) ^ 2)) /\
          (expectation r = 0 ->
           std_err r' = Rabs (expectation r / expectation c)
                        * sqrt (0 + (std_err c / expectation c) ^ 2))).
Proof.
  intros Hclaim.
  assert (Hc : expectation calibration_unit <> 0)
    by (cbn [expectation calibration_unit]; lra).
  destruct (Hclaim raw_zero_expectation calibration_unit Hc)
    as (r' & E & _ & _ & Hs).
  rewrite (correct_experiment_result_nonzero _ _ Hc) in E.
  injection E as E. subst r'.
  specialize (Hs eq_refl).
  cbn [expectation std_err calibration_unit raw_zero_expectation] in Hs.
  match type of Hs with
  | sqrt ?a = _ => replace a with 1 in Hs by field
  end.
  replace (0 / 1) with 0 in Hs by field.
  rewrite sqrt_1, Rabs_R0, Rmult_0_l in Hs. lra.
Qed.

(** C5, amended.  With a calibration expectation [e_c <> 0], the Correction
    Step returns the expectation [e' = e_r / e_c] and the standard error
    [sqrt (s_r^2 / e_c^2 + e_r^2 * s_c^2 / e_c^4)]; this is
    [|e'| * sqrt ((s_r / e_r)^2 + (s_c / e_c)^2)] when [e_r <> 0], and
    [|s_r| / |e_c|] when [e_r = 0]; the two numbers depend on nothing but
    the expectations and standard errors of its two arguments. *)
Theorem correction_formula (r c : ExperimentResult) :
  expectation c <> 0 ->
  exists r',
    correct_experiment_result r c = inr r' /\
    expectation r' = expectation r / expectation c /\
    std_err r' = sqrt (std_err r ^ 2 / expectation c ^ 2
                       + expectation r ^ 2 * std_err c ^ 2 / expectation c ^ 4) /\
    (expectation r <> 0 ->
     std_err r' = Rabs (expectation r / expectation c)
                  * sqrt ((std_err r / expectation r) ^ 2
                          + (std_err c / expectation c) ^ 2)) /\
    (expectation r = 0 ->
     std_err r' = Rabs (std_err r) / Rabs (expectation c)) /\
    (forall r2 c2 : ExperimentResult,
        expectation r2 = expectation r -> std_err r2 = std_err r ->
        expectation c2 = expectation c -> std_err c2 = std_err c ->
        exists r2',
          correct_experiment_result r2 c2 = inr r2' /\
          expectation r2' = expectation r' /\ std_err r2' = std_err r').
Proof.
  intros Hc. rewrite (correct_experiment_result_nonzero r c Hc).
  eexists. split; [reflexivity|]. cbn [expectation std_err].
  split; [reflexivity|]. split; [reflexivity|].
  split; [|split].
  - intros Hr. symmetry. now apply ratio_variance_form.
  - intros Hr. rewrite Hr. now apply ratio_variance_zero.
  - intros r2 c2 E1 E2 E3 E4.
    rewrite (correct_experiment_result_nonzero r2 c2)
      by (rewrite E3; exact Hc).
    eexists. split; [reflexivity|]. cbn [expectation std_err].
    now rewrite E1, E2, E3, E4.
Qed.

(** The formula at the X0X1 row of the notebook. *)
Lemma correction_formula_witness :
  expectation calibration_X0X1 <> 0 /\
  exists r',
    correct_experiment_result raw_X0X1 calibration_X0X1 = inr r' /\
    expectation r' = 0.759 / 0.768 /\
    std_err r' = sqrt (0.014562470009115317 ^ 2 / 0.768 ^ 2
                       + 0.759 ^ 2 * 0.01432447539345329 ^ 2 / 0.768 ^ 4).
Proof.
  assert (Hc : expectation calibration_X0X1 <> 0) by (simpl; lra).
  split; [exact Hc|].
  destruct (correction_formula raw_X0X1 calibration_X0X1 Hc)
    as (r' & E & He & Hs & _).
  exists r'. split; [exact E|]. split; [exact He | exact Hs].
Defined.

Lemma sqrt_between (a lo hi : R) :
  0 <= lo -> lo * lo <= a -> a <= hi * hi -> 0 <= hi -> lo <= sqrt a <= hi.
Proof.
  intros Hlo H1 H2 Hhi. split.
  - rewrite <- (sqrt_square lo Hlo). now apply sqrt_le_1_alt.
  - rewrite <- (sqrt_square hi Hhi). now apply sqrt_le_1_alt.
Qed.

Lemma reproduces_intro (er sr ec sc e2 s2 : R) :
  ec <> 0 ->
  Rabs (er / ec - e2) <= 1 / 10 ^ 12 ->
  0 <= s2 - 1 / 10 ^ 12 ->
  (s2 - 1 / 10 ^ 12) * (s2 - 1 / 10 ^ 12)
    <= sr ^ 2 / ec ^ 2 + er ^ 2 * sc ^ 2 / ec ^ 4 ->
  sr ^ 2 / ec ^ 2 + er ^ 2 * sc ^ 2 / ec ^ 4
    <= (s2 + 1 / 10 ^ 12) * (s2 + 1 / 10 ^ 12) ->
  reproduces ((er, sr), (ec, sc), (e2, s2)).
Proof.
  intros Hc He Hlo H1 H2 r c E1 E2 E3 E4. cbn [fst snd] in *.
  rewrite (correct_experiment_result_nonzero r c) by (rewrite E3; exact Hc).
  rewrite E1, E2, E3, E4.
  eexists. split; [reflexivity|]. cbn [expectation std_err].
  split; [exact He|].
  destruct (sqrt_between (sr ^ 2 / ec ^ 2 + er ^ 2 * sc ^ 2 / ec ^ 4)
              (s2 - 1 / 10 ^ 12) (s2 + 1 / 10 ^ 12)) as [L U];
    try assumption; [lra|].
  apply Rabs_le. lra.
Qed.

(** X23.  The formula reproduces the corrected results that the notebook
    records: on each of its fifteen rows, from the recorded raw and
    calibration numbers it gives the recorded corrected expectation and
    standard error up to [10^-12]. *)
Lemma correction_reproduces_notebook : Forall reproduces notebook_rows.
Proof.
  unfold notebook_rows.
  repeat (constructor;
          [apply reproduces_intro;
           [lra | apply Rabs_le; lra | lra | lra | lra]|]).
  constructor.
Qed.

(** C8.  Under a calibration of expectation 1 and standard error 0, a raw
    result (its standard error is not negative) comes back with its
    expectation and its standard error unchanged, also at a raw expectation
    0. *)
Theorem unit_calibration_unchanged (r c : ExperimentResult) :
  expectation c = 1 -> std_err c = 0 ->
  0 <= std_err r ->
  exists r',
    correct_experiment_result r c = inr r' /\
    expectation r' = expectation r /\ std_err r' = std_err r.
Proof.
  intros He Hs Hpos.
  rewrite (correct_experiment_result_nonzero r c) by (rewrite He; lra).
  eexists. split; [reflexivity|]. cbn [expectation std_err].
  rewrite He, Hs. split; [field|].
  replace (std_err r ^ 2 / 1 ^ 2 + expectation r ^ 2 * 0 ^ 2 / 1 ^ 4)
    with (Rsqr (std_err r)) by (unfold Rsqr; field).
  now apply sqrt_Rsqr.
Qed.

(** The claim at a raw expectation 0 with standard error 1. *)
Lemma unit_calibration_unchanged_witness :
  expectation calibration_unit = 1 /\ std_err calibration_unit = 0 /\
  0 <= std_err raw_zero_expectation /\
  exists r',
    correct_experiment_result raw_zero_expectation calibration_unit = inr r' /\
    expectation r' = 0 /\ std_err r' = 1.
Proof.
  assert (H : 0 <= std_err raw_zero_expectation) by (simpl; lra).
  split; [reflexivity|]. split; [reflexivity|]. split; [exact H|].
  exact (unit_calibration_unchanged raw_zero_expectation calibration_unit
           eq_refl eq_refl H).
Defined.

End Correction.

(** ** Measurement settings *)

Section Settings.

Lemma product_IXYZ_length (n : nat) : length (product_IXYZ n) = 4 ^ n.
Proof.
  induction n as [|n IH]; [reflexivity|].
  cbn [product_IXYZ flat_map]. rewrite !length_app, !length_map, IH.
  cbn [length Nat.pow]. lia.
Qed.

Lemma product_IXYZ_In (n : nat) (labels : list pauli_op) :
  In labels (product_IXYZ n) <-> length labels = n.
Proof.
  revert labels. induction n as [|n IH]; intros labels.
  - cbn. split.
    + intros [E|[]]. now subst.
    + intros E. destruct labels; [now left | discriminate].
  - cbn [product_IXYZ flat_map]. rewrite !in_app_iff, !in_map_iff. split.
    + intros [(l & E & Hl)|[(l & E & Hl)|[(l & E & Hl)|[(l & E & Hl)|[]]]]];
        subst labels; apply IH in Hl; cbn; now rewrite Hl.
    + intros E. destruct labels as [|o l]; [discriminate|].
      injection E as E. apply IH in E.
      destruct o; [left | right; left | right; right; left
                   | right; right; right; left]; exists l; now split.
Qed.

Lemma NoDup_map_cons (o : pauli_op) (L : list (list pauli_op)) :
  NoDup L -> NoDup (map (cons o) L).
Proof.
  induction 1 as [|x L Hx HL IH]; cbn; constructor; [|exact IH].
  rewrite in_map_iff. intros (y & E & Hy). injection E as E. now subst.
Qed.

Lemma NoDup_app_disjoint {A} (l1 l2 : list A) :
  NoDup l1 -> NoDup l2 -> (forall x, In x l1 -> In x l2 -> False) ->
  NoDup (l1 ++ l2).
Proof.
  induction 1 as [|x l1 Hx H1 IH]; intros H2 Hd; [exact H2|].
  cbn. constructor.
  - rewrite in_app_iff. intros [A1|A2]; [contradiction|].
    apply (Hd x); [now left | exact A2].
  - apply IH; [exact H2|]. intros y Hy. apply Hd. now right.
Qed.

Lemma product_IXYZ_NoDup (n : nat) : NoDup (product_IXYZ n).
Proof.
  induction n as [|n IH].
  - cbn. constructor; [intros [] | constructor].
  - cbn [product_IXYZ flat_map]. rewrite app_nil_r.
    repeat (apply NoDup_app_disjoint;
            [now apply NoDup_map_cons | | ]);
      try (now apply NoDup_map_cons);
      intros x Hx Hy; rewrite ?in_app_iff, ?in_map_iff in *;
      destruct Hx as (l & E & _); subst x;
      repeat (destruct Hy as [Hy|Hy]);
      destruct Hy as (l' & E' & _); discriminate.
Qed.

Lemma product_IXYZ_head (n : nat) :
  exists rest, product_IXYZ n = repeat op_I n :: rest.
Proof.
  induction n as [|n (rest & IH)]; [now exists []|].
  cbn [product_IXYZ flat_map]. rewrite IH. cbn. eexists. reflexivity.
Qed.

(** The operators stored in a term determine the labels, on qubits without
    repetition. *)
Lemma pauli_term_of_inj (qubits : list nat) :
  NoDup qubits ->
  forall l1 l2 : list pauli_op,
    length l1 = length qubits -> length l2 = length qubits ->
    pauli_term_of qubits l1 = pauli_term_of qubits l2 -> l1 = l2.
Proof.
  unfold pauli_term_of.
  induction 1 as [|q qs Hq Hqs IH]; intros l1 l2 H1 H2 E.
  - destruct l1, l2; try discriminate. reflexivity.
  - destruct l1 as [|a l1], l2 as [|b l2]; try discriminate.
    injection H1 as H1. injection H2 as H2. injection E as E.
    cbn [combine filter snd] in E.
    assert (Hnot : forall (o : pauli_op) l l',
               (q, o) :: l
               = filter (fun qo => negb (pauli_op_eqb (snd qo) op_I))
                        (combine qs l') -> False).
    { intros o l l' Hl.
      assert (Hin : In (q, o) (combine qs l')).
      { eapply proj1. apply filter_In. rewrite <- Hl. now left. }
      apply in_combine_l in Hin. contradiction. }
    destruct a, b; cbn [pauli_op_eqb negb] in E;
      try (exfalso; eapply Hnot; exact E);
      try (exfalso; eapply Hnot; symmetry; exact E);
      try (injection E as E; try discriminate);
      f_equal; apply IH; try assumption; now f_equal.
Qed.

Lemma NoDup_map_In_inj {A B} (f : A -> B) (l : list A) :
  (forall x y, In x l -> In y l -> f x = f y -> x = y) ->
  NoDup l -> NoDup (map f l).
Proof.
  intros Hinj. induction 1 as [|x l Hx Hl IH]; cbn; constructor.
  - rewrite in_map_iff. intros (y & E & Hy).
    assert (y = x) by (apply Hinj; [now right | now left | exact E]).
    now subst.
  - apply IH. intros a b Ha Hb. apply Hinj; now right.
Qed.

Lemma all_traceless_pauli_terms_length (qubits : list nat) :
  length (all_traceless_pauli_terms qubits) = 4 ^ length qubits - 1.
Proof.
  unfold all_traceless_pauli_terms.
  destruct (product_IXYZ_head (length qubits)) as (rest & E).
  pose proof (product_IXYZ_length (length qubits)) as HL.
  rewrite E in *. cbn in *. rewrite length_map. lia.
Qed.

(** The terms enumerated are the terms of the label vectors that have an
    operator other than the identity. *)
Lemma all_traceless_pauli_terms_In (qubits : list nat) (t : PauliTerm) :
  In t (all_traceless_pauli_terms qubits) <->
  exists labels,
    length labels = length qubits /\
    (exists o, In o labels /\ o <> op_I) /\
    t = pauli_term_of qubits labels.
Proof.
  unfold all_traceless_pauli_terms.
  destruct (product_IXYZ_head (length qubits)) as (rest & E).
  pose proof (product_IXYZ_NoDup (length qubits)) as HN.
  pose proof (product_IXYZ_In (length qubits)) as HI.
  rewrite E in *. cbn [map tl]. rewrite in_map_iff.
  inversion HN as [|x l Hx Hrest]; subst.
  split.
  - intros (labels & Et & Hin). exists labels.
    assert (Hlen : length labels = length qubits)
      by (apply HI; now right).
    split; [exact Hlen|]. split; [|now symmetry].
    assert (Hne : labels <> repeat op_I (length qubits))
      by (intros ->; contradiction).
    clear - Hne Hlen. revert Hne Hlen. generalize (length qubits) as n.
    induction labels as [|a l IH]; intros n Hne Hlen.
    + subst n. now contradiction Hne.
    + destruct n as [|n]; [discriminate|]. injection Hlen as Hlen.
      destruct a;
        try (eexists; split; [now left | discriminate]).
      destruct (IH n) as (o & Ho & Hno); [|exact Hlen|].
      * intros ->. now apply Hne.
      * exists o. split; [now right | exact Hno].
  - intros (labels & Hlen & (o & Ho & Hno) & ->). exists labels.
    split; [reflexivity|].
    apply HI in Hlen. destruct Hlen as [Eq|Hin]; [|exact Hin].
    subst labels. apply repeat_spec in Ho. contradiction.
Qed.

Lemma all_traceless_pauli_terms_NoDup (qubits : list nat) :
  NoDup qubits -> NoDup (all_traceless_pauli_terms qubits).
Proof.
  intros Hq. unfold all_traceless_pauli_terms.
  assert (HN : NoDup (map (pauli_term_of qubits)
                          (product_IXYZ (length qubits)))).
  { apply NoDup_map_In_inj; [|apply product_IXYZ_NoDup].
    intros x y Hx Hy. apply pauli_term_of_inj; [exact Hq | |];
      now apply product_IXYZ_In. }
  destruct (map (pauli_term_of qubits) (product_IXYZ (length qubits)));
    [constructor|]. now inversion HN.
Qed.

(** C9.  On a set of [n] qubits the generator yields [4^n - 1] settings;
    what it yields are the settings that pair the all-zeros state on the
    qubits with the term of a label vector other than the identity, and
    no setting is yielded twice: one setting per non-identity Pauli tensor
    product. *)
Theorem state_tomo_settings_enumeration (qubits : list nat) :
  NoDup qubits ->
  length (state_tomo_settings qubits) = 4 ^ length qubits - 1 /\
  (forall s : ExperimentSetting,
      In s (state_tomo_settings qubits) <->
      exists labels,
        length labels = length qubits /\
        (exists o, In o labels /\ o <> op_I) /\
        s = mkExperimentSetting (zeros_state qubits)
                                (pauli_term_of qubits labels)) /\
  NoDup (map out_operator (state_tomo_settings qubits)).
Proof.
  intros Hq. unfold state_tomo_settings. split; [|split].
  - rewrite length_map. apply all_traceless_pauli_terms_length.
  - intros s. rewrite in_map_iff. split.
    + intros (t & <- & Ht). apply all_traceless_pauli_terms_In in Ht.
      destruct Ht as (labels & Hl & Ho & ->). exists labels. now repeat split.
    + intros (labels & Hl & Ho & ->). eexists. split; [reflexivity|].
      apply all_traceless_pauli_terms_In. exists labels. now repeat split.
  - rewrite map_map. cbn [out_operator]. rewrite map_id.
    now apply all_traceless_pauli_terms_NoDup.
Qed.

(** The fifteen settings the notebook prints for qubits (0, 1). *)
Lemma state_tomo_settings_enumeration_witness :
  NoDup [0; 1] /\
  length (state_tomo_settings [0; 1]) = 15 /\
  map (fun s => ops (out_operator s)) (state_tomo_settings [0; 1])
  = [ [(1, op_X)]; [(1, op_Y)]; [(1, op_Z)];
      [(0, op_X)]; [(0, op_X); (1, op_X)]; [(0, op_X); (1, op_Y)];
      [(0, op_X); (1, op_Z)];
      [(0, op_Y)]; [(0, op_Y); (1, op_X)]; [(0, op_Y); (1, op_Y)];
      [(0, op_Y); (1, op_Z)];
      [(0, op_Z)]; [(0, op_Z); (1, op_X)]; [(0, op_Z); (1, op_Y)];
      [(0, op_Z); (1, op_Z)] ].
Proof.
  assert (Hq : NoDup [0; 1]).
  { constructor; [intros [E|[]]; discriminate|].
    constructor; [intros []|constructor]. }
  split; [exact Hq|]. split; [|reflexivity].
  exact (proj1 (state_tomo_settings_enumeration [0; 1] Hq)).
Defined.

End Settings.

(** ** Complex arithmetic *)

Section Complex.
Local Open Scope R_scope.

Lemma C_eq (a b : C) : fst a = fst b -> snd a = snd b -> a = b.
Proof. destruct a, b. cbn. now intros -> ->. Qed.

Ltac csolve :=
  intros; apply C_eq; cbn [fst snd Cadd Cmul Copp Csub Cconj RtoC C0 C1 Ci Cdivr];
  try ring.

Lemma Cadd_0_l a : Cadd C0 a = a. Proof. csolve. Qed.
Lemma Cadd_0_r a : Cadd a C0 = a. Proof. csolve. Qed.
Lemma Cadd_comm a b : Cadd a b = Cadd b a. Proof. csolve. Qed.
Lemma Cadd_assoc a b c : Cadd a (Cadd b c) = Cadd (Cadd a b) c.
Proof. csolve. Qed.
Lemma Cmul_1_l a : Cmul C1 a = a. Proof. csolve. Qed.
Lemma Cmul_1_r a : Cmul a C1 = a. Proof. csolve. Qed.
Lemma Cmul_0_l a : Cmul C0 a = C0. Proof. csolve. Qed.
Lemma Cmul_0_r a : Cmul a C0 = C0. Proof. csolve. Qed.
Lemma Cmul_comm a b : Cmul a b = Cmul b a. Proof. csolve. Qed.
Lemma Cmul_assoc a b c : Cmul a (Cmul b c) = Cmul (Cmul a b) c.
Proof. csolve. Qed.
Lemma Cmul_add_distr_r a b c : Cmul (Cadd a b) c = Cadd (Cmul a c) (Cmul b c).
Proof. csolve. Qed.
Lemma Cmul_add_distr_l a b c : Cmul a (Cadd b c) = Cadd (Cmul a b) (Cmul a c).
Proof. csolve. Qed.
Lemma Cadd_opp_r a : Cadd a (Copp a) = C0. Proof. csolve. Qed.
Lemma Cconj_0 : Cconj C0 = C0. Proof. csolve. Qed.
Lemma Cconj_add a b : Cconj (Cadd a b) = Cadd (Cconj a) (Cconj b).
Proof. csolve. Qed.
Lemma Cconj_mul a b : Cconj (Cmul a b) = Cmul (Cconj a) (Cconj b).
Proof. csolve. Qed.
Lemma Cconj_involutive a : Cconj (Cconj a) = a. Proof. csolve. Qed.

Lemma C_ring_theory : ring_theory C0 C1 Cadd Cmul Csub Copp eq.
Proof.
  constructor.
  - exact Cadd_0_l.
  - exact Cadd_comm.
  - exact Cadd_assoc.
  - exact Cmul_1_l.
  - exact Cmul_comm.
  - exact Cmul_assoc.
  - exact Cmul_add_distr_r.
  - reflexivity.
  - exact Cadd_opp_r.
Qed.

End Complex.

Add Ring C_ring : C_ring_theory.

(** ** Finite sums *)

Section Sums.

Lemma Csum_ext (n : nat) (f g : nat -> C) :
  (forall l, l < n -> f l = g l) -> Csum n f = Csum n g.
Proof.
  induction n as [|n IH]; intros Hfg; [reflexivity|].
  cbn. rewrite IH, Hfg; auto.
Qed.

Lemma Csum_zero (n : nat) (f : nat -> C) :
  (forall l, l < n -> f l = C0) -> Csum n f = C0.
Proof.
  induction n as [|n IH]; intros Hf; [reflexivity|].
  cbn. rewrite IH, Hf; auto. ring.
Qed.

Lemma Csum_add (n : nat) (f g : nat -> C) :
  Csum n (fun l => Cadd (f l) (g l)) = Cadd (Csum n f) (Csum n g).
Proof. induction n as [|n IH]; cbn; [ring|]. rewrite IH. ring. Qed.

Lemma Csum_mul_l (n : nat) (c : C) (f : nat -> C) :
  Csum n (fun l => Cmul c (f l)) = Cmul c (Csum n f).
Proof. induction n as [|n IH]; cbn; [ring|]. rewrite IH. ring. Qed.

Lemma Csum_mul_r (n : nat) (c : C) (f : nat -> C) :
  Csum n (fun l => Cmul (f l) c) = Cmul (Csum n f) c.
Proof. induction n as [|n IH]; cbn; [ring|]. rewrite IH. ring. Qed.

Lemma Csum_conj (n : nat) (f : nat -> C) :
  Cconj (Csum n f) = Csum n (fun l => Cconj (f l)).
Proof.
  induction n as [|n IH]; cbn; [apply Cconj_0|].
  now rewrite Cconj_add, IH.
Qed.

Lemma Csum_swap (m n : nat) (f : nat -> nat -> C) :
  Csum m (fun i => Csum n (fun j => f i j))
  = Csum n (fun j => Csum m (fun i => f i j)).
Proof.
  induction m as [|m IH]; cbn.
  - symmetry. now apply Csum_zero.
  - rewrite IH. now rewrite <- Csum_add.
Qed.

Lemma Csum_plus (m n : nat) (f : nat -> C) :
  Csum (m + n) f = Cadd (Csum m f) (Csum n (fun l => f (m + l))).
Proof.
  induction n as [|n IH].
  - rewrite Nat.add_0_r. cbn. ring.
  - rewrite Nat.add_succ_r. cbn. rewrite IH. ring.
Qed.

(** A sum over [a * b] indices as a sum over the quotients and the
    remainders. *)
Lemma Csum_product (a b : nat) (f : nat -> nat -> C) :
  0 < b ->
  Csum (a * b) (fun i => f (i / b) (i mod b))
  = Csum a (fun i1 => Csum b (fun i2 => f i1 i2)).
Proof.
  intros Hb. induction a as [|a IH]; [reflexivity|].
  replace (S a * b) with (a * b + b) by lia.
  rewrite Csum_plus, IH. cbn. f_equal.
  apply Csum_ext. intros l Hl.
  replace (a * b + l) with (l + a * b) by lia.
  rewrite Nat.div_add, Nat.Div0.mod_add by lia.
  rewrite Nat.div_small, Nat.mod_small by lia. reflexivity.
Qed.

(** The sum of [f l] over the single index [l = i]. *)
Lemma Csum_delta (n i : nat) (f : nat -> C) :
  i < n ->
  Csum n (fun l => if Nat.eqb i l then f l else C0) = f i.
Proof.
  induction n as [|n IH]; intros Hi; [lia|]. cbn.
  destruct (Nat.eqb_spec i n) as [->|Hne].
  - rewrite Csum_zero; [ring|]. intros l Hl.
    destruct (Nat.eqb_spec n l); [lia | reflexivity].
  - rewrite IH by lia. ring.
Qed.

End Sums.

(** ** Shapes and entries of arrays *)

Section Arrays.

Lemma mk_vector_length (n : nat) (f : nat -> C) : length (mk_vector n f) = n.
Proof. unfold mk_vector. now rewrite length_map, length_seq. Qed.

Lemma mk_vector_nth (n : nat) (f : nat -> C) (i : nat) :
  i < n -> nth i (mk_vector n f) C0 = f i.
Proof.
  intros Hi. unfold mk_vector.
  rewrite (nth_indep _ C0 (f 0)) by (now rewrite length_map, length_seq).
  rewrite map_nth, seq_nth by exact Hi. reflexivity.
Qed.

Lemma vector_ext (n : nat) (u v : vector) :
  length u = n -> length v = n ->
  (forall i, i < n -> nth i u C0 = nth i v C0) -> u = v.
Proof.
  intros Hu Hv Hn. apply (nth_ext u v C0 C0); [congruence|].
  intros i Hi. apply Hn. congruence.
Qed.

Lemma mk_matrix_nrows (m n : nat) (f : nat -> nat -> C) :
  nrows (mk_matrix m n f) = m.
Proof. unfold nrows, mk_matrix. now rewrite length_map, length_seq. Qed.

Lemma mk_matrix_ncols (m n : nat) (f : nat -> nat -> C) :
  0 < m -> ncols (mk_matrix m n f) = n.
Proof.
  intros Hm. unfold ncols, mk_matrix.
  destruct m as [|m]; [lia|]. cbn [seq map].
  now rewrite length_map, length_seq.
Qed.

Lemma mk_matrix_well_formed (m n : nat) (f : nat -> nat -> C) :
  well_formed m n (mk_matrix m n f).
Proof.
  split; [apply mk_matrix_nrows|].
  unfold mk_matrix. apply Forall_forall. intros row Hrow.
  apply in_map_iff in Hrow. destruct Hrow as (i & <- & _).
  now rewrite length_map, length_seq.
Qed.

Lemma ent_mk_matrix (m n : nat) (f : nat -> nat -> C) (i j : nat) :
  i < m -> j < n -> ent (mk_matrix m n f) i j = f i j.
Proof.
  intros Hi Hj. unfold ent, mk_matrix.
  rewrite (nth_indep _ [] (map (fun j => f 0 j) (seq 0 n)))
    by (now rewrite length_map, length_seq).
  rewrite (map_nth (fun i => map (fun j => f i j) (seq 0 n)) (seq 0 m) 0 i).
  rewrite seq_nth by exact Hi. cbn [Nat.add].
  exact (mk_vector_nth n (f i) j Hj).
Qed.

Lemma well_formed_nrows (m n : nat) (A : matrix) :
  well_formed m n A -> nrows A = m.
Proof. now intros [H _]. Qed.

Lemma well_formed_ncols (m n : nat) (A : matrix) :
  well_formed m n A -> 0 < m -> ncols A = n.
Proof.
  intros [Hm Hn] Hpos. destruct A as [|row A]; [cbn in Hm; lia|].
  cbn. now inversion Hn.
Qed.

Lemma well_formed_row (m n : nat) (A : matrix) (i : nat) :
  well_formed m n A -> i < m -> length (nth i A []) = n.
Proof.
  intros [Hm Hn] Hi. rewrite Forall_forall in Hn.
  apply Hn, nth_In. now rewrite Hm.
Qed.

Lemma matrix_ext (m n : nat) (A B : matrix) :
  well_formed m n A -> well_formed m n B ->
  (forall i j, i < m -> j < n -> ent A i j = ent B i j) -> A = B.
Proof.
  intros HA HB Hent.
  apply (nth_ext A B [] []); [destruct HA, HB; congruence|].
  intros i Hi. assert (Hi' : i < m) by (destruct HA; congruence).
  apply vector_ext with (n := n).
  - now apply well_formed_row with (m := m).
  - now apply well_formed_row with (m := m).
  - intros j Hj. now apply Hent.
Qed.

Lemma matvec_length (A : matrix) (v : vector) :
  length (matvec A v) = nrows A.
Proof. apply mk_vector_length. Qed.

Lemma matvec_nth (A : matrix) (v : vector) (i : nat) :
  i < nrows A ->
  nth i (matvec A v) C0
  = Csum (ncols A) (fun l => Cmul (ent A i l) (nth l v C0)).
Proof. intros Hi. unfold matvec. now rewrite mk_vector_nth. Qed.

Lemma matmul_nrows (A B : matrix) : nrows (matmul A B) = nrows A.
Proof. apply mk_matrix_nrows. Qed.

Lemma matmul_ncols (A B : matrix) :
  0 < nrows A -> ncols (matmul A B) = ncols B.
Proof. intros. now apply mk_matrix_ncols. Qed.

Lemma matmul_ent (A B : matrix) (i j : nat) :
  i < nrows A -> j < ncols B ->
  ent (matmul A B) i j
  = Csum (ncols A) (fun l => Cmul (ent A i l) (ent B l j)).
Proof. intros. unfold matmul. now rewrite ent_mk_matrix. Qed.

Lemma matmul_well_formed (A B : matrix) :
  well_formed (nrows A) (ncols B) (matmul A B).
Proof. apply mk_matrix_well_formed. Qed.

(** The conjugate transpose [A.T.conj()], by its entries. *)
Lemma conj_transpose_nrows (A : matrix) :
  nrows (conj (transpose A)) = ncols A.
Proof. unfold conj, transpose. now rewrite !mk_matrix_nrows. Qed.

Lemma conj_transpose_ncols (A : matrix) :
  0 < ncols A -> ncols (conj (transpose A)) = nrows A.
Proof.
  intros H. unfold conj. rewrite mk_matrix_ncols.
  - unfold transpose. now rewrite mk_matrix_ncols.
  - unfold transpose. now rewrite mk_matrix_nrows.
Qed.

Lemma conj_transpose_ent (A : matrix) (i j : nat) :
  i < ncols A -> j < nrows A ->
  ent (conj (transpose A)) i j = Cconj (ent A j i).
Proof.
  intros Hi Hj. unfold conj, transpose.
  rewrite mk_matrix_nrows, mk_matrix_ncols by lia.
  rewrite !ent_mk_matrix by assumption. reflexivity.
Qed.

Lemma conj_transpose_well_formed (A : matrix) :
  0 < ncols A ->
  well_formed (ncols A) (nrows A) (conj (transpose A)).
Proof.
  intros H. unfold conj.
  replace (nrows (transpose A)) with (ncols A)
    by (unfold transpose; now rewrite mk_matrix_nrows).
  replace (ncols (transpose A)) with (nrows A)
    by (unfold transpose; now rewrite mk_matrix_ncols).
  apply mk_matrix_well_formed.
Qed.

(** [(A @ B) @ v = A @ (B @ v)] *)
Lemma matvec_matmul (A B : matrix) (v : vector) :
  ncols A = nrows B ->
  matvec (matmul A B) v = matvec A (matvec B v).
Proof.
  intros Hshape.
  apply vector_ext with (n := nrows A).
  - now rewrite matvec_length, matmul_nrows.
  - apply matvec_length.
  - intros i Hi.
    rewrite !matvec_nth by (rewrite ?matmul_nrows; exact Hi).
    rewrite matmul_ncols by lia.
    transitivity
      (Csum (ncols B) (fun l =>
         Csum (ncols A) (fun t =>
           Cmul (Cmul (ent A i t) (ent B t l)) (nth l v C0)))).
    { apply Csum_ext. intros l Hl.
      rewrite matmul_ent by assumption. now rewrite Csum_mul_r. }
    rewrite Csum_swap. apply Csum_ext. intros t Ht.
    rewrite matvec_nth by lia. rewrite <- Csum_mul_l.
    apply Csum_ext. intros l _. ring.
Qed.

(** [(A @ B).T.conj() = B.T.conj() @ A.T.conj()] *)
Lemma conj_transpose_matmul (A B : matrix) :
  0 < nrows A -> ncols A = nrows B -> 0 < nrows B -> 0 < ncols B ->
  conj (transpose (matmul A B))
  = matmul (conj (transpose B)) (conj (transpose A)).
Proof.
  intros HA Hshape HB HB'.
  apply matrix_ext with (m := ncols B) (n := nrows A).
  - pose proof (conj_transpose_well_formed (matmul A B)) as Hwf.
    rewrite matmul_ncols, matmul_nrows in Hwf by exact HA.
    now apply Hwf.
  - unfold matmul at 1.
    rewrite conj_transpose_nrows, conj_transpose_ncols by lia.
    apply mk_matrix_well_formed.
  - intros i j Hi Hj.
    rewrite conj_transpose_ent
      by (rewrite ?matmul_ncols, ?matmul_nrows; assumption).
    rewrite matmul_ent by assumption.
    rewrite matmul_ent
      by (rewrite ?conj_transpose_nrows, ?conj_transpose_ncols; lia).
    rewrite conj_transpose_ncols by lia.
    rewrite Csum_conj, Hshape. apply Csum_ext. intros l Hl.
    rewrite !conj_transpose_ent by lia.
    rewrite Cconj_mul. ring.
Qed.

End Arrays.

(** ** The Moore-Penrose pseudo-inverse *)

Section PseudoInverse.

Variables M P : matrix.
Hypothesis M_rows : 0 < nrows M.
Hypothesis M_cols : 0 < ncols M.
Hypothesis P_pinv : moore_penrose M P.

Lemma pinv_nrows : nrows P = ncols M.
Proof. destruct P_pinv as (Hwf & _). now apply well_formed_nrows in Hwf. Qed.

Lemma pinv_ncols : ncols P = nrows M.
Proof.
  destruct P_pinv as (Hwf & _).
  now apply well_formed_ncols in Hwf.
Qed.

(** The pseudo-inverse maps into the range of the conjugate transpose:
    [P @ y = M^H @ w], with [w = P^H @ (P @ y)]. *)
Lemma pinv_range (y : vector) :
  matvec P y
  = matvec (conj (transpose M))
           (matvec (conj (transpose P)) (matvec P y)).
Proof.
  pose proof pinv_nrows as Hn. pose proof pinv_ncols as Hc.
  destruct P_pinv as (_ & _ & E2 & _ & E4).
  rewrite conj_transpose_matmul in E4 by lia.
  rewrite <- E4 in E2.
  transitivity
    (matvec (matmul (matmul (conj (transpose M)) (conj (transpose P))) P) y).
  { now rewrite E2. }
  rewrite matvec_matmul.
  - rewrite matvec_matmul; [reflexivity|].
    rewrite conj_transpose_ncols, conj_transpose_nrows by lia. lia.
  - rewrite matmul_ncols by (rewrite conj_transpose_nrows; lia).
    rewrite conj_transpose_ncols by lia. reflexivity.
Qed.

(** [(c I) @ w = c w] *)
Lemma matvec_scaled_eye (k : nat) (c : C) (w : vector) :
  length w = k ->
  matvec (mk_matrix k k (fun i j => if Nat.eqb i j then c else C0)) w
  = map (Cmul c) w.
Proof.
  intros Hw. destruct (Nat.eq_dec k 0) as [->|Hk].
  { destruct w; [reflexivity | discriminate]. }
  apply vector_ext with (n := k).
  - now rewrite matvec_length, mk_matrix_nrows.
  - now rewrite length_map.
  - intros i Hi.
    rewrite matvec_nth by (now rewrite mk_matrix_nrows).
    rewrite mk_matrix_ncols by lia.
    rewrite (Csum_ext k _
               (fun l => if Nat.eqb i l then Cmul c (nth l w C0) else C0)).
    + rewrite Csum_delta by exact Hi.
      rewrite (nth_indep (map (Cmul c) w) C0 (Cmul c C0))
        by (rewrite length_map; lia).
      now rewrite map_nth.
    + intros l Hl. rewrite ent_mk_matrix by assumption.
      destruct (Nat.eqb i l); [reflexivity | ring].
Qed.

(** When the rows of [M] are orthogonal with the same squared norm [c],
    the pseudo-inverse acts as [M^H / c]. *)
Lemma pinv_orthogonal_rows (c : R) (y : vector) :
  c <> 0%R ->
  matmul M (conj (transpose M))
  = mk_matrix (nrows M) (nrows M)
      (fun i j => if Nat.eqb i j then RtoC c else C0) ->
  length y = nrows M ->
  matvec P y
  = matvec (conj (transpose M)) (map (fun x => Cdivr x c) y).
Proof.
  intros Hc Horth Hy.
  pose proof pinv_nrows as Hn. pose proof pinv_ncols as Hk.
  set (MH := conj (transpose M)) in *.
  set (w := matvec (conj (transpose P)) (matvec P y)).
  assert (Hw : length w = nrows M).
  { unfold w. rewrite matvec_length, conj_transpose_nrows. exact Hk. }
  assert (HMH : ncols M = nrows MH)
    by (unfold MH; now rewrite conj_transpose_nrows).
  (* M @ (P @ y) = y *)
  assert (Hy' : map (Cmul (RtoC c)) (map (fun x => Cdivr x c) y) = y).
  { rewrite map_map. rewrite <- (map_id y) at 2. apply map_ext.
    intros [a b]. unfold Cmul, Cdivr, RtoC. cbn [fst snd].
    f_equal; field; exact Hc. }
  assert (HMPy : matvec M (matvec P y) = y).
  { rewrite <- Hy' at 1.
    rewrite <- (matvec_scaled_eye (nrows M) (RtoC c))
      by (now rewrite length_map).
    rewrite <- Horth. rewrite (matvec_matmul M MH) by exact HMH.
    rewrite <- (matvec_matmul P M) by lia.
    rewrite <- (matvec_matmul M (matmul P M))
      by (rewrite matmul_nrows; lia).
    destruct P_pinv as (_ & E1 & _).
    assert (Hassoc : matmul M (matmul P M) = matmul (matmul M P) M).
    { apply matrix_ext with (m := nrows M) (n := ncols M).
      - pose proof (matmul_well_formed M (matmul P M)) as Hwf.
        rewrite matmul_ncols in Hwf by lia. exact Hwf.
      - pose proof (matmul_well_formed (matmul M P) M) as Hwf.
        rewrite matmul_nrows in Hwf. exact Hwf.
      - intros i j Hi Hj.
        rewrite !matmul_ent
          by (rewrite ?matmul_nrows, ?matmul_ncols; lia).
        rewrite matmul_ncols by lia.
        transitivity
          (Csum (ncols M) (fun l => Csum (ncols P) (fun t =>
             Cmul (Cmul (ent M i l) (ent P l t)) (ent M t j)))).
        + apply Csum_ext. intros l Hl.
          rewrite matmul_ent by lia. rewrite <- Csum_mul_l.
          apply Csum_ext. intros t _. ring.
        + rewrite Csum_swap. apply Csum_ext. intros t Ht.
          rewrite matmul_ent by lia. now rewrite Csum_mul_r. }
    rewrite Hassoc, E1.
    rewrite <- (matvec_matmul M MH) by exact HMH.
    rewrite Horth, matvec_scaled_eye by (now rewrite length_map).
    exact Hy'. }
  (* c w = M @ (M^H @ w) = M @ (P @ y) = y *)
  rewrite pinv_range. fold w. fold MH. f_equal.
  assert (Hcw : map (Cmul (RtoC c)) w = y).
  { rewrite <- (matvec_scaled_eye (nrows M) (RtoC c)) by exact Hw.
    rewrite <- Horth. rewrite (matvec_matmul M MH) by exact HMH.
    unfold w, MH. rewrite <- pinv_range. exact HMPy. }
  rewrite <- Hcw, map_map. rewrite <- (map_id w) at 1. apply map_ext.
  intros [a b]. unfold Cmul, Cdivr, RtoC. cbn [fst snd].
  f_equal; field; exact Hc.
Qed.

End PseudoInverse.

(** ** Kronecker products, traces and the matrix of a Pauli term *)

Ltac c_arith :=
  apply C_eq;
  cbn [fst snd Cadd Cmul Copp Csub Cconj RtoC C0 C1 Ci Cdivr];
  try ring.

Section Kron.

Lemma kron_nrows (A B : matrix) : nrows (kron A B) = nrows A * nrows B.
Proof. apply mk_matrix_nrows. Qed.

Lemma kron_ncols (A B : matrix) :
  0 < nrows A * nrows B -> ncols (kron A B) = ncols A * ncols B.
Proof. intros. now apply mk_matrix_ncols. Qed.

Lemma kron_ent (A B : matrix) (i j : nat) :
  i < nrows A * nrows B -> j < ncols A * ncols B ->
  ent (kron A B) i j
  = Cmul (ent A (i / nrows B) (j / ncols B))
         (ent B (i mod nrows B) (j mod ncols B)).
Proof. intros. unfold kron. now rewrite ent_mk_matrix. Qed.

(** [trace (kron A B) = trace A * trace B] on square arrays *)
Lemma trace_kron (A B : matrix) :
  ncols A = nrows A -> ncols B = nrows B -> 0 < nrows B ->
  trace (kron A B) = Cmul (trace A) (trace B).
Proof.
  intros HA HB Hpos. unfold trace. rewrite kron_nrows.
  rewrite (Csum_ext _ _
             (fun i => (fun i1 i2 => Cmul (ent A i1 i1) (ent B i2 i2))
                         (i / nrows B) (i mod nrows B))).
  - rewrite (Csum_product (nrows A) (nrows B)
               (fun i1 i2 => Cmul (ent A i1 i1) (ent B i2 i2)) Hpos).
    rewrite <- Csum_mul_r. apply Csum_ext. intros i1 _.
    now rewrite Csum_mul_l.
  - intros i Hi. rewrite kron_ent by (rewrite ?HA, ?HB; exact Hi).
    now rewrite HB.
Qed.

Lemma QUANTUM_GATES_nrows (o : pauli_op) : nrows (QUANTUM_GATES o) = 2.
Proof. now destruct o. Qed.

Lemma QUANTUM_GATES_ncols (o : pauli_op) : ncols (QUANTUM_GATES o) = 2.
Proof. now destruct o. Qed.

(** The Pauli matrices X, Y and Z are traceless. *)
Lemma QUANTUM_GATES_trace (o : pauli_op) :
  o <> op_I -> trace (QUANTUM_GATES o) = C0.
Proof.
  intros Ho. destruct o; [contradiction| | |];
    unfold trace; cbn [QUANTUM_GATES nrows length Csum ent nth]; c_arith.
Qed.

Lemma term_hilbert_shape (term : PauliTerm) (qubits : list nat) :
  forall (acc : matrix) (s : nat),
    nrows acc = s -> ncols acc = s -> 0 < s ->
    nrows (term_hilbert term qubits acc) = 2 ^ length qubits * s /\
    ncols (term_hilbert term qubits acc) = 2 ^ length qubits * s.
Proof.
  induction qubits as [|q qs IH]; intros acc s Hr Hc Hs.
  - cbn [term_hilbert fold_left length]. rewrite Hr, Hc. cbn. lia.
  - cbn [term_hilbert fold_left length].
    destruct (IH (kron (QUANTUM_GATES (term_getitem term q)) acc) (2 * s))
      as [IH1 IH2].
    + now rewrite kron_nrows, QUANTUM_GATES_nrows, Hr.
    + rewrite kron_ncols by (rewrite QUANTUM_GATES_nrows; lia).
      now rewrite QUANTUM_GATES_ncols, Hc.
    + lia.
    + unfold term_hilbert in *. rewrite IH1, IH2.
      rewrite Nat.pow_succ_r'. lia.
Qed.

Lemma term_hilbert_trace_zero (term : PauliTerm) (qubits : list nat) :
  forall (acc : matrix) (s : nat),
    nrows acc = s -> ncols acc = s -> 0 < s ->
    trace acc = C0 ->
    trace (term_hilbert term qubits acc) = C0.
Proof.
  induction qubits as [|q qs IH]; intros acc s Hr Hc Hs Ht; [exact Ht|].
  cbn [term_hilbert fold_left].
  apply (IH _ (2 * s)).
  - now rewrite kron_nrows, QUANTUM_GATES_nrows, Hr.
  - rewrite kron_ncols by (rewrite QUANTUM_GATES_nrows; lia).
    now rewrite QUANTUM_GATES_ncols, Hc.
  - lia.
  - rewrite trace_kron, Ht.
    + ring.
    + now rewrite QUANTUM_GATES_nrows, QUANTUM_GATES_ncols.
    + lia.
    + lia.
Qed.

Lemma term_hilbert_traceless (term : PauliTerm) (qubits : list nat) :
  (exists q, In q qubits /\ term_getitem term q <> op_I) ->
  forall (acc : matrix) (s : nat),
    nrows acc = s -> ncols acc = s -> 0 < s ->
    trace (term_hilbert term qubits acc) = C0.
Proof.
  induction qubits as [|q qs IH]; intros (q' & Hin & Hq') acc s Hr Hc Hs.
  - destruct Hin.
  - cbn [term_hilbert fold_left].
    assert (Hr' : nrows (kron (QUANTUM_GATES (term_getitem term q)) acc) = 2 * s)
      by (now rewrite kron_nrows, QUANTUM_GATES_nrows, Hr).
    assert (Hc' : ncols (kron (QUANTUM_GATES (term_getitem term q)) acc) = 2 * s).
    { rewrite kron_ncols by (rewrite QUANTUM_GATES_nrows; lia).
      now rewrite QUANTUM_GATES_ncols, Hc. }
    destruct (pauli_op_eqb (term_getitem term q) op_I) eqn:Eq.
    + destruct Hin as [->|Hin].
      * destruct (term_getitem term q'); try discriminate. contradiction.
      * apply (IH (ex_intro _ q' (Logic.conj Hin Hq')) _ (2 * s)); [assumption..|lia].
    + apply (term_hilbert_trace_zero term qs _ (2 * s)); [assumption..|lia|].
      rewrite trace_kron.
      * rewrite QUANTUM_GATES_trace; [ring|].
        intros E. rewrite E in Eq. discriminate.
      * now rewrite QUANTUM_GATES_nrows, QUANTUM_GATES_ncols.
      * lia.
      * lia.
Qed.

Lemma pow2_pos (n : nat) : 0 < 2 ^ n.
Proof. induction n; cbn; lia. Qed.

Lemma pow4_pow2 (n : nat) : 4 ^ n = 2 ^ n * 2 ^ n.
Proof. change 4 with (2 * 2). apply Nat.pow_mul_l. Qed.

Lemma lifted_pauli_nrows (term : PauliTerm) (qubits : list nat) :
  nrows (lifted_pauli term qubits) = 2 ^ length qubits.
Proof.
  unfold lifted_pauli, madd, zeros. now rewrite !mk_matrix_nrows.
Qed.

Lemma lifted_pauli_ncols (term : PauliTerm) (qubits : list nat) :
  ncols (lifted_pauli term qubits) = 2 ^ length qubits.
Proof.
  pose proof (pow2_pos (length qubits)).
  unfold lifted_pauli, madd, zeros.
  rewrite mk_matrix_ncols; rewrite ?mk_matrix_nrows; try assumption.
  now rewrite mk_matrix_ncols.
Qed.

Lemma lifted_pauli_well_formed (term : PauliTerm) (qubits : list nat) :
  well_formed (2 ^ length qubits) (2 ^ length qubits)
              (lifted_pauli term qubits).
Proof.
  pose proof (pow2_pos (length qubits)).
  unfold lifted_pauli, madd, zeros.
  rewrite mk_matrix_nrows, mk_matrix_ncols by assumption.
  apply mk_matrix_well_formed.
Qed.

Lemma lifted_pauli_ent (term : PauliTerm) (qubits : list nat) (i j : nat) :
  i < 2 ^ length qubits -> j < 2 ^ length qubits ->
  ent (lifted_pauli term qubits) i j
  = Cmul (ent (term_hilbert term qubits [[C1]]) i j) (coefficient term).
Proof.
  intros Hi Hj. unfold lifted_pauli, madd, zeros.
  rewrite mk_matrix_nrows, mk_matrix_ncols by lia.
  rewrite ent_mk_matrix by assumption.
  rewrite ent_mk_matrix by assumption.
  unfold mscale.
  destruct (term_hilbert_shape term qubits [[C1]] 1 eq_refl eq_refl Nat.lt_0_1)
    as [Hr Hc].
  fold (term_hilbert term qubits [[C1]]).
  rewrite Hr, Hc, ent_mk_matrix by lia. ring.
Qed.

(** The matrix of a term that has an operator other than the identity on
    one of the qubits is traceless. *)
Lemma lifted_pauli_traceless (term : PauliTerm) (qubits : list nat) :
  (exists q, In q qubits /\ term_getitem term q <> op_I) ->
  trace (lifted_pauli term qubits) = C0.
Proof.
  intros Hq. unfold trace. rewrite lifted_pauli_nrows.
  rewrite (Csum_ext _ _
             (fun i => Cmul (ent (term_hilbert term qubits [[C1]]) i i)
                            (coefficient term)))
    by (intros; now apply lifted_pauli_ent).
  rewrite Csum_mul_r.
  destruct (term_hilbert_shape term qubits [[C1]] 1 eq_refl eq_refl Nat.lt_0_1)
    as [Hr _].
  pose proof (term_hilbert_traceless term qubits Hq [[C1]] 1
                eq_refl eq_refl Nat.lt_0_1) as Ht.
  unfold trace in Ht. rewrite Hr, Nat.mul_1_r in Ht. rewrite Ht. ring.
Qed.

End Kron.

(** ** Vectorization *)

Section Vectorization.

Lemma vec_nrows (A : matrix) : nrows (vec A) = nrows A * ncols A.
Proof. apply mk_matrix_nrows. Qed.

Lemma vec_ncols (A : matrix) : 0 < nrows A * ncols A -> ncols (vec A) = 1.
Proof. intros. now apply mk_matrix_ncols. Qed.

Lemma vec_ent (A : matrix) (k : nat) :
  k < nrows A * ncols A ->
  ent (vec A) k 0 = ent A (k mod nrows A) (k / nrows A).
Proof. intros. unfold vec. rewrite ent_mk_matrix; [reflexivity | assumption | lia]. Qed.

Lemma unvec_square (d : nat) (v : vector) :
  length v = d * d ->
  unvec v = mk_matrix d d (fun i j => nth (j * d + i) v C0).
Proof. intros Hv. unfold unvec. now rewrite Hv, Nat.sqrt_square. Qed.

(** [unvec] undoes [vec] on square matrices: the two follow one
    convention. *)
Lemma unvec_vec (d : nat) (A : matrix) :
  well_formed d d A -> unvec (ravel (vec A)) = A.
Proof.
  intros HA. destruct (Nat.eq_dec d 0) as [->|Hd].
  { destruct HA as [HA _]. destruct A; [reflexivity | discriminate]. }
  pose proof (well_formed_nrows d d A HA) as Hr.
  pose proof (well_formed_ncols d d A HA ltac:(lia)) as Hc.
  rewrite (unvec_square d).
  - apply matrix_ext with (m := d) (n := d);
      [apply mk_matrix_well_formed | exact HA |].
    intros i j Hi Hj. rewrite ent_mk_matrix by assumption.
    assert (Hk : j * d + i < d * d) by nia.
    unfold ravel. rewrite vec_nrows, Hr, Hc.
    rewrite mk_vector_nth by exact Hk.
    rewrite vec_ent by (now rewrite Hr, Hc). rewrite Hr.
    replace (j * d + i) with (i + j * d) by lia.
    rewrite Nat.Div0.mod_add, Nat.div_add by lia.
    now rewrite Nat.mod_small, Nat.div_small by lia.
  - unfold ravel. now rewrite mk_vector_length, vec_nrows, Hr, Hc.
Qed.

End Vectorization.

(** ** The measurement matrix *)

Section MeasurementMatrix.

Variable qubits : list nat.

Let d := 2 ^ length qubits.
Let N := 4 ^ length qubits.

Lemma dim_pos : 0 < d.
Proof. apply pow2_pos. Qed.

Lemma dim_square : N = d * d.
Proof. apply pow4_pow2. Qed.

Lemma measurement_row_eq (result : ExperimentResult) :
  measurement_row qubits result
  = [mk_vector N
       (fun k => Cconj (ent (vec (lifted_pauli
                                    (out_operator (setting result)) qubits))
                            k 0))].
Proof.
  pose proof dim_pos as Hd. pose proof dim_square as HN.
  unfold measurement_row.
  set (L := lifted_pauli (out_operator (setting result)) qubits).
  assert (Hr : nrows (vec L) = N).
  { rewrite vec_nrows. unfold L.
    rewrite lifted_pauli_nrows, lifted_pauli_ncols. now rewrite HN. }
  assert (Hc : ncols (vec L) = 1).
  { apply vec_ncols. unfold L.
    rewrite lifted_pauli_nrows, lifted_pauli_ncols. fold d. nia. }
  assert (HNpos : 0 < N) by (rewrite HN; nia).
  apply matrix_ext with (m := 1) (n := N).
  - pose proof (conj_transpose_well_formed (vec L)) as Hwf.
    rewrite Hr, Hc in Hwf. apply Hwf. lia.
  - split; [reflexivity|]. constructor; [|constructor].
    apply mk_vector_length.
  - intros i j Hi Hj. assert (i = 0) by lia. subst i.
    rewrite conj_transpose_ent by lia.
    unfold ent at 2. cbn [nth]. now rewrite mk_vector_nth.
Qed.

Lemma concat_singletons {A B} (f : A -> B) (l : list A) :
  concat (map (fun x => [f x]) l) = map f l.
Proof. induction l as [|x l IH]; cbn; [reflexivity | now rewrite IH]. Qed.

(** The array stacked by the source is the measurement matrix of the
    specification; the stacking fails on the empty list only. *)
Lemma vstack_measurement_rows (results : list ExperimentResult) :
  results <> [] ->
  vstack (map (measurement_row qubits) results)
  = inr (spec_measurement_matrix results qubits).
Proof.
  intros Hne.
  assert (Hmap : map (measurement_row qubits) results
                 = map (fun result =>
                          [mk_vector N (fun k =>
                             Cconj (ent (vec (lifted_pauli
                                        (out_operator (setting result)) qubits))
                                        k 0))]) results)
    by (apply map_ext; exact measurement_row_eq).
  rewrite Hmap. destruct results as [|r rs]; [contradiction|].
  unfold vstack. cbn [map].
  rewrite (proj2 (forallb_forall _ _)).
  - f_equal. fold N.
    exact (concat_singletons
             (fun result => mk_vector N (fun k =>
                Cconj (ent (vec (lifted_pauli
                                   (out_operator (setting result)) qubits))
                           k 0))) (r :: rs)).
  - intros b [<-|Hb].
    + apply Nat.eqb_refl.
    + apply in_map_iff in Hb. destruct Hb as (x & <- & _).
      cbn [ncols]. rewrite !mk_vector_length. apply Nat.eqb_refl.
Qed.

Lemma vstack_no_rows : vstack (map (measurement_row qubits) []) = inl ValueError.
Proof. reflexivity. Qed.

Lemma spec_measurement_matrix_nrows (results : list ExperimentResult) :
  nrows (spec_measurement_matrix results qubits) = length results.
Proof. unfold spec_measurement_matrix, nrows. apply length_map. Qed.

Lemma spec_measurement_matrix_ncols (results : list ExperimentResult) :
  results <> [] ->
  ncols (spec_measurement_matrix results qubits) = N.
Proof.
  intros Hne. destruct results as [|r rs]; [contradiction|].
  cbn. apply mk_vector_length.
Qed.

Lemma spec_measurement_matrix_ent
      (results : list ExperimentResult) (d0 : ExperimentResult) (l j : nat) :
  l < length results -> j < N ->
  ent (spec_measurement_matrix results qubits) l j
  = Cconj (ent (lifted_pauli (out_operator (setting (nth l results d0))) qubits)
               (j mod d) (j / d)).
Proof.
  intros Hl Hj. pose proof dim_square as HN.
  unfold ent at 1, spec_measurement_matrix.
  set (row := fun result : ExperimentResult => mk_vector _ _).
  rewrite (nth_indep _ [] (row d0)) by (now rewrite length_map).
  rewrite map_nth. unfold row. fold N.
  rewrite mk_vector_nth by exact Hj.
  rewrite vec_ent
    by (rewrite lifted_pauli_nrows, lifted_pauli_ncols; fold d; lia).
  now rewrite lifted_pauli_nrows.
Qed.

End MeasurementMatrix.

(** ** The linear-inversion estimator *)

Section Estimator.

(** [scipy.linalg.pinv] *)
Variable pinv : matrix -> result matrix.

Variable qubits : list nat.

Let d := 2 ^ length qubits.
Let N := 4 ^ length qubits.

(** The estimator on a non-empty list of results: the pseudo-inverse of the
    measurement matrix applied to the expectations, un-vectorized, plus
    [I / 2^n]; on the empty list [np.vstack] raises. *)
Lemma linear_inv_state_estimate_unfold (results : list ExperimentResult) :
  results <> [] ->
  linear_inv_state_estimate pinv results qubits
  = match pinv (spec_measurement_matrix results qubits) with
    | inl e => inl e
    | inr P =>
        inr (madd (unvec (matvec P (spec_expectations results)))
                  (mdiv (eye d) (INR d)))
    end.
Proof.
  intros Hne. unfold linear_inv_state_estimate.
  pose proof (vstack_measurement_rows qubits results Hne) as Hv.
  unfold measurement_row in Hv. rewrite Hv. reflexivity.
Qed.

(** An error of [pinv] (scipy's [LinAlgError]) goes through to the caller. *)
Lemma linear_inv_state_estimate_pinv_raises
      (results : list ExperimentResult) (e : exn) :
  results <> [] ->
  pinv (spec_measurement_matrix results qubits) = inl e ->
  linear_inv_state_estimate pinv results qubits = inl e.
Proof.
  intros Hne He. rewrite linear_inv_state_estimate_unfold by exact Hne.
  now rewrite He.
Qed.

Lemma linear_inv_state_estimate_no_results :
  linear_inv_state_estimate pinv [] qubits = inl ValueError.
Proof. reflexivity. Qed.

Lemma spec_measurement_matrix_well_formed (results : list ExperimentResult) :
  well_formed (length results) N (spec_measurement_matrix results qubits).
Proof.
  split; [apply length_map|]. apply Forall_forall. intros row Hrow.
  apply in_map_iff in Hrow. destruct Hrow as (r & <- & _).
  apply mk_vector_length.
Qed.

(** The result has the shape [2^n] x [2^n] when the pseudo-inverse has the
    shape of the transpose. *)
Lemma estimate_well_formed (P : matrix) (y : vector) :
  nrows P = N ->
  well_formed d d (madd (unvec (matvec P y)) (mdiv (eye d) (INR d))).
Proof.
  intros HP. pose proof (dim_pos qubits) as Hd. fold d in Hd.
  rewrite (unvec_square d)
    by (rewrite matvec_length, HP; apply dim_square).
  unfold madd. rewrite mk_matrix_nrows, mk_matrix_ncols by exact Hd.
  apply mk_matrix_well_formed.
Qed.

End Estimator.

(** ** Matrices with orthogonal rows *)

Section OrthogonalRows.

Lemma mdiv_nrows (A : matrix) (c : R) : nrows (mdiv A c) = nrows A.
Proof. apply mk_matrix_nrows. Qed.

Lemma mdiv_ncols (A : matrix) (c : R) :
  0 < nrows A -> ncols (mdiv A c) = ncols A.
Proof. intros. now apply mk_matrix_ncols. Qed.

Lemma mdiv_ent (A : matrix) (c : R) (i j : nat) :
  i < nrows A -> j < ncols A -> ent (mdiv A c) i j = Cdivr (ent A i j) c.
Proof. intros. unfold mdiv. now rewrite ent_mk_matrix. Qed.

Lemma Csum_divr (n : nat) (c : R) (f : nat -> C) :
  Csum n (fun l => Cdivr (f l) c) = Cdivr (Csum n f) c.
Proof.
  induction n as [|n IH]; cbn [Csum].
  - c_arith; unfold Rdiv; ring.
  - rewrite IH. c_arith; unfold Rdiv; ring.
Qed.

Variables (M : matrix) (k N : nat) (c : R).
Hypothesis M_shape : well_formed k N M.
Hypothesis k_pos : 0 < k.
Hypothesis N_pos : 0 < N.
Hypothesis c_nonzero : c <> 0%R.
Hypothesis M_orthogonal : matmul M (conj (transpose M)) = scaled_eye k c.

Let MH := conj (transpose M).
Let P := mdiv MH c.

Lemma orth_nrows : nrows M = k.
Proof. exact (well_formed_nrows k N M M_shape). Qed.

Lemma orth_ncols : ncols M = N.
Proof. exact (well_formed_ncols k N M M_shape k_pos). Qed.

Lemma orth_MH_nrows : nrows MH = N.
Proof. unfold MH. rewrite conj_transpose_nrows. exact orth_ncols. Qed.

Lemma orth_MH_ncols : ncols MH = k.
Proof.
  unfold MH. rewrite conj_transpose_ncols by (rewrite orth_ncols; exact N_pos).
  exact orth_nrows.
Qed.

Lemma orth_P_ent (i j : nat) :
  i < N -> j < k -> ent P i j = Cdivr (Cconj (ent M j i)) c.
Proof.
  intros Hi Hj. unfold P.
  rewrite mdiv_ent by (rewrite ?orth_MH_nrows, ?orth_MH_ncols; assumption).
  unfold MH. rewrite conj_transpose_ent
    by (rewrite ?orth_nrows, ?orth_ncols; assumption).
  reflexivity.
Qed.

Lemma orth_gram_ent (i j : nat) :
  i < k -> j < k ->
  Csum N (fun l => Cmul (ent M i l) (Cconj (ent M j l)))
  = if Nat.eqb i j then RtoC c else C0.
Proof.
  intros Hi Hj.
  pose proof (f_equal (fun A => ent A i j) M_orthogonal) as E. cbn beta in E.
  unfold scaled_eye in E. rewrite ent_mk_matrix in E by assumption.
  rewrite <- E. fold MH.
  rewrite matmul_ent by (rewrite ?orth_nrows, ?orth_MH_ncols; assumption).
  rewrite orth_ncols. apply Csum_ext. intros l Hl. unfold MH.
  now rewrite conj_transpose_ent by (rewrite ?orth_nrows, ?orth_ncols; assumption).
Qed.

(** [M @ (M^H / c) = I] *)
Lemma orth_right_inverse (i j : nat) :
  i < k -> j < k ->
  Csum N (fun l => Cmul (ent M i l) (ent P l j))
  = if Nat.eqb i j then C1 else C0.
Proof.
  intros Hi Hj.
  rewrite (Csum_ext N _
             (fun l => Cdivr (Cmul (ent M i l) (Cconj (ent M j l))) c)).
  - rewrite Csum_divr, orth_gram_ent by assumption.
    destruct (Nat.eqb i j); c_arith; field; exact c_nonzero.
  - intros l Hl. rewrite orth_P_ent by assumption.
    c_arith; unfold Rdiv; ring.
Qed.

(** With rows that are orthogonal and of squared norm [c], the
    pseudo-inverse is [M^H / c]. *)
Lemma orthogonal_rows_moore_penrose : moore_penrose M P.
Proof.
  pose proof orth_nrows as Hr. pose proof orth_ncols as Hc.
  pose proof orth_MH_nrows as HrH. pose proof orth_MH_ncols as HcH.
  assert (HrP : nrows P = N) by (unfold P; now rewrite mdiv_nrows).
  assert (HcP : ncols P = k) by (unfold P; rewrite mdiv_ncols; lia).
  assert (HwfP : well_formed N k P).
  { unfold P, mdiv. rewrite HrH, HcH. apply mk_matrix_well_formed. }
  assert (HMP : forall i j, i < k -> j < k ->
              ent (matmul M P) i j = if Nat.eqb i j then C1 else C0).
  { intros i j Hi Hj. rewrite matmul_ent by lia. rewrite Hc.
    now apply orth_right_inverse. }
  assert (HPM : forall i j, i < N -> j < N ->
              ent (matmul P M) i j
              = Csum k (fun t => Cmul (ent P i t) (ent M t j))).
  { intros i j Hi Hj. rewrite matmul_ent by lia. now rewrite HcP. }
  unfold moore_penrose. rewrite Hr, Hc. split; [exact HwfP|].
  split; [|split; [|split]].
  - (* M P M = M *)
    apply matrix_ext with (m := k) (n := N); [|exact M_shape|].
    { pose proof (matmul_well_formed (matmul M P) M) as Hwf.
      now rewrite matmul_nrows, Hr, Hc in Hwf. }
    intros i j Hi Hj.
    rewrite matmul_ent by (rewrite ?matmul_nrows; lia).
    rewrite matmul_ncols, HcP by lia.
    rewrite (Csum_ext k _
               (fun t => if Nat.eqb i t then ent M t j else C0)).
    + now apply (Csum_delta k i (fun t => ent M t j)).
    + intros t Ht. rewrite HMP by assumption.
      destruct (Nat.eqb i t); ring.
  - (* P M P = P *)
    apply matrix_ext with (m := N) (n := k); [|exact HwfP|].
    { pose proof (matmul_well_formed (matmul P M) P) as Hwf.
      now rewrite matmul_nrows, HrP, HcP in Hwf. }
    intros i j Hi Hj.
    rewrite matmul_ent by (rewrite ?matmul_nrows; lia).
    rewrite matmul_ncols, Hc by lia.
    transitivity
      (Csum N (fun l => Csum k (fun t =>
         Cmul (ent P i t) (Cmul (ent M t l) (ent P l j))))).
    + apply Csum_ext. intros l Hl. rewrite HPM by assumption.
      rewrite <- Csum_mul_r. apply Csum_ext. intros t _. ring.
    + rewrite Csum_swap.
      rewrite (Csum_ext k _
                 (fun t => if Nat.eqb j t then ent P i t else C0)).
      * now apply (Csum_delta k j (fun t => ent P i t)).
      * intros t Ht. rewrite Csum_mul_l, orth_right_inverse by assumption.
        rewrite Nat.eqb_sym. destruct (Nat.eqb j t); ring.
  - (* (M P)^H = M P *)
    apply matrix_ext with (m := k) (n := k).
    + pose proof (conj_transpose_well_formed (matmul M P)) as Hwf.
      rewrite matmul_nrows, matmul_ncols, Hr, HcP in Hwf by lia.
      apply Hwf. exact k_pos.
    + pose proof (matmul_well_formed M P) as Hwf.
      now rewrite Hr, HcP in Hwf.
    + intros i j Hi Hj.
      rewrite conj_transpose_ent
        by (rewrite ?matmul_nrows, ?matmul_ncols; lia).
      rewrite !HMP by assumption. rewrite Nat.eqb_sym.
      destruct (Nat.eqb i j); c_arith.
  - (* (P M)^H = P M *)
    apply matrix_ext with (m := N) (n := N).
    + pose proof (conj_transpose_well_formed (matmul P M)) as Hwf.
      rewrite matmul_nrows, matmul_ncols, HrP, Hc in Hwf by lia.
      apply Hwf. exact N_pos.
    + pose proof (matmul_well_formed P M) as Hwf.
      now rewrite HrP, Hc in Hwf.
    + intros i j Hi Hj.
      rewrite conj_transpose_ent
        by (rewrite ?matmul_nrows, ?matmul_ncols; lia).
      rewrite !HPM by assumption. rewrite Csum_conj.
      apply Csum_ext. intros t Ht.
      rewrite !orth_P_ent by assumption.
      c_arith; unfold Rdiv; ring.
Qed.

End OrthogonalRows.

(** ** Orthogonality of the Pauli tensor products *)

Section PauliGram.

Lemma Csum_mul_sum (m n : nat) (f g : nat -> C) :
  Csum m (fun i => Csum n (fun j => Cmul (f i) (g j)))
  = Cmul (Csum m f) (Csum n g).
Proof.
  rewrite <- Csum_mul_r. apply Csum_ext. intros i _. apply Csum_mul_l.
Qed.

Lemma hs_kron (a b : nat) (A A' B B' : matrix) :
  nrows A = a -> ncols A = a -> nrows A' = a -> ncols A' = a ->
  nrows B = b -> ncols B = b -> nrows B' = b -> ncols B' = b ->
  0 < b ->
  hs (a * b) (kron A B) (kron A' B') = Cmul (hs a A A') (hs b B B').
Proof.
  intros HA1 HA2 HA'1 HA'2 HB1 HB2 HB'1 HB'2 Hb. unfold hs.
  set (f := fun r1 c1 => Cmul (Cconj (ent A r1 c1)) (ent A' r1 c1)).
  set (g := fun r2 c2 => Cmul (Cconj (ent B r2 c2)) (ent B' r2 c2)).
  transitivity
    (Csum (a * b) (fun c =>
       (fun c1 c2 => Csum a (fun r1 => Csum b (fun r2 =>
          Cmul (f r1 c1) (g r2 c2)))) (c / b) (c mod b))).
  { apply Csum_ext. intros c Hc. cbn beta.
    rewrite <- (Csum_product a b
                  (fun r1 r2 => Cmul (f r1 (c / b)) (g r2 (c mod b))) Hb).
    apply Csum_ext. intros r Hr.
    rewrite !kron_ent
      by (rewrite ?HA1, ?HA2, ?HA'1, ?HA'2, ?HB1, ?HB2, ?HB'1, ?HB'2;
          assumption).
    rewrite HB1, HB2, HB'1, HB'2. unfold f, g.
    rewrite Cconj_mul. ring. }
  rewrite (Csum_product a b
             (fun c1 c2 => Csum a (fun r1 => Csum b (fun r2 =>
                Cmul (f r1 c1) (g r2 c2)))) Hb).
  transitivity
    (Csum a (fun c1 => Csum b (fun c2 =>
       Cmul (Csum a (fun r1 => f r1 c1)) (Csum b (fun r2 => g r2 c2))))).
  { apply Csum_ext. intros c1 _. apply Csum_ext. intros c2 _.
    apply (Csum_mul_sum a b (fun r1 => f r1 c1) (fun r2 => g r2 c2)). }
  apply (Csum_mul_sum a b (fun c1 => Csum a (fun r1 => f r1 c1))
                          (fun c2 => Csum b (fun r2 => g r2 c2))).
Qed.

(** Two Pauli matrices are orthogonal unless they are the same one. *)
Lemma hs_QUANTUM_GATES (o o' : pauli_op) :
  hs 2 (QUANTUM_GATES o) (QUANTUM_GATES o')
  = if pauli_op_eqb o o' then RtoC 2 else C0.
Proof.
  destruct o, o';
    unfold hs; cbn [pauli_op_eqb QUANTUM_GATES Csum ent nth]; c_arith.
Qed.

Lemma hs_term_hilbert (t t' : PauliTerm) (qubits : list nat) :
  forall (acc acc' : matrix) (s : nat),
    nrows acc = s -> ncols acc = s -> nrows acc' = s -> ncols acc' = s ->
    0 < s ->
    hs (2 ^ length qubits * s)
       (term_hilbert t qubits acc) (term_hilbert t' qubits acc')
    = Cmul (overlap t t' qubits) (hs s acc acc').
Proof.
  induction qubits as [|q qs IH]; intros acc acc' s H1 H2 H3 H4 Hs.
  - cbn [term_hilbert fold_left length overlap Nat.pow].
    rewrite Nat.mul_1_l. ring.
  - cbn [term_hilbert fold_left length overlap].
    replace (2 ^ S (length qs) * s) with (2 ^ length qs * (2 * s))
      by (rewrite Nat.pow_succ_r'; lia).
    pose proof (IH (kron (QUANTUM_GATES (term_getitem t q)) acc)
                   (kron (QUANTUM_GATES (term_getitem t' q)) acc')
                   (2 * s)) as IH'.
    unfold term_hilbert in IH'. rewrite IH'.
    + rewrite (hs_kron 2 s); try assumption;
        try apply QUANTUM_GATES_nrows; try apply QUANTUM_GATES_ncols.
      rewrite hs_QUANTUM_GATES. ring.
    + now rewrite kron_nrows, QUANTUM_GATES_nrows, H1.
    + rewrite kron_ncols by (rewrite QUANTUM_GATES_nrows; lia).
      now rewrite QUANTUM_GATES_ncols, H2.
    + now rewrite kron_nrows, QUANTUM_GATES_nrows, H3.
    + rewrite kron_ncols by (rewrite QUANTUM_GATES_nrows; lia).
      now rewrite QUANTUM_GATES_ncols, H4.
    + lia.
Qed.

Lemma pauli_op_eqb_refl (o : pauli_op) : pauli_op_eqb o o = true.
Proof. now destruct o. Qed.

Lemma pauli_op_eqb_eq (o o' : pauli_op) : pauli_op_eqb o o' = true <-> o = o'.
Proof. destruct o, o'; cbn; split; congruence. Qed.

Lemma overlap_same (t : PauliTerm) (qubits : list nat) :
  overlap t t qubits = RtoC (INR (2 ^ length qubits)).
Proof.
  induction qubits as [|q qs IH]; cbn [overlap length].
  - cbn. reflexivity.
  - rewrite pauli_op_eqb_refl, IH, Nat.pow_succ_r', mult_INR.
    c_arith. cbn [INR]. ring.
Qed.

Lemma overlap_different (t t' : PauliTerm) (qubits : list nat) :
  (exists q, In q qubits /\ term_getitem t q <> term_getitem t' q) ->
  overlap t t' qubits = C0.
Proof.
  induction qubits as [|q qs IH]; intros (q' & Hin & Hq'); [destruct Hin|].
  cbn [overlap].
  destruct (pauli_op_eqb (term_getitem t q) (term_getitem t' q)) eqn:E.
  - rewrite IH; [ring|]. exists q'. split; [|exact Hq'].
    destruct Hin as [->|Hin]; [|exact Hin].
    apply pauli_op_eqb_eq in E. contradiction.
  - ring.
Qed.

Lemma hs_lifted_pauli (t t' : PauliTerm) (qubits : list nat) :
  hs (2 ^ length qubits) (lifted_pauli t qubits) (lifted_pauli t' qubits)
  = Cmul (Cmul (Cconj (coefficient t)) (coefficient t'))
         (overlap t t' qubits).
Proof.
  pose proof (hs_term_hilbert t t' qubits [[C1]] [[C1]] 1
                eq_refl eq_refl eq_refl eq_refl Nat.lt_0_1) as E.
  rewrite Nat.mul_1_r in E.
  assert (H1 : hs 1 [[C1]] [[C1]] = C1)
    by (unfold hs; cbn [Csum ent nth]; c_arith).
  rewrite H1 in E. unfold hs in *.
  transitivity
    (Csum (2 ^ length qubits) (fun c =>
       Cmul (Cmul (Cconj (coefficient t)) (coefficient t'))
            (Csum (2 ^ length qubits) (fun r =>
               Cmul (Cconj (ent (term_hilbert t qubits [[C1]]) r c))
                    (ent (term_hilbert t' qubits [[C1]]) r c))))).
  { apply Csum_ext. intros c Hc.
    rewrite <- Csum_mul_l. apply Csum_ext. intros r Hr.
    rewrite !lifted_pauli_ent by assumption.
    rewrite Cconj_mul. ring. }
  rewrite Csum_mul_l, E. ring.
Qed.

End PauliGram.

(** ** The measurement matrix of the Pauli tensor products *)

Section PauliMeasurement.

Lemma lookup_op_absent (l : list (nat * pauli_op)) (q : nat) :
  (forall o, ~ In (q, o) l) -> lookup_op l q = op_I.
Proof.
  induction l as [|[q' o'] l IH]; intros Hq; [reflexivity|].
  cbn [lookup_op]. destruct (Nat.eqb_spec q' q) as [->|Hne].
  - exfalso. apply (Hq o'). now left.
  - apply IH. intros o Ho. apply (Hq o). now right.
Qed.

(** On qubits without repetition, the term of a label vector has on each
    qubit the label given to it. *)
Lemma term_getitem_pauli_term_of (qubits : list nat) :
  NoDup qubits ->
  forall (labels : list pauli_op) (q : nat) (o : pauli_op),
    In (q, o) (combine qubits labels) ->
    term_getitem (pauli_term_of qubits labels) q = o.
Proof.
  unfold term_getitem, pauli_term_of. cbn [ops].
  induction 1 as [|q0 qs Hq0 Hqs IH]; intros labels q o Hin; [destruct Hin|].
  destruct labels as [|a ls]; [destruct Hin|].
  cbn [combine] in Hin. cbn [combine filter snd].
  assert (Habsent : forall l o',
             ~ In (q0, o')
                  (filter (fun qo => negb (pauli_op_eqb (snd qo) op_I))
                          (combine qs l))).
  { intros l o' Hin'. apply filter_In in Hin'. destruct Hin' as [Hin' _].
    apply in_combine_l in Hin'. contradiction. }
  destruct Hin as [E|Hin].
  - injection E as -> ->.
    destruct (pauli_op_eqb o op_I) eqn:Eo; cbn [negb].
    + apply pauli_op_eqb_eq in Eo. subst o.
      apply lookup_op_absent. intros o'. apply Habsent.
    + cbn [lookup_op]. now rewrite Nat.eqb_refl.
  - assert (Hne : q0 <> q).
    { intros ->. apply in_combine_l in Hin. contradiction. }
    destruct (pauli_op_eqb a op_I) eqn:Ea; cbn [negb].
    + now apply IH.
    + cbn [lookup_op]. destruct (Nat.eqb_spec q0 q); [contradiction|].
      now apply IH.
Qed.

Lemma labels_differ (qubits : list nat) :
  forall l1 l2 : list pauli_op,
    length l1 = length qubits -> length l2 = length qubits -> l1 <> l2 ->
    exists q o1 o2,
      In (q, o1) (combine qubits l1) /\ In (q, o2) (combine qubits l2) /\
      o1 <> o2.
Proof.
  induction qubits as [|q0 qs IH]; intros l1 l2 H1 H2 Hne.
  - destruct l1, l2; try discriminate. now contradiction Hne.
  - destruct l1 as [|a l1], l2 as [|b l2]; try discriminate.
    injection H1 as H1. injection H2 as H2.
    destruct (pauli_op_eqb a b) eqn:Eab.
    + apply pauli_op_eqb_eq in Eab. subst b.
      destruct (IH l1 l2 H1 H2) as (q & o1 & o2 & I1 & I2 & Ho).
      * intros ->. now apply Hne.
      * exists q, o1, o2. cbn [combine]. repeat split; [now right..|exact Ho].
    + exists q0, a, b. cbn [combine]. repeat split; [now left..|].
      intros ->. now rewrite pauli_op_eqb_refl in Eab.
Qed.

Variable qubits : list nat.
Hypothesis qubits_NoDup : NoDup qubits.

Let d := 2 ^ length qubits.
Let N := 4 ^ length qubits.

Lemma overlap_pauli_terms (l1 l2 : list pauli_op) :
  length l1 = length qubits -> length l2 = length qubits -> l1 <> l2 ->
  overlap (pauli_term_of qubits l1) (pauli_term_of qubits l2) qubits = C0.
Proof.
  intros H1 H2 Hne. apply overlap_different.
  destruct (labels_differ qubits l1 l2 H1 H2 Hne)
    as (q & o1 & o2 & I1 & I2 & Ho).
  exists q. split; [now apply in_combine_l in I1|].
  rewrite (term_getitem_pauli_term_of qubits qubits_NoDup l1 q o1 I1).
  rewrite (term_getitem_pauli_term_of qubits qubits_NoDup l2 q o2 I2).
  exact Ho.
Qed.

Variable results : list ExperimentResult.
Hypothesis results_pauli :
  Forall (fun r => exists labels,
              length labels = length qubits /\
              out_operator (setting r) = pauli_term_of qubits labels)
         results.
Hypothesis results_distinct :
  NoDup (map (fun r => out_operator (setting r)) results).

Lemma observable_labels (r0 : ExperimentResult) (i : nat) :
  i < length results ->
  exists labels,
    length labels = length qubits /\
    out_operator (setting (nth i results r0)) = pauli_term_of qubits labels.
Proof.
  intros Hi. rewrite Forall_forall in results_pauli.
  apply results_pauli. now apply nth_In.
Qed.

(** The rows of the measurement matrix are orthogonal, each of squared
    norm [2^n]. *)
Lemma pauli_gram :
  matmul (spec_measurement_matrix results qubits)
         (conj (transpose (spec_measurement_matrix results qubits)))
  = scaled_eye (length results) (INR d).
Proof.
  assert (Hcase : results = [] \/
                  exists r0 : ExperimentResult, results <> []).
  { clear. destruct results as [|r0 rs]; [now left | right].
    exists r0. discriminate. }
  destruct Hcase as [->|(r0 & Hne)]; [reflexivity|].
  assert (Hk : 0 < length results).
  { clear - Hne. destruct results; [contradiction | cbn; lia]. }
  set (M := spec_measurement_matrix results qubits).
  pose proof (dim_pos qubits) as Hd. fold d in Hd.
  pose proof (dim_square qubits) as HN. fold d N in HN.
  assert (Hr : nrows M = length results)
    by apply spec_measurement_matrix_nrows.
  assert (Hc : ncols M = N) by (now apply spec_measurement_matrix_ncols).
  apply matrix_ext with (m := length results) (n := length results).
  - pose proof (matmul_well_formed M (conj (transpose M))) as Hwf.
    rewrite conj_transpose_ncols, Hr in Hwf by (rewrite Hc, HN; nia).
    exact Hwf.
  - apply mk_matrix_well_formed.
  - intros i j Hi Hj. unfold scaled_eye.
    rewrite ent_mk_matrix by assumption.
    rewrite matmul_ent
      by (rewrite ?Hr, ?conj_transpose_ncols, ?Hc, ?HN; try nia; lia).
    rewrite Hc.
    destruct (observable_labels r0 i Hi) as (li & Hli & Ei).
    destruct (observable_labels r0 j Hj) as (lj & Hlj & Ej).
    transitivity
      (hs d (lifted_pauli (pauli_term_of qubits li) qubits)
            (lifted_pauli (pauli_term_of qubits lj) qubits)).
    + unfold hs. rewrite HN.
      rewrite <- (Csum_product d d
                    (fun c r =>
                       Cmul (Cconj (ent (lifted_pauli (pauli_term_of qubits li)
                                                      qubits) r c))
                            (ent (lifted_pauli (pauli_term_of qubits lj)
                                               qubits) r c)) Hd).
      apply Csum_ext. intros l Hl.
      rewrite conj_transpose_ent by (rewrite ?Hr, ?Hc, ?HN; assumption).
      unfold M.
      rewrite !(spec_measurement_matrix_ent qubits results r0)
        by (try assumption; change (l < N); rewrite HN; exact Hl).
      fold d. rewrite Ei, Ej, Cconj_involutive. reflexivity.
    + unfold d. rewrite hs_lifted_pauli. cbn [pauli_term_of coefficient].
      destruct (Nat.eqb_spec i j) as [->|Hij].
      * assert (li = lj).
        { apply (pauli_term_of_inj qubits qubits_NoDup li lj Hli Hlj).
          now rewrite <- Ei, <- Ej. }
        subst lj. rewrite overlap_same. c_arith.
      * rewrite overlap_pauli_terms; [ring|exact Hli|exact Hlj|].
        intros ->. apply Hij.
        apply (proj1 (NoDup_nth _ (out_operator (setting r0)))
                     results_distinct);
          rewrite ?length_map; try assumption.
        rewrite (map_nth (fun r => out_operator (setting r)) results r0 i).
        rewrite (map_nth (fun r => out_operator (setting r)) results r0 j).
        now rewrite Ei, Ej.
Qed.

End PauliMeasurement.

(** The observables of the tomography experiment are terms of label
    vectors, all different. *)
Lemma all_traceless_results_pauli (qubits : list nat)
      (results : list ExperimentResult) :
  map (fun r => out_operator (setting r)) results
  = all_traceless_pauli_terms qubits ->
  Forall (fun r => exists labels,
              length labels = length qubits /\
              out_operator (setting r) = pauli_term_of qubits labels)
         results.
Proof.
  intros E. apply Forall_forall. intros r Hr.
  assert (Hin : In (out_operator (setting r))
                   (all_traceless_pauli_terms qubits)).
  { rewrite <- E. now apply (in_map (fun r => out_operator (setting r))). }
  apply all_traceless_pauli_terms_In in Hin.
  destruct Hin as (labels & Hl & _ & Et). now exists labels.
Qed.

(** ** Entries and trace of the estimate *)

Section EstimateEntries.

Variable qubits : list nat.
Variable results : list ExperimentResult.
Hypothesis results_nonempty : results <> [].

Let d := 2 ^ length qubits.
Let N := 4 ^ length qubits.

Lemma results_length_pos : 0 < length results.
Proof.
  clear - results_nonempty.
  destruct results; [contradiction | cbn; lia].
Qed.

(** [unvec (M^H @ w)] is the combination [sum_l w_l L_l] of the matrices of
    the observables. *)
Lemma unvec_conj_transpose_ent (r0 : ExperimentResult) (w : vector)
      (r c : nat) :
  r < d -> c < d ->
  ent (unvec (matvec (conj (transpose (spec_measurement_matrix results qubits)))
                     w)) r c
  = Csum (length results)
      (fun l => Cmul (ent (lifted_pauli
                             (out_operator (setting (nth l results r0))) qubits)
                          r c)
                     (nth l w C0)).
Proof.
  intros Hr Hc.
  set (M := spec_measurement_matrix results qubits).
  pose proof results_length_pos as Hk.
  pose proof (dim_pos qubits) as Hd. fold d in Hd.
  pose proof (dim_square qubits) as HN. fold d N in HN.
  assert (HMr : nrows M = length results)
    by apply spec_measurement_matrix_nrows.
  assert (HMc : ncols M = N)
    by (now apply spec_measurement_matrix_ncols).
  assert (HNpos : 0 < N) by (rewrite HN; nia).
  rewrite (unvec_square d)
    by (now rewrite matvec_length, conj_transpose_nrows, HMc).
  rewrite ent_mk_matrix by assumption.
  assert (Hj : c * d + r < N) by (rewrite HN; nia).
  rewrite matvec_nth by (now rewrite conj_transpose_nrows, HMc).
  rewrite conj_transpose_ncols, HMr by (now rewrite HMc).
  apply Csum_ext. intros l Hl.
  rewrite conj_transpose_ent by (rewrite ?HMr, ?HMc; assumption).
  unfold M. rewrite (spec_measurement_matrix_ent qubits results r0)
    by assumption.
  rewrite Cconj_involutive. fold d.
  replace (c * d + r) with (r + c * d) by lia.
  rewrite Nat.Div0.mod_add, Nat.div_add by lia.
  now rewrite Nat.mod_small, Nat.div_small by lia.
Qed.

Lemma Csum_const (n : nat) (c : C) :
  Csum n (fun _ => c) = Cmul (RtoC (INR n)) c.
Proof.
  induction n as [|n IH].
  - cbn [Csum INR]. c_arith.
  - cbn [Csum]. rewrite IH, S_INR. c_arith.
Qed.

(** The trace of [I / d] is 1. *)
Lemma trace_eye_over_dim (n : nat) :
  0 < n -> Csum n (fun i => ent (mdiv (eye n) (INR n)) i i) = C1.
Proof.
  intros Hn.
  rewrite (Csum_ext n _ (fun _ => Cdivr C1 (INR n))).
  - rewrite Csum_const. c_arith; field; apply not_0_INR; lia.
  - intros i Hi. unfold mdiv, eye.
    rewrite mk_matrix_nrows, mk_matrix_ncols by exact Hn.
    rewrite !ent_mk_matrix by assumption. now rewrite Nat.eqb_refl.
Qed.

(** The estimate built on a vector in the range of [M^H] has trace 1 when
    all the observables are traceless. *)
Lemma trace_estimate (w : vector) :
  Forall (fun r => trace (lifted_pauli (out_operator (setting r)) qubits) = C0)
         results ->
  trace (madd (unvec (matvec (conj (transpose
                                      (spec_measurement_matrix results qubits)))
                             w))
              (mdiv (eye d) (INR d)))
  = C1.
Proof.
  intros Htraceless.
  set (M := spec_measurement_matrix results qubits).
  pose proof (dim_pos qubits) as Hd. fold d in Hd.
  pose proof (dim_square qubits) as HN. fold d N in HN.
  assert (HMc : ncols M = N)
    by (now apply spec_measurement_matrix_ncols).
  assert (r0 : ExperimentResult).
  { clear - results_nonempty. destruct results; [contradiction | assumption]. }
  assert (HU : unvec (matvec (conj (transpose M)) w)
               = mk_matrix d d (fun i j =>
                   nth (j * d + i) (matvec (conj (transpose M)) w) C0)).
  { apply unvec_square.
    now rewrite matvec_length, conj_transpose_nrows, HMc. }
  assert (HUr : nrows (unvec (matvec (conj (transpose M)) w)) = d)
    by (rewrite HU; apply mk_matrix_nrows).
  assert (HUc : ncols (unvec (matvec (conj (transpose M)) w)) = d)
    by (rewrite HU; now apply mk_matrix_ncols).
  unfold trace, madd. rewrite mk_matrix_nrows, HUr, HUc.
  rewrite (Csum_ext d _
             (fun i => Cadd
                (Csum (length results) (fun l =>
                   Cmul (ent (lifted_pauli
                                (out_operator (setting (nth l results r0)))
                                qubits) i i)
                        (nth l w C0)))
                (ent (mdiv (eye d) (INR d)) i i))).
  - rewrite Csum_add, Csum_swap, trace_eye_over_dim by exact Hd.
    rewrite Csum_zero; [ring|]. intros l Hl.
    rewrite Csum_mul_r.
    rewrite Forall_forall in Htraceless.
    pose proof (Htraceless (nth l results r0) (nth_In results r0 Hl)) as Ht.
    unfold trace in Ht. rewrite lifted_pauli_nrows in Ht. fold d in Ht.
    rewrite Ht. ring.
  - intros i Hi. rewrite ent_mk_matrix by assumption. f_equal.
    now apply unvec_conj_transpose_ent.
Qed.

End EstimateEntries.

(** ** Claims on the linear-inversion estimator *)

Section EstimatorClaims.

Lemma pow4_ge (n : nat) : 0 < n -> 4 <= 4 ^ n.
Proof.
  intros Hn. destruct n as [|n]; [lia|].
  rewrite Nat.pow_succ_r'. pose proof (pow2_pos n).
  assert (0 < 4 ^ n) by (rewrite pow4_pow2; nia). lia.
Qed.

Lemma tomography_results_nonempty (qubits : list nat)
      (results : list ExperimentResult) :
  qubits <> [] ->
  length results = 4 ^ length qubits - 1 ->
  results <> [].
Proof.
  intros Hq Hlen ->. cbn in Hlen.
  assert (0 < length qubits) by (destruct qubits; [contradiction | cbn; lia]).
  pose proof (pow4_ge (length qubits)). lia.
Qed.

(** With rows given by different Pauli tensor products, [M^H / 2^n] is the
    Moore-Penrose pseudo-inverse of the measurement matrix. *)
Lemma pauli_moore_penrose (qubits : list nat)
      (results : list ExperimentResult) :
  NoDup qubits -> results <> [] ->
  Forall (fun r => exists labels,
              length labels = length qubits /\
              out_operator (setting r) = pauli_term_of qubits labels)
         results ->
  NoDup (map (fun r => out_operator (setting r)) results) ->
  moore_penrose
    (spec_measurement_matrix results qubits)
    (mdiv (conj (transpose (spec_measurement_matrix results qubits)))
          (INR (2 ^ length qubits))).
Proof.
  intros Hq Hne Hpauli Hdistinct.
  pose proof (pow2_pos (length qubits)) as Hd.
  apply orthogonal_rows_moore_penrose
    with (k := length results) (N := 4 ^ length qubits).
  - apply spec_measurement_matrix_well_formed.
  - now apply results_length_pos.
  - rewrite pow4_pow2. nia.
  - apply not_0_INR. lia.
  - now apply pauli_gram.
Qed.

(** C1.  On a non-empty ordered list of results over [n] qubits the
    estimator returns [unvec (P @ y) + I / 2^n], for [P] the pseudo-inverse
    that [pinv] returns on [M]; [M] is the matrix the source stacks, with one
    row per result in the order of the input, each the conjugate transpose of
    the vectorized [2^n] x [2^n] matrix of the observable, of shape
    [len(results)] x [4^n]; [y] holds the expectations in the same order; and
    [unvec] undoes [vec] on square matrices. *)
Theorem linear_inv_state_estimate_formula
        (pinv : matrix -> result matrix)
        (results : list ExperimentResult) (qubits : list nat) (P : matrix) :
  results <> [] ->
  pinv (spec_measurement_matrix results qubits) = inr P ->
  linear_inv_state_estimate pinv results qubits
  = inr (madd (unvec (matvec P (spec_expectations results)))
              (mdiv (eye (2 ^ length qubits)) (INR (2 ^ length qubits))))
  /\ vstack (map (measurement_row qubits) results)
     = inr (spec_measurement_matrix results qubits)
  /\ well_formed (length results) (4 ^ length qubits)
                 (spec_measurement_matrix results qubits)
  /\ (forall (i j : nat) (r0 : ExperimentResult),
         i < length results -> j < 4 ^ length qubits ->
         ent (spec_measurement_matrix results qubits) i j
         = Cconj (ent (vec (lifted_pauli
                              (out_operator (setting (nth i results r0)))
                              qubits)) j 0)
         /\ nth i (spec_expectations results) C0
            = RtoC (expectation (nth i results r0)))
  /\ (forall A : matrix,
         well_formed (2 ^ length qubits) (2 ^ length qubits) A ->
         unvec (ravel (vec A)) = A).
Proof.
  intros Hne HP. split; [|split; [|split; [|split]]].
  - rewrite linear_inv_state_estimate_unfold by exact Hne.
    now rewrite HP.
  - now apply vstack_measurement_rows.
  - apply spec_measurement_matrix_well_formed.
  - intros i j r0 Hi Hj. split.
    + rewrite (spec_measurement_matrix_ent qubits results r0) by assumption.
      rewrite vec_ent.
      * now rewrite lifted_pauli_nrows.
      * rewrite lifted_pauli_nrows, lifted_pauli_ncols, <- pow4_pow2.
        exact Hj.
    + unfold spec_expectations.
      rewrite (nth_indep _ C0 (RtoC (expectation r0)))
        by (now rewrite length_map).
      exact (map_nth (fun r => RtoC (expectation r)) results r0 i).
  - intros A HA. now apply unvec_vec with (d := 2 ^ length qubits).
Qed.

Lemma linear_inv_state_estimate_formula_witness :
  results_1q 0 0 1 <> [] /\
  linear_inv_state_estimate (pauli_pinv 1) (results_1q 0 0 1) [0]
  = inr (madd (unvec (matvec
                        (mdiv (conj (transpose
                                       (spec_measurement_matrix
                                          (results_1q 0 0 1) [0])))
                              (INR 2))
                        (spec_expectations (results_1q 0 0 1))))
              (mdiv (eye 2) (INR 2))).
Proof.
  split; [discriminate|].
  exact (proj1 (linear_inv_state_estimate_formula
                  (pauli_pinv 1) (results_1q 0 0 1) [0] _
                  ltac:(discriminate) eq_refl)).
Defined.

End EstimatorClaims.

Section LengthCheck.

Lemma results_1q_short_pauli :
  Forall (fun r => exists labels,
              length labels = length [0] /\
              out_operator (setting r) = pauli_term_of [0] labels)
         results_1q_short.
Proof.
  repeat constructor; eexists; (split; [|reflexivity]); reflexivity.
Qed.

Lemma results_1q_short_distinct :
  NoDup (map (fun r => out_operator (setting r)) results_1q_short).
Proof.
  repeat constructor; cbn; intros Hin;
    repeat (destruct Hin as [Hin|Hin]; [discriminate|]); exact Hin.
Qed.

Lemma NoDup_qubit_0 : NoDup [0].
Proof. constructor; [intros [] | constructor]. Qed.

(** C2 as stated fails: with two results for one qubit, where three are
    expected, and [pinv] returning the Moore-Penrose pseudo-inverse, the
    estimator returns a matrix. *)
Lemma dimension_mismatch_counterexample :
  ~ (forall (pinv : matrix -> result matrix)
            (results : list ExperimentResult) (qubits : list nat)
            (P : matrix),
        length results <> 4 ^ length qubits - 1 ->
        pinv (spec_measurement_matrix results qubits) = inr P ->
        moore_penrose (spec_measurement_matrix results qubits) P ->
        forall rho : matrix,
          linear_inv_state_estimate pinv results qubits <> inr rho).
Proof.
  intros Hclaim.
  refine (Hclaim (pauli_pinv 1) results_1q_short [0] _ _ eq_refl _ _ _).
  - cbn. lia.
  - apply (pauli_moore_penrose [0] results_1q_short).
    + exact NoDup_qubit_0.
    + discriminate.
    + exact results_1q_short_pauli.
    + exact results_1q_short_distinct.
  - rewrite linear_inv_state_estimate_unfold by discriminate.
    reflexivity.
Qed.

(** C2, amended.  The estimator checks no length: on every non-empty list of
    results, of whatever length, once [pinv] has returned a matrix of the
    shape of the transpose of the measurement matrix, it returns the
    [2^n] x [2^n] matrix [unvec (P @ y) + I / 2^n]. *)
Theorem linear_inv_state_estimate_any_length
        (pinv : matrix -> result matrix)
        (results : list ExperimentResult) (qubits : list nat) (P : matrix) :
  results <> [] ->
  pinv (spec_measurement_matrix results qubits) = inr P ->
  well_formed (ncols (spec_measurement_matrix results qubits))
              (nrows (spec_measurement_matrix results qubits)) P ->
  exists rho : matrix,
    linear_inv_state_estimate pinv results qubits = inr rho /\
    rho = madd (unvec (matvec P (spec_expectations results)))
               (mdiv (eye (2 ^ length qubits)) (INR (2 ^ length qubits))) /\
    well_formed (2 ^ length qubits) (2 ^ length qubits) rho.
Proof.
  intros Hne HP Hshape. eexists. split; [|split; [reflexivity|]].
  - rewrite linear_inv_state_estimate_unfold by exact Hne.
    now rewrite HP.
  - apply estimate_well_formed.
    rewrite (well_formed_nrows _ _ _ Hshape).
    now apply spec_measurement_matrix_ncols.
Qed.

Lemma linear_inv_state_estimate_any_length_witness :
  results_1q_short <> [] /\
  length results_1q_short <> 4 ^ length [0] - 1 /\
  exists rho : matrix,
    linear_inv_state_estimate (pauli_pinv 1) results_1q_short [0] = inr rho /\
    well_formed 2 2 rho.
Proof.
  split; [discriminate|]. split; [cbn; lia|].
  destruct (linear_inv_state_estimate_any_length
              (pauli_pinv 1) results_1q_short [0] _
              ltac:(discriminate) eq_refl
              (proj1 (pauli_moore_penrose [0] results_1q_short
                        NoDup_qubit_0 ltac:(discriminate)
                        results_1q_short_pauli results_1q_short_distinct)))
    as (rho & E & _ & Hwf).
  exists rho. split; [exact E | exact Hwf].
Defined.

End LengthCheck.

Section Tomography.

Lemma matvec_zero (P : matrix) (y : vector) (i : nat) :
  Forall (fun x => x = C0) y ->
  i < nrows P -> nth i (matvec P y) C0 = C0.
Proof.
  intros Hy Hi. rewrite matvec_nth by exact Hi.
  apply Csum_zero. intros l _.
  assert (Hl : nth l y C0 = C0).
  { destruct (Nat.lt_ge_cases l (length y)) as [Hlt|Hge].
    - rewrite Forall_forall in Hy. apply Hy. now apply nth_In.
    - now apply nth_overflow. }
  rewrite Hl. ring.
Qed.

Lemma mdiv_conj_transpose_well_formed (A : matrix) (c : R) :
  0 < ncols A ->
  well_formed (ncols A) (nrows A) (mdiv (conj (transpose A)) c).
Proof.
  intros HA. unfold mdiv.
  rewrite conj_transpose_nrows, conj_transpose_ncols by exact HA.
  apply mk_matrix_well_formed.
Qed.

(** C3.  For at least one qubit, when the input holds the [4^n - 1]
    non-identity Pauli observables, each with expectation 0, and [pinv]
    returns a matrix of the shape of a pseudo-inverse, the estimator returns
    the maximally mixed state [I / 2^n] (exactly, the arithmetic being
    exact). *)
Theorem maximally_mixed_estimate
        (pinv : matrix -> result matrix)
        (results : list ExperimentResult) (qubits : list nat) (P : matrix) :
  qubits <> [] ->
  map (fun r => out_operator (setting r)) results
  = all_traceless_pauli_terms qubits ->
  Forall (fun r => expectation r = 0%R) results ->
  pinv (spec_measurement_matrix results qubits) = inr P ->
  well_formed (ncols (spec_measurement_matrix results qubits))
              (nrows (spec_measurement_matrix results qubits)) P ->
  linear_inv_state_estimate pinv results qubits
  = inr (mdiv (eye (2 ^ length qubits)) (INR (2 ^ length qubits))).
Proof.
  intros Hq Hobs Hzero HP Hshape.
  assert (Hne : results <> []).
  { apply (tomography_results_nonempty qubits); [exact Hq|].
    rewrite <- (length_map (fun r => out_operator (setting r))), Hobs.
    apply all_traceless_pauli_terms_length. }
  rewrite linear_inv_state_estimate_unfold by exact Hne. rewrite HP.
  f_equal.
  set (d := 2 ^ length qubits).
  pose proof (dim_pos qubits) as Hd. fold d in Hd.
  assert (HPr : nrows P = d * d).
  { rewrite (well_formed_nrows _ _ _ Hshape).
    rewrite spec_measurement_matrix_ncols by exact Hne. apply pow4_pow2. }
  assert (Hy : Forall (fun x => x = C0) (spec_expectations results)).
  { unfold spec_expectations. apply Forall_forall. intros x Hx.
    apply in_map_iff in Hx. destruct Hx as (r & <- & Hr).
    rewrite Forall_forall in Hzero. now rewrite (Hzero r Hr). }
  assert (HE : well_formed d d (mdiv (eye d) (INR d))).
  { unfold mdiv, eye. rewrite mk_matrix_nrows, mk_matrix_ncols by exact Hd.
    apply mk_matrix_well_formed. }
  apply matrix_ext with (m := d) (n := d); [|exact HE|].
  - apply estimate_well_formed. fold d. now rewrite pow4_pow2.
  - intros i j Hi Hj. unfold madd.
    rewrite (unvec_square d) by (now rewrite matvec_length).
    rewrite mk_matrix_nrows, mk_matrix_ncols by exact Hd.
    rewrite !ent_mk_matrix by assumption.
    rewrite matvec_zero; [ring | exact Hy | rewrite HPr; nia].
Qed.

Lemma maximally_mixed_estimate_witness :
  [0] <> [] /\
  linear_inv_state_estimate (pauli_pinv 1) (results_1q 0 0 0) [0]
  = inr (mdiv (eye 2) (INR 2)).
Proof.
  split; [discriminate|].
  assert (Hobs : map (fun r => out_operator (setting r)) (results_1q 0 0 0)
                 = all_traceless_pauli_terms [0]) by reflexivity.
  assert (Hzero : Forall (fun r => expectation r = 0%R) (results_1q 0 0 0))
    by (repeat constructor).
  refine (maximally_mixed_estimate (pauli_pinv 1) (results_1q 0 0 0) [0] _
            ltac:(discriminate) Hobs Hzero eq_refl _).
  apply mdiv_conj_transpose_well_formed.
  rewrite spec_measurement_matrix_ncols by discriminate. cbn. lia.
Defined.

End Tomography.

Section TraceOne.

Lemma in_combine_labels (qubits : list nat) :
  forall (labels : list pauli_op) (o : pauli_op),
    length labels = length qubits -> In o labels ->
    exists q, In (q, o) (combine qubits labels).
Proof.
  induction qubits as [|q0 qs IH]; intros labels o Hlen Hin.
  - destruct labels; [destruct Hin | discriminate].
  - destruct labels as [|a ls]; [destruct Hin|]. injection Hlen as Hlen.
    destruct Hin as [->|Hin].
    + exists q0. now left.
    + destruct (IH ls o Hlen Hin) as (q & Hq). exists q. now right.
Qed.

Lemma lookup_op_present (l : list (nat * pauli_op)) (q : nat) (o : pauli_op) :
  Forall (fun qo => snd qo <> op_I) l -> In (q, o) l ->
  lookup_op l q <> op_I.
Proof.
  induction 1 as [|[q' o'] l Hhd Htl IH]; intros Hin; [destruct Hin|].
  cbn [lookup_op]. destruct (Nat.eqb_spec q' q) as [->|Hne].
  - exact Hhd.
  - apply IH. destruct Hin as [E|Hin]; [|exact Hin].
    injection E as E _. contradiction.
Qed.

(** A term with a label other than the identity acts on one of the
    qubits. *)
Lemma pauli_term_of_nonidentity (qubits : list nat) (labels : list pauli_op) :
  length labels = length qubits ->
  (exists o, In o labels /\ o <> op_I) ->
  exists q, In q qubits /\
            term_getitem (pauli_term_of qubits labels) q <> op_I.
Proof.
  intros Hlen (o & Hin & Ho).
  destruct (in_combine_labels qubits labels o Hlen Hin) as (q & Hq).
  exists q. split; [now apply in_combine_l in Hq|].
  unfold term_getitem, pauli_term_of. cbn [ops].
  apply lookup_op_present with (o := o).
  - apply Forall_forall. intros [q' o'] Hin'. apply filter_In in Hin'.
    destruct Hin' as [_ Hf]. cbn [snd] in *. intros ->. discriminate.
  - apply filter_In. split; [exact Hq|]. cbn [snd].
    destruct o; try reflexivity. contradiction.
Qed.

Lemma all_traceless_pauli_terms_traceless (qubits : list nat) (t : PauliTerm) :
  In t (all_traceless_pauli_terms qubits) ->
  trace (lifted_pauli t qubits) = C0.
Proof.
  intros Hin. apply all_traceless_pauli_terms_In in Hin.
  destruct Hin as (labels & Hlen & Ho & ->).
  apply lifted_pauli_traceless. now apply pauli_term_of_nonidentity.
Qed.

(** C7.  For at least one qubit, on [4^n - 1] results whose observables are
    non-identity Pauli tensor products, whatever the expectations, the
    matrix that the estimator returns has trace exactly 1: the solution
    [P @ y] of the Moore-Penrose pseudo-inverse lies in the range of [M^H],
    so its un-vectorization is a combination of the traceless matrices of
    the observables, and [I / 2^n] has trace 1. *)
Theorem estimate_trace_one
        (pinv : matrix -> result matrix)
        (results : list ExperimentResult) (qubits : list nat) (P : matrix) :
  qubits <> [] ->
  length results = 4 ^ length qubits - 1 ->
  Forall (fun r => In (out_operator (setting r))
                      (all_traceless_pauli_terms qubits)) results ->
  pinv (spec_measurement_matrix results qubits) = inr P ->
  moore_penrose (spec_measurement_matrix results qubits) P ->
  exists rho : matrix,
    linear_inv_state_estimate pinv results qubits = inr rho /\
    trace rho = C1.
Proof.
  intros Hq Hlen Hobs HP Hmp.
  assert (Hne : results <> [])
    by (now apply (tomography_results_nonempty qubits)).
  eexists. split.
  - rewrite linear_inv_state_estimate_unfold by exact Hne.
    rewrite HP. reflexivity.
  - rewrite (pinv_range (spec_measurement_matrix results qubits) P).
    + apply trace_estimate; [exact Hne|].
      apply Forall_forall. intros r Hr. rewrite Forall_forall in Hobs.
      apply all_traceless_pauli_terms_traceless. now apply Hobs.
    + rewrite spec_measurement_matrix_nrows. now apply results_length_pos.
    + rewrite spec_measurement_matrix_ncols by exact Hne.
      pose proof (pow2_pos (length qubits)). rewrite pow4_pow2. nia.
    + exact Hmp.
Qed.

Lemma results_1q_distinct (ex ey ez : R) :
  NoDup (map (fun r => out_operator (setting r)) (results_1q ex ey ez)).
Proof. exact (all_traceless_pauli_terms_NoDup [0] NoDup_qubit_0). Qed.

Lemma results_1q_moore_penrose (ex ey ez : R) :
  moore_penrose
    (spec_measurement_matrix (results_1q ex ey ez) [0])
    (mdiv (conj (transpose (spec_measurement_matrix (results_1q ex ey ez) [0])))
          (INR 2)).
Proof.
  apply (pauli_moore_penrose [0] (results_1q ex ey ez)).
  - exact NoDup_qubit_0.
  - discriminate.
  - now apply all_traceless_results_pauli.
  - apply results_1q_distinct.
Qed.

Lemma estimate_trace_one_witness :
  [0] <> [] /\
  length (results_1q 0.25 (-0.5) 1) = 4 ^ length [0] - 1 /\
  exists rho : matrix,
    linear_inv_state_estimate (pauli_pinv 1) (results_1q 0.25 (-0.5) 1) [0]
    = inr rho /\
    trace rho = C1.
Proof.
  split; [discriminate|]. split; [reflexivity|].
  assert (Hobs : Forall (fun r => In (out_operator (setting r))
                                     (all_traceless_pauli_terms [0]))
                        (results_1q 0.25 (-0.5) 1)).
  { apply Forall_forall. intros r Hr.
    exact (in_map (fun r => out_operator (setting r)) _ r Hr). }
  exact (estimate_trace_one (pauli_pinv 1) (results_1q 0.25 (-0.5) 1) [0] _
           ltac:(discriminate) eq_refl Hobs eq_refl
           (results_1q_moore_penrose 0.25 (-0.5) 1)).
Defined.

End TraceOne.

(** ** The Bell state *)

Ltac eval_arrays := cbv - [Rplus Rminus Rmult Ropp Rdiv Rinv IZR sqrt].

Section BellState.

Lemma bell_entries (i j : nat) :
  i < 4 -> j < 4 -> bell_sum i j = ent rho_bell i j.
Proof.
  intros Hi Hj.
  assert (Hcases : (i = 0 \/ i = 1 \/ i = 2 \/ i = 3) /\
                   (j = 0 \/ j = 1 \/ j = 2 \/ j = 3)) by lia.
  destruct Hcases as [[->|[->|[->| ->]]] [->|[->|[->| ->]]]]; clear Hi Hj;
    unfold bell_sum; eval_arrays; f_equal; lra.
Qed.

Lemma NoDup_qubits_01 : NoDup [0; 1].
Proof.
  constructor; [intros [E|[]]; discriminate|].
  constructor; [intros [] | constructor].
Qed.

(** C4.  For the two qubits (0, 1), on the fifteen non-identity Pauli
    observables with the exact expectations of the Bell state, and with
    [pinv] returning the Moore-Penrose pseudo-inverse, the estimator returns
    the matrix [[0.5,0,0,0.5],[0,0,0,0],[0,0,0,0],[0.5,0,0,0.5]]; the
    arithmetic being exact, the equality is exact. *)
Theorem bell_state_estimate
        (pinv : matrix -> result matrix)
        (results : list ExperimentResult) (P : matrix) :
  map (fun r => out_operator (setting r)) results
  = all_traceless_pauli_terms [0; 1] ->
  map expectation results = bell_expectations ->
  pinv (spec_measurement_matrix results [0; 1]) = inr P ->
  moore_penrose (spec_measurement_matrix results [0; 1]) P ->
  linear_inv_state_estimate pinv results [0; 1] = inr rho_bell.
Proof.
  intros Hobs Hexp HP Hmp.
  set (M := spec_measurement_matrix results [0; 1]) in *.
  assert (Hlen : length results = 15).
  { rewrite <- (length_map expectation), Hexp. reflexivity. }
  assert (Hne : results <> []) by (intros ->; discriminate).
  assert (r0 : ExperimentResult).
  { clear - Hne. destruct results; [contradiction | assumption]. }
  assert (HMr : nrows M = 15)
    by (unfold M; now rewrite spec_measurement_matrix_nrows).
  assert (HMc : ncols M = 16)
    by (unfold M; now rewrite spec_measurement_matrix_ncols).
  assert (Hgram : matmul M (conj (transpose M)) = scaled_eye (nrows M) (INR 4)).
  { rewrite HMr, <- Hlen.
    apply (pauli_gram [0; 1] NoDup_qubits_01 results).
    - now apply all_traceless_results_pauli.
    - rewrite Hobs. apply all_traceless_pauli_terms_NoDup, NoDup_qubits_01. }
  rewrite linear_inv_state_estimate_unfold by exact Hne.
  fold M. rewrite HP. f_equal.
  rewrite (pinv_orthogonal_rows M P ltac:(lia) ltac:(lia) Hmp (INR 4)).
  - apply matrix_ext with (m := 4) (n := 4).
    + apply (estimate_well_formed [0; 1]).
      rewrite conj_transpose_nrows. exact HMc.
    + repeat constructor.
    + intros i j Hi Hj. rewrite <- bell_entries by assumption.
      unfold madd, bell_sum.
      rewrite (unvec_square 4) at 1 2
        by (now rewrite matvec_length, conj_transpose_nrows).
      rewrite mk_matrix_nrows, mk_matrix_ncols by lia.
      rewrite ent_mk_matrix by assumption. f_equal.
      unfold M.
      rewrite (unvec_conj_transpose_ent [0; 1] results Hne r0)
        by assumption.
      rewrite Hlen. apply Csum_ext. intros l Hl. f_equal.
      * do 2 f_equal.
        rewrite <- Hobs.
        rewrite (nth_indep _ (pauli_term_of [0; 1] [])
                           (out_operator (setting r0)))
          by (now rewrite length_map, Hlen).
        symmetry.
        exact (map_nth (fun r => out_operator (setting r)) results r0 l).
      * unfold spec_expectations. rewrite map_map.
        rewrite (nth_indep _ C0 (Cdivr (RtoC (expectation r0)) (INR 4)))
          by (now rewrite length_map, Hlen).
        rewrite (map_nth (fun r => Cdivr (RtoC (expectation r)) (INR 4))
                         results r0 l).
        f_equal. f_equal. rewrite <- Hexp.
        rewrite (nth_indep _ 0%R (expectation r0))
          by (now rewrite length_map, Hlen).
        symmetry. exact (map_nth expectation results r0 l).
  - apply not_0_INR. discriminate.
  - exact Hgram.
  - unfold spec_expectations. now rewrite length_map, HMr.
Qed.

End BellState.

Lemma bell_state_estimate_witness :
  map (fun r => out_operator (setting r)) results_bell
  = all_traceless_pauli_terms [0; 1] /\
  map expectation results_bell = bell_expectations /\
  linear_inv_state_estimate (pauli_pinv 2) results_bell [0; 1] = inr rho_bell.
Proof.
  assert (Hobs : map (fun r => out_operator (setting r)) results_bell
                 = all_traceless_pauli_terms [0; 1]) by reflexivity.
  assert (Hexp : map expectation results_bell = bell_expectations)
    by reflexivity.
  split; [exact Hobs|]. split; [exact Hexp|].
  refine (bell_state_estimate (pauli_pinv 2) results_bell _
            Hobs Hexp eq_refl _).
  apply (pauli_moore_penrose [0; 1] results_bell).
  - exact NoDup_qubits_01.
  - discriminate.
  - now apply all_traceless_results_pauli.
  - rewrite Hobs. apply all_traceless_pauli_terms_NoDup, NoDup_qubits_01.
Defined.

(** X22.  The ideal density matrix that the notebook builds,
    [build_rho_true()], is the same matrix: the one that the notebook
    prints, [[0.5,0,0,0.5],[0,0,0,0],[0,0,0,0],[0.5,0,0,0.5]]. *)
Lemma build_rho_true_eq : build_rho_true = rho_bell.
Proof.
  assert (Ht : (1 / sqrt 2 * (1 / sqrt 2) = 1 / 2)%R).
  { assert (Hs : (sqrt 2 * sqrt 2 = 2)%R) by (apply sqrt_sqrt; lra).
    assert (Hnz : sqrt 2 <> 0%R) by (intros E; rewrite E in Hs; lra).
    replace (1 / sqrt 2 * (1 / sqrt 2))%R with (1 / (sqrt 2 * sqrt 2))%R
      by (field; exact Hnz).
    now rewrite Hs. }
  assert (Hbell : matmul (matmul psm_CNOT (kron psm_H psm_I))
                         [[C1]; [C0]; [C0]; [C0]]
                  = [[RtoC (1 / sqrt 2)]; [C0]; [C0]; [RtoC (1 / sqrt 2)]]).
  { eval_arrays. set (t := (1 / sqrt 2)%R). repeat (f_equal; try lra). }
  unfold build_rho_true. cbv zeta. rewrite Hbell.
  unfold rho_bell. eval_arrays.
  set (t := (1 / sqrt 2)%R) in *.
  repeat (f_equal; try nra).
Qed.

(** * Further code of the notebooks: proofs *)

(** ** Counting the bitstrings *)

Section ShotCounts_proofs.
Import ShotCounts.

Lemma product_bits_In (n : nat) (t : bit_tuple) :
  In t (product_bits n) <-> is_bit_tuple n t.
Proof.
  unfold is_bit_tuple. revert t. induction n as [|n IH]; intros t; simpl.
  - split.
    + intros [<-|[]]. split; [reflexivity|constructor].
    + intros [Hl _]. left. symmetry. now apply length_zero_iff_nil.
  - rewrite app_nil_r, in_app_iff, !in_map_iff. split.
    + intros [[t' [<- Ht']]|[t' [<- Ht']]]; apply IH in Ht' as [Hl Hb];
        (split; [simpl; now rewrite Hl | constructor; [lia|exact Hb]]).
    + intros [Hl Hb]. destruct t as [|b t]; [discriminate|].
      inversion Hb as [|? ? Hb1 Hb2]; subst.
      assert (Ht : In t (product_bits n)).
      { apply IH. split; [simpl in Hl; lia | exact Hb2]. }
      assert (Hcase : b = 0 \/ b = 1) by lia.
      destruct Hcase as [-> | ->]; [left|right]; exists t; now split.
Qed.

Lemma product_bits_NoDup (n : nat) : NoDup (product_bits n).
Proof.
  induction n as [|n IH]; simpl.
  - constructor; [intros []|constructor].
  - rewrite app_nil_r.
    assert (Hinj : forall b, NoDup (map (cons b) (product_bits n))).
    { intros b. apply NoDup_map_In_inj; [|exact IH].
      intros x y _ _ E. now inversion E. }
    apply NoDup_app; [apply Hinj | apply Hinj |].
    intros t H0 H1.
    apply in_map_iff in H0 as [t0 [<- _]].
    apply in_map_iff in H1 as [t1 [E _]]. discriminate.
Qed.

Lemma getitem_setitem_same (d : dict) (k : bit_tuple) (v : nat) :
  getitem (setitem d k v) k = inr v.
Proof.
  induction d as [|[k' v'] d IH]; simpl.
  - destruct (tuple_eq_dec k k); [reflexivity|contradiction].
  - destruct (tuple_eq_dec k' k) as [E|N]; simpl.
    + destruct (tuple_eq_dec k' k); [reflexivity|contradiction].
    + destruct (tuple_eq_dec k' k); [contradiction|exact IH].
Qed.

Lemma getitem_setitem_other (d : dict) (k k2 : bit_tuple) (v : nat) :
  k2 <> k -> getitem (setitem d k v) k2 = getitem d k2.
Proof.
  intros Hne. induction d as [|[k' v'] d IH]; simpl.
  - destruct (tuple_eq_dec k k2); [congruence|reflexivity].
  - destruct (tuple_eq_dec k' k) as [E|N]; simpl.
    + destruct (tuple_eq_dec k' k2); [congruence|reflexivity].
    + destruct (tuple_eq_dec k' k2); [reflexivity|exact IH].
Qed.

(** Assigning to a key that is present moves no key. *)
Lemma setitem_keys (d : dict) (k : bit_tuple) (v : nat) :
  In k (map fst d) -> map fst (setitem d k v) = map fst d.
Proof.
  induction d as [|[k' v'] d IH]; simpl; [intros []|].
  intros Hin. destruct (tuple_eq_dec k' k) as [E|N]; simpl; [reflexivity|].
  f_equal. apply IH. destruct Hin; [contradiction|assumption].
Qed.

Lemma getitem_present (d : dict) (k : bit_tuple) :
  In k (map fst d) -> exists v, getitem d k = inr v.
Proof.
  induction d as [|[k' v'] d IH]; simpl; [intros []|].
  intros Hin. destruct (tuple_eq_dec k' k) as [E|N]; [now exists v'|].
  apply IH. destruct Hin; [contradiction|assumption].
Qed.

Lemma getitem_missing (d : dict) (k : bit_tuple) :
  ~ In k (map fst d) -> getitem d k = inl KeyError.
Proof.
  induction d as [|[k' v'] d IH]; simpl; [reflexivity|].
  intros Hin. destruct (tuple_eq_dec k' k) as [E|N]; [tauto|].
  apply IH. tauto.
Qed.

Lemma initial_counts_eq :
  initial_counts = map (fun t => (t, 0)) (product_bits 3).
Proof. reflexivity. Qed.

Lemma initial_counts_keys : map fst initial_counts = product_bits 3.
Proof. reflexivity. Qed.

Lemma initial_counts_getitem (t : bit_tuple) :
  In t (product_bits 3) -> getitem initial_counts t = inr 0.
Proof.
  rewrite initial_counts_eq.
  induction (product_bits 3) as [|t' l IH]; simpl; [intros []|].
  intros Hin. destruct (tuple_eq_dec t' t) as [E|N]; [reflexivity|].
  apply IH. destruct Hin; [contradiction|assumption].
Qed.

(** The loop from any dictionary whose keys contain every shot. *)
Lemma count_loop_counts (results : list bit_tuple) :
  forall counts : dict,
    Forall (fun t => In t (map fst counts)) results ->
    exists counts',
      count_loop results counts = inr counts' /\
      map fst counts' = map fst counts /\
      forall t c, getitem counts t = inr c ->
                  getitem counts' t = inr (c + count_occ tuple_eq_dec results t).
Proof.
  induction results as [|shot rest IH]; intros counts Hall.
  - exists counts. simpl. repeat split. intros t c Hc. now rewrite Nat.add_0_r.
  - inversion Hall as [|? ? Hshot Hrest]; subst.
    destruct (getitem_present counts shot Hshot) as [c0 Hc0].
    simpl. rewrite Hc0.
    destruct (IH (setitem counts shot (c0 + 1))) as [counts' [Hrun [Hkeys Hget]]].
    { rewrite setitem_keys by exact Hshot. exact Hrest. }
    exists counts'. split; [exact Hrun|]. split.
    { rewrite Hkeys. now apply setitem_keys. }
    intros t c Hc. destruct (tuple_eq_dec shot t) as [E|N].
    + subst t. rewrite Hc0 in Hc. injection Hc as ->.
      rewrite (Hget shot (c + 1)) by apply getitem_setitem_same.
      f_equal. lia.
    + rewrite (Hget t c); [reflexivity|].
      rewrite getitem_setitem_other by congruence. exact Hc.
Qed.

(** The loop stops with [KeyError] at the first shot that is no key. *)
Lemma count_loop_KeyError (results : list bit_tuple) :
  forall counts : dict,
    Exists (fun t => ~ In t (map fst counts)) results ->
    count_loop results counts = inl KeyError.
Proof.
  induction results as [|shot rest IH]; intros counts Hex.
  - inversion Hex.
  - simpl. destruct (in_dec tuple_eq_dec shot (map fst counts)) as [Hin|Hout].
    + destruct (getitem_present counts shot Hin) as [c0 Hc0]. rewrite Hc0.
      apply IH. rewrite setitem_keys by exact Hin.
      inversion Hex; [contradiction|assumption].
    + now rewrite getitem_missing.
Qed.

(** X1.  When every shot is a tuple of three bits, the counting loop ends
    without an exception; the dictionary keeps the eight tuples of
    [itertools.product((0, 1), repeat=3)] as its keys, in that order, and
    holds for each of them the number of shots equal to it. *)
Theorem count_shots_counts (results : list bit_tuple) :
  Forall (is_bit_tuple 3) results ->
  exists counts,
    count_shots results = inr counts /\
    map fst counts = product_bits 3 /\
    forall t, is_bit_tuple 3 t ->
              getitem counts t = inr (count_occ tuple_eq_dec results t).
Proof.
  intros Hall. unfold count_shots.
  destruct (count_loop_counts results initial_counts) as [counts [Hrun [Hkeys Hget]]].
  { rewrite initial_counts_keys. eapply Forall_impl; [|exact Hall].
    intros t Ht. now apply product_bits_In. }
  exists counts. split; [exact Hrun|]. split; [now rewrite Hkeys|].
  intros t Ht. apply (Hget t 0).
  apply initial_counts_getitem. now apply product_bits_In.
Qed.

Lemma count_shots_counts_witness :
  Forall (is_bit_tuple 3) [[0; 0; 0]; [1; 1; 1]; [0; 0; 0]; [1; 0; 1]] /\
  exists counts,
    count_shots [[0; 0; 0]; [1; 1; 1]; [0; 0; 0]; [1; 0; 1]] = inr counts /\
    map fst counts = product_bits 3 /\
    forall t, is_bit_tuple 3 t ->
              getitem counts t
              = inr (count_occ tuple_eq_dec
                       [[0; 0; 0]; [1; 1; 1]; [0; 0; 0]; [1; 0; 1]] t).
Proof.
  assert (H : Forall (is_bit_tuple 3) [[0; 0; 0]; [1; 1; 1]; [0; 0; 0]; [1; 0; 1]]).
  { repeat constructor. }
  split; [exact H|].
  exact (count_shots_counts [[0; 0; 0]; [1; 1; 1]; [0; 0; 0]; [1; 0; 1]] H).
Defined.

(** The values of a dictionary add up to the number of the shots whose
    tuple is a key, when no key is repeated. *)
Lemma sum_count_occ (keys : list bit_tuple) (results : list bit_tuple) :
  NoDup keys ->
  Forall (fun t => In t keys) results ->
  list_sum (map (count_occ tuple_eq_dec results) keys) = length results.
Proof.
  intros Hnd. induction results as [|shot rest IH]; intros Hall.
  - clear. induction keys as [|k keys IH]; simpl; [reflexivity|exact IH].
  - inversion Hall as [|? ? Hshot Hrest]; subst.
    specialize (IH Hrest). simpl length. rewrite <- IH.
    clear IH Hall Hrest. revert Hnd Hshot.
    induction keys as [|k keys IHk]; intros Hnd Hshot; [destruct Hshot|].
    inversion Hnd as [|? ? Hk Hnd']; subst.
    cbn [map list_sum].
    destruct (tuple_eq_dec shot k) as [E|N].
    + subst k. rewrite count_occ_cons_eq by reflexivity.
      assert (Hrest : map (count_occ tuple_eq_dec (shot :: rest)) keys
                      = map (count_occ tuple_eq_dec rest) keys).
      { apply map_ext_in. intros k Hin. apply count_occ_cons_neq.
        intros ->. contradiction. }
      rewrite Hrest. reflexivity.
    + rewrite count_occ_cons_neq by exact N.
      destruct Hshot as [E|Hin]; [congruence|].
      specialize (IHk Hnd' Hin). cbn [list_sum fold_right].
      change (fold_right Nat.add 0) with list_sum. rewrite IHk. lia.
Qed.

Lemma values_of_getitem (d : dict) (f : bit_tuple -> nat) :
  NoDup (map fst d) ->
  (forall t, In t (map fst d) -> getitem d t = inr (f t)) ->
  map snd d = map f (map fst d).
Proof.
  induction d as [|[k v] d IH]; intros Hnd Hget; simpl; [reflexivity|].
  inversion Hnd as [|? ? Hk Hnd']; subst.
  f_equal.
  - specialize (Hget k (or_introl eq_refl)). simpl in Hget.
    destruct (tuple_eq_dec k k); [congruence|contradiction].
  - apply IH; [exact Hnd'|]. intros t Ht.
    specialize (Hget t (or_intror Ht)). simpl in Hget.
    destruct (tuple_eq_dec k t); [subst; contradiction|exact Hget].
Qed.

(** X2.  When every shot is a tuple of three bits, the counts that the
    notebook prints add up to the number of shots: every shot is counted
    once. *)
Theorem count_shots_total (results : list bit_tuple) :
  Forall (is_bit_tuple 3) results ->
  exists counts,
    count_shots results = inr counts /\
    list_sum (map snd counts) = length results.
Proof.
  intros Hall.
  destruct (count_loop_counts results initial_counts) as [counts [Hrun [Hkeys Hget]]].
  { rewrite initial_counts_keys. eapply Forall_impl; [|exact Hall].
    intros t Ht. now apply product_bits_In. }
  exists counts. split; [exact Hrun|].
  rewrite initial_counts_keys in Hkeys.
  rewrite (values_of_getitem counts (count_occ tuple_eq_dec results)).
  - rewrite Hkeys. apply sum_count_occ; [apply product_bits_NoDup|].
    eapply Forall_impl; [|exact Hall]. intros t Ht. now apply product_bits_In.
  - rewrite Hkeys. apply product_bits_NoDup.
  - intros t Ht. rewrite Hkeys in Ht. apply (Hget t 0).
    now apply initial_counts_getitem.
Qed.

Lemma count_shots_total_witness :
  Forall (is_bit_tuple 3) [[0; 0; 0]; [1; 1; 1]; [0; 0; 0]; [1; 0; 1]] /\
  exists counts,
    count_shots [[0; 0; 0]; [1; 1; 1]; [0; 0; 0]; [1; 0; 1]] = inr counts /\
    list_sum (map snd counts) = 4.
Proof.
  assert (H : Forall (is_bit_tuple 3) [[0; 0; 0]; [1; 1; 1]; [0; 0; 0]; [1; 0; 1]]).
  { repeat constructor. }
  split; [exact H|].
  exact (count_shots_total [[0; 0; 0]; [1; 1; 1]; [0; 0; 0]; [1; 0; 1]] H).
Defined.

(** X3.  The counting loop raises exactly when some shot is not a tuple of
    three bits (a shot of another length, or with an entry above 1), and
    the exception is then [KeyError]: the loop adds no key. *)
Theorem count_shots_KeyError (results : list bit_tuple) (e : exception) :
  count_shots results = inl e <->
  e = KeyError /\ Exists (fun t => ~ is_bit_tuple 3 t) results.
Proof.
  unfold count_shots. split.
  - intros Hrun.
    destruct (Forall_Exists_dec (fun t => In t (product_bits 3))
                (fun t => in_dec tuple_eq_dec t (product_bits 3)) results)
      as [Hall|Hex].
    + destruct (count_loop_counts results initial_counts) as [counts [Hrun' _]].
      { now rewrite initial_counts_keys. }
      congruence.
    + rewrite (count_loop_KeyError results initial_counts) in Hrun.
      * split; [congruence|]. eapply Exists_impl; [|exact Hex].
        intros t Ht Hbit. apply Ht. now apply product_bits_In.
      * now rewrite initial_counts_keys.
  - intros [-> Hex]. apply count_loop_KeyError.
    rewrite initial_counts_keys. eapply Exists_impl; [|exact Hex].
    intros t Ht Hin. apply Ht. now apply product_bits_In.
Qed.

End ShotCounts_proofs.

(** ** The correction loop *)

Section CorrectionLoop.

Variable correct :
  ExperimentResult -> ExperimentResult -> result ExperimentResult.

Lemma correction_loop_succeeds (pairs : list (ExperimentResult * ExperimentResult)) :
  forall acc,
    (forall r c, In (r, c) pairs -> exists r', correct r c = inr r') ->
    exists l,
      correction_loop correct pairs acc = (acc ++ l, None) /\
      Forall2 (fun rc r' => correct (fst rc) (snd rc) = inr r') pairs l.
Proof.
  induction pairs as [|[r c] pairs IH]; intros acc Hok.
  - exists []. simpl. rewrite app_nil_r. split; [reflexivity|constructor].
  - destruct (Hok r c (or_introl eq_refl)) as [r' Hr'].
    destruct (IH (acc ++ [r'])) as [l [Hrun Hall]].
    { intros r2 c2 Hin. apply Hok. now right. }
    exists (r' :: l). simpl. rewrite Hr', Hrun, <- app_assoc.
    split; [reflexivity|]. constructor; [exact Hr'|exact Hall].
Qed.

Lemma correction_loop_fails
      (before : list (ExperimentResult * ExperimentResult))
      (r c : ExperimentResult) (after : list (ExperimentResult * ExperimentResult))
      (e : exn) :
  forall acc,
    (forall r2 c2, In (r2, c2) before -> exists r', correct r2 c2 = inr r') ->
    correct r c = inl e ->
    exists l,
      correction_loop correct (before ++ (r, c) :: after) acc
      = (acc ++ l, Some e) /\
      Forall2 (fun rc r' => correct (fst rc) (snd rc) = inr r') before l.
Proof.
  induction before as [|[r1 c1] before IH]; intros acc Hok Hfail.
  - exists []. simpl. rewrite Hfail, app_nil_r. split; [reflexivity|constructor].
  - destruct (Hok r1 c1 (or_introl eq_refl)) as [r' Hr'].
    destruct (IH (acc ++ [r'])) as [l [Hrun Hall]].
    { intros r2 c2 Hin. apply Hok. now right. }
    { exact Hfail. }
    exists (r' :: l). simpl. rewrite Hr', Hrun, <- app_assoc.
    split; [reflexivity|]. constructor; [exact Hr'|exact Hall].
Qed.

Lemma Forall2_combine_nth (results calibrations l : list ExperimentResult)
      (d : ExperimentResult) :
  Forall2 (fun rc r' => correct (fst rc) (snd rc) = inr r')
          (combine results calibrations) l ->
  length l = Nat.min (length results) (length calibrations) /\
  forall i, i < length l ->
            correct (nth i results d) (nth i calibrations d) = inr (nth i l d).
Proof.
  intros Hall. split.
  - rewrite <- (Forall2_length Hall). apply length_combine.
  - revert calibrations l Hall.
    induction results as [|r results IH]; intros calibrations l Hall i Hi.
    + inversion Hall; subst. simpl in Hi. lia.
    + destruct calibrations as [|c calibrations].
      * inversion Hall; subst. simpl in Hi. lia.
      * simpl in Hall. inversion Hall as [|? ? ? l' Hrc Hall']; subst.
        destruct i as [|i]; [exact Hrc|].
        simpl. apply IH; [exact Hall'|]. simpl in Hi. lia.
Qed.

End CorrectionLoop.

(** X4.  When the correction succeeds on every pair that [zip] yields, the
    loop ends without an exception and leaves in [results_corrected] one
    entry per pair, in order: as many as the shorter of the two lists has,
    the [i]-th being the correction of [results[i]] by [calibrations[i]].
    The surplus entries of the longer list are never read. *)
Theorem correct_results_zip
        (correct : ExperimentResult -> ExperimentResult -> result ExperimentResult)
        (results calibrations : list ExperimentResult) (d : ExperimentResult) :
  (forall r c, In (r, c) (combine results calibrations) ->
               exists r', correct r c = inr r') ->
  exists l,
    correct_results correct results calibrations = (l, None) /\
    length l = Nat.min (length results) (length calibrations) /\
    forall i, i < length l ->
              correct (nth i results d) (nth i calibrations d) = inr (nth i l d).
Proof.
  intros Hok. unfold correct_results.
  destruct (correction_loop_succeeds correct (combine results calibrations) []
              Hok) as [l [Hrun Hall]].
  exists l. split; [exact Hrun|].
  now apply (Forall2_combine_nth correct).
Qed.

Lemma combine_split_at (results calibrations : list ExperimentResult) (k : nat)
      (d : ExperimentResult) :
  k < length results -> k < length calibrations ->
  combine results calibrations
  = combine (firstn k results) (firstn k calibrations)
    ++ (nth k results d, nth k calibrations d)
    :: combine (skipn (S k) results) (skipn (S k) calibrations).
Proof.
  revert calibrations k.
  induction results as [|r results IH]; intros calibrations k Hr Hc;
    [simpl in Hr; lia|].
  destruct calibrations as [|c calibrations]; [simpl in Hc; lia|].
  destruct k as [|k]; [reflexivity|].
  simpl in Hr, Hc. cbn [firstn combine app nth]. f_equal.
  rewrite (IH calibrations k) by lia. reflexivity.
Qed.

Lemma In_combine_firstn (results calibrations : list ExperimentResult) (k : nat)
      (d : ExperimentResult) (r c : ExperimentResult) :
  In (r, c) (combine (firstn k results) (firstn k calibrations)) ->
  exists i, i < k /\ r = nth i results d /\ c = nth i calibrations d.
Proof.
  revert results calibrations.
  induction k as [|k IH]; intros results calibrations Hin; [destruct Hin|].
  destruct results as [|r0 results]; [destruct Hin|].
  destruct calibrations as [|c0 calibrations]; [destruct Hin|].
  destruct Hin as [E|Hin].
  - injection E as <- <-. exists 0. split; [lia|]. now split.
  - destruct (IH results calibrations Hin) as [i [Hi [Hr Hc]]].
    exists (S i). split; [lia|]. now split.
Qed.

(** X5.  When the correction raises for the pair of index [k] and succeeds
    for the pairs before it, the loop stops with that exception and
    [results_corrected] keeps the [k] corrected results appended before it:
    the pairs after index [k] are not corrected. *)
Theorem correct_results_stops
        (correct : ExperimentResult -> ExperimentResult -> result ExperimentResult)
        (results calibrations : list ExperimentResult)
        (k : nat) (e : exn) (d : ExperimentResult) :
  k < length results -> k < length calibrations ->
  (forall i, i < k ->
             exists r', correct (nth i results d) (nth i calibrations d) = inr r') ->
  correct (nth k results d) (nth k calibrations d) = inl e ->
  exists l,
    correct_results correct results calibrations = (l, Some e) /\
    length l = k /\
    forall i, i < k ->
              correct (nth i results d) (nth i calibrations d) = inr (nth i l d).
Proof.
  intros Hr Hc Hok Hfail. unfold correct_results.
  rewrite (combine_split_at results calibrations k d Hr Hc).
  destruct (correction_loop_fails correct
              (combine (firstn k results) (firstn k calibrations))
              (nth k results d) (nth k calibrations d)
              (combine (skipn (S k) results) (skipn (S k) calibrations))
              e []) as [l [Hrun Hall]].
  { intros r2 c2 Hin.
    destruct (In_combine_firstn results calibrations k d r2 c2 Hin)
      as [i [Hi [-> ->]]].
    now apply Hok. }
  { exact Hfail. }
  exists l. split; [exact Hrun|].
  destruct (Forall2_combine_nth correct (firstn k results)
              (firstn k calibrations) l d Hall) as [Hlen Hnth].
  rewrite !length_firstn in Hlen.
  assert (Hk : length l = k) by lia.
  split; [exact Hk|]. intros i Hi.
  specialize (Hnth i ltac:(lia)).
  rewrite !nth_firstn in Hnth.
  destruct (Nat.ltb_spec i k); [exact Hnth|lia].
Qed.

(** The loop of the notebook is the instance with pyQuil's correction: it
    ends as the store-passing loop [correct_all] does. *)
Lemma correct_all_correction_loop
      (pairs : list (ExperimentResult * ExperimentResult)) :
  forall acc,
    for_each pairs
      (fun '(r, c) => fun results_corrected =>
         match correct_experiment_result r c with
         | inl e => inl e
         | inr r' => inr (tt, results_corrected ++ [r'])
         end) acc
    = match correction_loop correct_experiment_result pairs acc with
      | (l, None) => inr (tt, l)
      | (_, Some e) => inl e
      end.
Proof.
  induction pairs as [|[r c] pairs IH]; intros acc; simpl; [reflexivity|].
  unfold bind. destruct (correct_experiment_result r c) as [e|r']; [reflexivity|].
  apply IH.
Qed.

Lemma nonzero_calibration_corrects (r c : ExperimentResult) :
  expectation c <> 0%R ->
  exists r', correct_experiment_result r c = inr r'.
Proof.
  intros Hc. unfold correct_experiment_result.
  destruct (Req_dec_T (expectation c) 0) as [E|_]; [contradiction|].
  eexists. reflexivity.
Qed.

Lemma calibration_X0X1_nonzero : expectation calibration_X0X1 <> 0%R.
Proof. cbn [expectation calibration_X0X1]. lra. Qed.

Lemma correct_results_zip_witness :
  (forall r c,
      In (r, c) (combine [raw_X0X1; raw_zero_expectation] [calibration_X0X1]) ->
      exists r', correct_experiment_result r c = inr r') /\
  exists l,
    correct_results correct_experiment_result
                    [raw_X0X1; raw_zero_expectation] [calibration_X0X1]
    = (l, None) /\
    length l = 1 /\
    forall i, i < length l ->
              correct_experiment_result
                (nth i [raw_X0X1; raw_zero_expectation] raw_X0X1)
                (nth i [calibration_X0X1] raw_X0X1)
              = inr (nth i l raw_X0X1).
Proof.
  assert (H : forall r c,
             In (r, c) (combine [raw_X0X1; raw_zero_expectation] [calibration_X0X1]) ->
             exists r', correct_experiment_result r c = inr r').
  { intros r c [E|[]]. injection E as <- <-.
    apply nonzero_calibration_corrects, calibration_X0X1_nonzero. }
  split; [exact H|].
  exact (correct_results_zip correct_experiment_result
           [raw_X0X1; raw_zero_expectation] [calibration_X0X1] raw_X0X1 H).
Defined.

Lemma checked_correction_nonzero (r c : ExperimentResult) :
  expectation c <> 0%R ->
  exists r', checked_correction r c = inr r'.
Proof.
  intros Hc. unfold checked_correction.
  destruct (Req_dec_T (expectation c) 0) as [E|_]; [contradiction|].
  now apply nonzero_calibration_corrects.
Qed.

Lemma checked_correction_zero (r c : ExperimentResult) :
  expectation c = 0%R -> checked_correction r c = inl ValueError.
Proof.
  intros Hc. unfold checked_correction.
  destruct (Req_dec_T (expectation c) 0) as [_|N]; [reflexivity|contradiction].
Qed.

Lemma correct_results_stops_witness :
  1 < length [raw_X0X1; raw_X0X1; raw_X0X1] /\
  1 < length [calibration_X0X1; calibration_zero; calibration_X0X1] /\
  exists l,
    correct_results checked_correction
      [raw_X0X1; raw_X0X1; raw_X0X1]
      [calibration_X0X1; calibration_zero; calibration_X0X1]
    = (l, Some ValueError) /\
    length l = 1 /\
    forall i, i < 1 ->
              checked_correction
                (nth i [raw_X0X1; raw_X0X1; raw_X0X1] raw_X0X1)
                (nth i [calibration_X0X1; calibration_zero; calibration_X0X1]
                     raw_X0X1)
              = inr (nth i l raw_X0X1).
Proof.
  split; [simpl; lia|]. split; [simpl; lia|].
  apply (correct_results_stops checked_correction
           [raw_X0X1; raw_X0X1; raw_X0X1]
           [calibration_X0X1; calibration_zero; calibration_X0X1]
           1 ValueError raw_X0X1).
  - simpl; lia.
  - simpl; lia.
  - intros i Hi. assert (i = 0) as -> by lia.
    apply checked_correction_nonzero, calibration_X0X1_nonzero.
  - apply checked_correction_zero. reflexivity.
Defined.

(** ** The GHZ program, further properties *)

Section GHZ_more.
Import GHZ.

(** The run of [ghz_program] on a non-empty list. *)
Lemma ghz_program_run (qs : list nat) (p0 : list instruction) :
  qs <> [] ->
  ghz_program (mkStore qs p0)
  = inr (ghz_expected qs, mkStore qs (ghz_expected qs)).
Proof.
  intros Hne.
  assert (Hlen : 0 < length qs) by (destruct qs; [congruence | simpl; lia]).
  unfold ghz_program, ghz_expected.
  unfold bind at 1. unfold Program at 1. cbn [qubits].
  unfold bind at 1. rewrite getitem_lt by exact Hlen.
  unfold bind at 1. unfold inst at 1. cbn [qubits program app].
  unfold bind at 1. unfold len at 1. cbn [qubits].
  unfold bind at 1. unfold range.
  rewrite cnot_loop by lia.
  unfold bind at 1. unfold len at 1. cbn [qubits].
  unfold bind at 1. unfold declare at 1. cbn [qubits program].
  unfold bind at 1. unfold enumerate_qubits at 1. cbn [qubits].
  unfold bind at 1. rewrite measure_comprehension.
  unfold bind at 1. unfold inst_list at 1. cbn [qubits program].
  unfold enumerate, getref. cbn [fst].
  rewrite (enumerate_measures qs 0
             (fun idx qubit => MEASURE qubit ("ro"%string, idx)) 0).
  cbn [Nat.add].
  repeat rewrite <- app_assoc. reflexivity.
Qed.

(** X6.  [ghz_program] raises exactly on the empty list of qubits, and the
    exception is then the [IndexError] of [qubits[0]]; the indices
    [qubits[i + 1]] of the loop never leave the list. *)
Theorem ghz_program_raises_iff (qs : list nat) (p0 : list instruction) (e : exn) :
  ghz_program (mkStore qs p0) = inl e <-> qs = [] /\ e = IndexError.
Proof.
  split.
  - intros Hrun. destruct qs as [|q qs].
    + rewrite ghz_program_no_qubit in Hrun. split; congruence.
    + rewrite ghz_program_run in Hrun by discriminate. discriminate.
  - intros [-> ->]. apply ghz_program_no_qubit.
Qed.

Lemma measured_map_MEASURE (f : nat -> nat * MemoryReference) (l : list nat) :
  measured (map (fun i => MEASURE (fst (f i)) (snd (f i))) l) = map f l.
Proof.
  induction l as [|i l IH]; simpl; [reflexivity|].
  rewrite IH. now destruct (f i).
Qed.

Lemma measured_map_CNOT (f g : nat -> nat) (l : list nat) :
  measured (map (fun i => CNOT (f i) (g i)) l) = [].
Proof. induction l; simpl; auto. Qed.

Lemma declared_map_CNOT (f g : nat -> nat) (l : list nat) :
  declared (map (fun i => CNOT (f i) (g i)) l) = [].
Proof. induction l; simpl; auto. Qed.

Lemma declared_map_MEASURE (f : nat -> nat * MemoryReference) (l : list nat) :
  declared (map (fun i => MEASURE (fst (f i)) (snd (f i))) l) = [].
Proof. induction l; simpl; auto. Qed.

(** X7.  In the program that [ghz_program] returns, the readout register
    is declared once, with as many bits as there are qubits, and the
    measurements are those of [qubits[0]], [qubits[1]], ... in order, the
    one of [qubits[i]] into [ro[i]]: every declared bit is written exactly
    once and no measurement writes outside the register. *)
Theorem ghz_program_readout (qs : list nat) (p0 : list instruction) :
  qs <> [] ->
  exists p s,
    ghz_program (mkStore qs p0) = inr (p, s) /\
    declared p = [("ro"%string, length qs)] /\
    map fst (measured p) = qs /\
    map snd (measured p) = map (fun i => ("ro"%string, i)) (seq 0 (length qs)).
Proof.
  intros Hne. rewrite (ghz_program_run qs p0 Hne).
  exists (ghz_expected qs), (mkStore qs (ghz_expected qs)).
  split; [reflexivity|]. unfold ghz_expected.
  assert (Hm : measured (map (fun i => MEASURE (nth i qs 0) ("ro"%string, i))
                             (seq 0 (length qs)))
               = map (fun i => (nth i qs 0, ("ro"%string, i))) (seq 0 (length qs))).
  { exact (measured_map_MEASURE (fun i => (nth i qs 0, ("ro"%string, i)))
             (seq 0 (length qs))). }
  assert (Hd : declared (map (fun i => MEASURE (nth i qs 0) ("ro"%string, i))
                             (seq 0 (length qs))) = []).
  { exact (declared_map_MEASURE (fun i => (nth i qs 0, ("ro"%string, i)))
             (seq 0 (length qs))). }
  unfold measured, declared in *.
  rewrite !flat_map_app. cbn [flat_map app].
  fold (measured (map (fun i => CNOT (nth i qs 0) (nth (i + 1) qs 0))
                      (seq 0 (length qs - 1)))).
  fold (declared (map (fun i => CNOT (nth i qs 0) (nth (i + 1) qs 0))
                      (seq 0 (length qs - 1)))).
  rewrite measured_map_CNOT, declared_map_CNOT.
  rewrite Hm, Hd. cbn [app].
  split; [reflexivity|]. rewrite !map_map. cbn [fst snd]. split.
  - apply nth_ext with (d := 0) (d' := 0).
    + now rewrite length_map, length_seq.
    + intros i Hi. rewrite length_map, length_seq in Hi.
      rewrite (nth_indep _ 0 (nth 0 qs 0)) by (now rewrite length_map, length_seq).
      rewrite (map_nth (fun i => nth i qs 0)), seq_nth by exact Hi. reflexivity.
  - reflexivity.
Qed.

Lemma ghz_program_readout_witness :
  [15; 16; 17] <> [] /\
  exists p s,
    ghz_program (mkStore [15; 16; 17] []) = inr (p, s) /\
    declared p = [("ro"%string, 3)] /\
    map fst (measured p) = [15; 16; 17] /\
    map snd (measured p)
    = [("ro"%string, 0); ("ro"%string, 1); ("ro"%string, 2)].
Proof.
  split; [discriminate|].
  exact (ghz_program_readout [15; 16; 17] [] ltac:(discriminate)).
Defined.

End GHZ_more.

(** ** The two programs of the Active Qubit Reset notebook *)

Section ActiveReset.
Import Quil.

(** X8.  For a non-empty list of qubits the cell builds two programs that
    differ by one instruction: [program_reset] is [program] with [RESET] in
    front, [program] is the GHZ program, and both are wrapped for 10000
    shots. *)
Theorem active_reset_programs_differ (qubits : list nat) :
  qubits <> [] ->
  exists program program_reset,
    active_reset_programs qubits = inr (program, program_reset) /\
    instructions program = map Basic (GHZ.ghz_expected qubits) /\
    instructions program_reset = RESET :: instructions program /\
    num_shots program = 10000%Z /\
    num_shots program_reset = 10000%Z.
Proof.
  intros Hne. unfold active_reset_programs.
  rewrite (ghz_program_run qubits [] Hne). cbn [GHZ.qubits].
  rewrite (ghz_program_run qubits [] Hne).
  eexists. eexists. split; [reflexivity|].
  cbn. repeat split.
Qed.

Lemma active_reset_programs_differ_witness :
  [15; 16; 17] <> [] /\
  exists program program_reset,
    active_reset_programs [15; 16; 17] = inr (program, program_reset) /\
    instructions program = map Basic (GHZ.ghz_expected [15; 16; 17]) /\
    instructions program_reset = RESET :: instructions program /\
    num_shots program = 10000%Z /\
    num_shots program_reset = 10000%Z.
Proof.
  split; [discriminate|].
  exact (active_reset_programs_differ [15; 16; 17] ltac:(discriminate)).
Defined.

End ActiveReset.

(** ** The Hello QMI notebook *)

Section HelloQMI_proofs.
Import Quil HelloQMI.

Lemma in_keys_lookup {V} (d : list (string * V)) (k : string) :
  in_keys k d = match lookup d k with Some _ => true | None => false end.
Proof.
  unfold in_keys. induction d as [|[k' v] d IH]; simpl; [reflexivity|].
  rewrite (String.eqb_sym k k').
  destruct (String.eqb k' k); [reflexivity|exact IH].
Qed.

Lemma query_device_lookup (lattices : lattices_dict) (device_name : string) :
  query_device lattices device_name = inr (lookup lattices device_name).
Proof.
  unfold query_device, getitem. rewrite in_keys_lookup.
  destruct (lookup lattices device_name); reflexivity.
Qed.

(** X9.  [query_device] never raises: the test on the keys guards the
    subscript, so the function returns the device stored under the name,
    or [None] when there is none (what [lattices.get(device_name)]
    returns). *)
Theorem query_device_get (lattices : lattices_dict) (device_name : string) :
  query_device lattices device_name = inr (lookup lattices device_name).
Proof.
  unfold query_device, getitem. rewrite in_keys_lookup.
  destruct (lookup lattices device_name); reflexivity.
Qed.

(** The two loops over [device['qubits'].values()]. *)
Lemma rx_loop (qs : list nat) :
  forall p : Program,
    fold_left (fun p qubit => iadd p (RX (PI / 2) qubit)) qs p
    = mkProgram (instructions p ++ map (RX (PI / 2)) qs) (num_shots p).
Proof.
  induction qs as [|q qs IH]; intros p; simpl.
  - rewrite app_nil_r. now destruct p.
  - rewrite IH. cbn [iadd instructions num_shots]. now rewrite <- app_assoc.
Qed.

Lemma measure_loop (ro : GHZ.MemoryReference) (l : list (nat * nat)) :
  forall p : Program,
    fold_left (fun p iq => iadd p (MEASURE (snd iq) (GHZ.getref ro (fst iq)))) l p
    = mkProgram (instructions p
                 ++ map (fun iq => MEASURE (snd iq) (GHZ.getref ro (fst iq))) l)
                (num_shots p).
Proof.
  induction l as [|iq l IH]; intros p; simpl.
  - rewrite app_nil_r. now destruct p.
  - rewrite IH. cbn [iadd instructions num_shots]. now rewrite <- app_assoc.
Qed.

Lemma hello_qmi_program_found
      (lattices : lattices_dict) (device_name : string) (shots : Z)
      (dev : device) (qubits : qubits_dict) :
  lookup lattices device_name = Some dev ->
  lookup dev "qubits" = Some qubits ->
  hello_qmi_program lattices device_name shots
  = inr (hello_program (values qubits) shots).
Proof.
  intros Hdev Hq. unfold hello_qmi_program.
  rewrite query_device_lookup, Hdev. unfold getitem. rewrite Hq.
  rewrite rx_loop, measure_loop. unfold hello_program.
  cbn [iadd new_program instructions num_shots wrap_in_numshots_loop app].
  unfold values. rewrite length_map.
  unfold GHZ.getref. cbn [fst]. reflexivity.
Qed.

Lemma hello_qmi_program_not_found
      (lattices : lattices_dict) (device_name : string) (shots : Z) :
  lookup lattices device_name = None ->
  hello_qmi_program lattices device_name shots
  = inr (hello_program [0; 1; 2] shots).
Proof.
  intros Hdev. unfold hello_qmi_program.
  rewrite query_device_lookup, Hdev. reflexivity.
Qed.

(** X10.  On a device that is listed and has an entry ['qubits'],
    [hello_qmi] builds the program of the pragma, the declaration of one
    readout bit per qubit of the device, one [RX(pi/2)] per qubit and then
    one [MEASURE] per qubit, the [idx]-th qubit into [ro[idx]], wrapped for
    the given number of shots. *)
Theorem hello_qmi_program_device
        (lattices : lattices_dict) (device_name : string) (shots : Z)
        (dev : device) (qubits : qubits_dict) :
  lookup lattices device_name = Some dev ->
  lookup dev "qubits" = Some qubits ->
  hello_qmi_program lattices device_name shots
  = inr (hello_program (values qubits) shots).
Proof.
  intros Hdev Hq. unfold hello_qmi_program.
  rewrite query_device_lookup, Hdev. unfold getitem. rewrite Hq.
  rewrite rx_loop, measure_loop. unfold hello_program.
  cbn [iadd new_program instructions num_shots wrap_in_numshots_loop app].
  unfold values. rewrite length_map.
  unfold GHZ.getref. cbn [fst]. reflexivity.
Qed.

Lemma hello_qmi_program_device_witness :
  lookup [("Aspen-1-3Q-A"%string,
           [("qubits"%string, [("14"%string, 14); ("15"%string, 15)])])]
         "Aspen-1-3Q-A" 
  = Some [("qubits"%string, [("14"%string, 14); ("15"%string, 15)])] /\
  lookup [("qubits"%string, [("14"%string, 14); ("15"%string, 15)])] "qubits"
  = Some [("14"%string, 14); ("15"%string, 15)] /\
  hello_qmi_program
    [("Aspen-1-3Q-A"%string,
      [("qubits"%string, [("14"%string, 14); ("15"%string, 15)])])]
    "Aspen-1-3Q-A" 10
  = inr (mkProgram
           [PRAGMA "INITIAL_REWIRING" [greedy];
            Basic (GHZ.DECLARE "ro" "BIT" 2);
            RX (PI / 2) 14; RX (PI / 2) 15;
            MEASURE 14 ("ro"%string, 0); MEASURE 15 ("ro"%string, 1)] 10).
Proof.
  split; [reflexivity|]. split; [reflexivity|].
  exact (hello_qmi_program_device
           [("Aspen-1-3Q-A"%string,
             [("qubits"%string, [("14"%string, 14); ("15"%string, 15)])])]
           "Aspen-1-3Q-A" 10
           [("qubits"%string, [("14"%string, 14); ("15"%string, 15)])]
           [("14"%string, 14); ("15"%string, 15)] eq_refl eq_refl).
Defined.

(** X11.  When the device is not listed, [hello_qmi] builds the program
    that it builds for a listed device whose qubits are 0, 1 and 2, in
    this order: the QVM branch is the device branch on three qubits. *)
Theorem hello_qmi_program_qvm
        (lattices : lattices_dict) (device_name : string) (shots : Z)
        (lattices' : lattices_dict) (device_name' : string)
        (dev : device) (qubits : qubits_dict) :
  lookup lattices device_name = None ->
  lookup lattices' device_name' = Some dev ->
  lookup dev "qubits" = Some qubits ->
  values qubits = [0; 1; 2] ->
  hello_qmi_program lattices device_name shots
  = hello_qmi_program lattices' device_name' shots.
Proof.
  intros Hnone Hdev Hq Hvalues.
  rewrite (hello_qmi_program_not_found lattices device_name shots Hnone).
  rewrite (hello_qmi_program_found lattices' device_name' shots dev qubits
             Hdev Hq).
  now rewrite Hvalues.
Qed.

Lemma hello_qmi_program_qvm_witness :
  lookup (@nil (string * device)) "9q-generic-qvm" = None /\
  values [("0"%string, 0); ("1"%string, 1); ("2"%string, 2)] = [0; 1; 2] /\
  hello_qmi_program [] "9q-generic-qvm" 5
  = hello_qmi_program
      [("3q"%string,
        [("qubits"%string,
          [("0"%string, 0); ("1"%string, 1); ("2"%string, 2)])])]
      "3q" 5.
Proof.
  split; [reflexivity|]. split; [reflexivity|].
  exact (hello_qmi_program_qvm
           [] "9q-generic-qvm" 5
           [("3q"%string,
             [("qubits"%string,
               [("0"%string, 0); ("1"%string, 1); ("2"%string, 2)])])]
           "3q"
           [("qubits"%string,
             [("0"%string, 0); ("1"%string, 1); ("2"%string, 2)])]
           [("0"%string, 0); ("1"%string, 1); ("2"%string, 2)]
           eq_refl eq_refl eq_refl eq_refl).
Defined.

(** X12.  [hello_qmi] raises while it builds the program exactly when the
    device is listed without an entry ['qubits'], and the exception is
    then [KeyError]; a name that is not listed is no error. *)
Theorem hello_qmi_program_raises
        (lattices : lattices_dict) (device_name : string) (shots : Z)
        (e : exception) :
  hello_qmi_program lattices device_name shots = inl e <->
  e = KeyError /\
  exists dev, lookup lattices device_name = Some dev /\
              lookup dev "qubits" = None.
Proof.
  destruct (lookup lattices device_name) as [dev|] eqn:Hdev.
  - destruct (lookup dev "qubits") as [qubits|] eqn:Hq.
    + rewrite (hello_qmi_program_found lattices device_name shots dev qubits Hdev Hq).
      split; [discriminate|]. intros [_ [dev' [E Hnone]]].
      injection E as <-. congruence.
    + unfold hello_qmi_program. rewrite query_device_lookup, Hdev.
      unfold getitem. rewrite Hq. split.
      * intros E. split; [congruence|]. exists dev. now split.
      * intros [-> _]. reflexivity.
  - rewrite (hello_qmi_program_not_found lattices device_name shots Hdev).
    split; [discriminate|]. intros [_ [dev [E _]]]. discriminate.
Qed.

End HelloQMI_proofs.

(** ** The estimator on Pauli observables *)

Section SumsOverLists.

Lemma Csum_list_app (l1 l2 : list C) :
  Csum_list (l1 ++ l2) = Cadd (Csum_list l1) (Csum_list l2).
Proof.
  induction l1 as [|x l1 IH]; cbn [Csum_list app]; [ring|].
  rewrite IH. ring.
Qed.

Lemma Csum_nth_list {A} (f : A -> C) (l : list A) (d0 : A) :
  Csum (length l) (fun k => f (nth k l d0)) = Csum_list (map f l).
Proof.
  induction l as [|x l IH] using rev_ind; [reflexivity|].
  rewrite length_app, Nat.add_comm. cbn [length Nat.add Csum].
  rewrite map_app, Csum_list_app. cbn [map Csum_list].
  rewrite <- IH. rewrite app_nth2, Nat.sub_diag by lia. cbn [nth].
  rewrite (Csum_ext (length l) (fun k => f (nth k (l ++ [x]) d0))
                    (fun k => f (nth k l d0))).
  - ring.
  - intros k Hk. now rewrite app_nth1.
Qed.

Lemma Csum_list_Permutation (l1 l2 : list C) :
  Permutation l1 l2 -> Csum_list l1 = Csum_list l2.
Proof.
  induction 1 as [|x l1 l2 _ IH|x y l|l1 l2 l3 _ IH1 _ IH2];
    cbn [Csum_list].
  - reflexivity.
  - now rewrite IH.
  - ring.
  - now rewrite IH1.
Qed.

Lemma Csum_list_conj (l : list C) :
  Cconj (Csum_list l) = Csum_list (map Cconj l).
Proof.
  induction l as [|x l IH]; cbn [Csum_list map].
  - apply Cconj_0.
  - now rewrite Cconj_add, IH.
Qed.

Lemma Csum_list_ext_in {A} (f g : A -> C) (l : list A) :
  (forall x, In x l -> f x = g x) ->
  Csum_list (map f l) = Csum_list (map g l).
Proof. intros H. f_equal. now apply map_ext_in. Qed.

End SumsOverLists.

Section ClosedForm.

Variable qubits : list nat.
Hypothesis qubits_NoDup : NoDup qubits.
Variable results : list ExperimentResult.
Hypothesis results_nonempty : results <> [].
Hypothesis results_pauli : pauli_results qubits results.
Hypothesis results_distinct : NoDup (observables results).

Let d := 2 ^ length qubits.

Lemma pauli_expansion_well_formed :
  well_formed d d (pauli_expansion results qubits).
Proof. apply mk_matrix_well_formed. Qed.

(** With different Pauli tensor products as observables, the estimate of a
    Moore-Penrose pseudo-inverse is the closed form. *)
Lemma estimate_expansion (P : matrix) :
  moore_penrose (spec_measurement_matrix results qubits) P ->
  madd (unvec (matvec P (spec_expectations results))) (mdiv (eye d) (INR d))
  = pauli_expansion results qubits.
Proof.
  intros Hmp.
  set (M := spec_measurement_matrix results qubits) in *.
  pose proof (results_length_pos results results_nonempty) as Hk.
  pose proof (dim_pos qubits) as Hd. fold d in Hd.
  pose proof (dim_square qubits) as HN. fold d in HN.
  assert (r0 : ExperimentResult).
  { clear - results_nonempty. destruct results; [contradiction | assumption]. }
  assert (HMr : nrows M = length results)
    by apply spec_measurement_matrix_nrows.
  assert (HMc : ncols M = d * d).
  { unfold M. rewrite spec_measurement_matrix_ncols by exact results_nonempty.
    exact HN. }
  assert (Hgram : matmul M (conj (transpose M)) = scaled_eye (nrows M) (INR d)).
  { rewrite HMr. exact (pauli_gram qubits qubits_NoDup results
                          results_pauli results_distinct). }
  assert (Hdnz : INR d <> 0%R) by (apply not_0_INR; lia).
  rewrite (pinv_orthogonal_rows M P ltac:(lia) ltac:(nia) Hmp (INR d) _
             Hdnz Hgram)
    by (unfold spec_expectations; now rewrite length_map, HMr).
  apply matrix_ext with (m := d) (n := d).
  - apply (estimate_well_formed qubits).
    rewrite conj_transpose_nrows, HMc. symmetry. exact HN.
  - apply pauli_expansion_well_formed.
  - intros i j Hi Hj. unfold madd.
    rewrite (unvec_square d) at 1 2
      by (now rewrite matvec_length, conj_transpose_nrows).
    rewrite mk_matrix_nrows, mk_matrix_ncols by lia.
    rewrite ent_mk_matrix by assumption.
    unfold M.
    rewrite (unvec_conj_transpose_ent qubits results results_nonempty r0)
      by assumption.
    unfold pauli_expansion. fold d. rewrite ent_mk_matrix by assumption.
    unfold mdiv, eye. rewrite mk_matrix_nrows, mk_matrix_ncols by exact Hd.
    rewrite !ent_mk_matrix by assumption.
    rewrite <- (Csum_nth_list
                  (fun r => Cmul (RtoC (expectation r))
                                 (ent (lifted_pauli (out_operator (setting r))
                                                    qubits) i j))
                  results r0).
    rewrite (Csum_ext (length results) _
               (fun l => Cdivr
                  (Cmul (RtoC (expectation (nth l results r0)))
                        (ent (lifted_pauli
                                (out_operator (setting (nth l results r0)))
                                qubits) i j))
                  (INR d))).
    + rewrite Csum_divr. c_arith; unfold Rdiv; ring.
    + intros l Hl. unfold spec_expectations. rewrite map_map.
      rewrite (nth_indep _ C0 (Cdivr (RtoC (expectation r0)) (INR d)))
        by (now rewrite length_map).
      rewrite (map_nth (fun r => Cdivr (RtoC (expectation r)) (INR d))
                       results r0 l).
      c_arith; unfold Rdiv; ring.
Qed.

Lemma estimator_expansion (pinv : matrix -> result matrix) (P : matrix) :
  pinv (spec_measurement_matrix results qubits) = inr P ->
  moore_penrose (spec_measurement_matrix results qubits) P ->
  linear_inv_state_estimate pinv results qubits
  = inr (pauli_expansion results qubits).
Proof.
  intros HP Hmp.
  rewrite linear_inv_state_estimate_unfold by exact results_nonempty.
  rewrite HP. f_equal. now apply estimate_expansion.
Qed.

End ClosedForm.

Section Hermitian.

Lemma QUANTUM_GATES_hermitian (o : pauli_op) : hermitian 2 (QUANTUM_GATES o).
Proof.
  intros i j Hi Hj.
  assert (Hcases : (i = 0 \/ i = 1) /\ (j = 0 \/ j = 1)) by lia.
  destruct Hcases as [[-> | ->] [-> | ->]]; destruct o;
    cbn [QUANTUM_GATES ent nth]; c_arith.
Qed.

Lemma kron_hermitian (a b : nat) (A B : matrix) :
  nrows A = a -> ncols A = a -> nrows B = b -> ncols B = b -> 0 < b ->
  hermitian a A -> hermitian b B -> hermitian (a * b) (kron A B).
Proof.
  intros HA1 HA2 HB1 HB2 Hb HA HB i j Hi Hj.
  rewrite !kron_ent by (rewrite ?HA1, ?HA2, ?HB1, ?HB2; assumption).
  rewrite HB1, HB2, Cconj_mul.
  assert (Hia : i / b < a) by (apply Nat.Div0.div_lt_upper_bound; lia).
  assert (Hja : j / b < a) by (apply Nat.Div0.div_lt_upper_bound; lia).
  assert (Hib : i mod b < b) by (apply Nat.mod_upper_bound; lia).
  assert (Hjb : j mod b < b) by (apply Nat.mod_upper_bound; lia).
  now rewrite (HA (i / b) (j / b) Hia Hja), (HB (i mod b) (j mod b) Hib Hjb).
Qed.

Lemma term_hilbert_hermitian (term : PauliTerm) (qubits : list nat) :
  forall (acc : matrix) (s : nat),
    nrows acc = s -> ncols acc = s -> 0 < s -> hermitian s acc ->
    hermitian (2 ^ length qubits * s) (term_hilbert term qubits acc).
Proof.
  induction qubits as [|q qs IH]; intros acc s Hr Hc Hs Hacc.
  - cbn [term_hilbert fold_left length Nat.pow]. now rewrite Nat.mul_1_l.
  - cbn [term_hilbert fold_left length].
    replace (2 ^ S (length qs) * s) with (2 ^ length qs * (2 * s))
      by (rewrite Nat.pow_succ_r'; lia).
    apply (IH (kron (QUANTUM_GATES (term_getitem term q)) acc) (2 * s)).
    + now rewrite kron_nrows, QUANTUM_GATES_nrows, Hr.
    + rewrite kron_ncols by (rewrite QUANTUM_GATES_nrows; lia).
      now rewrite QUANTUM_GATES_ncols, Hc.
    + lia.
    + apply kron_hermitian; try assumption;
        [apply QUANTUM_GATES_nrows | apply QUANTUM_GATES_ncols
         | apply QUANTUM_GATES_hermitian].
Qed.

(** The matrix of a term with a real coefficient is Hermitian. *)
Lemma lifted_pauli_hermitian (term : PauliTerm) (qubits : list nat) :
  Cconj (coefficient term) = coefficient term ->
  hermitian (2 ^ length qubits) (lifted_pauli term qubits).
Proof.
  intros Hreal i j Hi Hj.
  rewrite !lifted_pauli_ent by assumption.
  pose proof (term_hilbert_hermitian term qubits [[C1]] 1 eq_refl eq_refl
                Nat.lt_0_1) as Hh.
  rewrite Nat.mul_1_r in Hh.
  rewrite Hh, Cconj_mul, Hreal; try assumption; [reflexivity|].
  intros i' j' Hi' Hj'. assert (i' = 0) as -> by lia.
  assert (j' = 0) as -> by lia. cbn [ent nth]. c_arith.
Qed.

Lemma pauli_results_hermitian (qubits : list nat)
      (results : list ExperimentResult) (r : ExperimentResult) :
  pauli_results qubits results -> In r results ->
  hermitian (2 ^ length qubits)
            (lifted_pauli (out_operator (setting r)) qubits).
Proof.
  intros Hpauli Hr. unfold pauli_results in Hpauli.
  rewrite Forall_forall in Hpauli.
  destruct (Hpauli r Hr) as (labels & _ & E).
  apply lifted_pauli_hermitian. rewrite E.
  cbn [pauli_term_of coefficient]. c_arith.
Qed.

Lemma pauli_expansion_hermitian (qubits : list nat)
      (results : list ExperimentResult) :
  pauli_results qubits results ->
  hermitian (2 ^ length qubits) (pauli_expansion results qubits).
Proof.
  intros Hpauli i j Hi Hj. unfold pauli_expansion.
  rewrite !ent_mk_matrix by assumption.
  rewrite (Nat.eqb_sym j i).
  assert (Hsum :
            Csum_list
              (map (fun r => Cmul (RtoC (expectation r))
                                  (ent (lifted_pauli (out_operator (setting r))
                                                     qubits) j i)) results)
            = Cconj (Csum_list
                       (map (fun r => Cmul (RtoC (expectation r))
                                           (ent (lifted_pauli
                                                   (out_operator (setting r))
                                                   qubits) i j)) results))).
  { rewrite Csum_list_conj, map_map. apply Csum_list_ext_in. intros r Hr.
    rewrite (pauli_results_hermitian qubits results r Hpauli Hr i j Hi Hj).
    rewrite Cconj_mul. f_equal. c_arith. }
  rewrite Hsum.
  destruct (Nat.eqb i j); c_arith; unfold Rdiv; ring.
Qed.

Lemma hermitian_conj_transpose (d : nat) (A : matrix) :
  0 < d -> well_formed d d A -> hermitian d A -> conj (transpose A) = A.
Proof.
  intros Hd HA Hh.
  pose proof (well_formed_nrows d d A HA) as Hr.
  pose proof (well_formed_ncols d d A HA Hd) as Hc.
  apply matrix_ext with (m := d) (n := d); [|exact HA|].
  - pose proof (conj_transpose_well_formed A ltac:(lia)) as Hwf.
    now rewrite Hr, Hc in Hwf.
  - intros i j Hi Hj.
    rewrite conj_transpose_ent by (rewrite ?Hr, ?Hc; assumption).
    rewrite (Hh i j Hi Hj). apply Cconj_involutive.
Qed.

End Hermitian.

Section EstimatorProperties.

(** X13.  On a non-empty list of results whose observables are different
    Pauli tensor products on the qubits, however many, the estimator
    returns [(I + sum_r e_r L_r) / 2^n], for [e_r] the expectation of the
    result [r] and [L_r] the matrix of its observable: whatever pseudo-inverse
    algorithm [pinv] runs, provided it returns the Moore-Penrose
    pseudo-inverse. *)
Theorem estimate_pauli_expansion
        (pinv : matrix -> result matrix)
        (results : list ExperimentResult) (qubits : list nat) (P : matrix) :
  NoDup qubits -> results <> [] ->
  pauli_results qubits results ->
  NoDup (observables results) ->
  pinv (spec_measurement_matrix results qubits) = inr P ->
  moore_penrose (spec_measurement_matrix results qubits) P ->
  linear_inv_state_estimate pinv results qubits
  = inr (pauli_expansion results qubits).
Proof.
  intros Hq Hne Hpauli Hdistinct HP Hmp.
  exact (estimator_expansion qubits Hq results Hne Hpauli Hdistinct pinv P HP Hmp).
Qed.

Lemma estimate_pauli_expansion_witness :
  NoDup [0] /\ results_1q_short <> [] /\
  linear_inv_state_estimate (pauli_pinv 1) results_1q_short [0]
  = inr (pauli_expansion results_1q_short [0]).
Proof.
  split; [exact NoDup_qubit_0|]. split; [discriminate|].
  exact (estimate_pauli_expansion (pauli_pinv 1) results_1q_short [0] _
           NoDup_qubit_0 ltac:(discriminate)
           results_1q_short_pauli results_1q_short_distinct eq_refl
           (pauli_moore_penrose [0] results_1q_short
              NoDup_qubit_0 ltac:(discriminate)
              results_1q_short_pauli results_1q_short_distinct)).
Defined.

(** X14.  On a non-empty list of results whose observables are different
    Pauli tensor products on the qubits, with [pinv] returning the
    Moore-Penrose pseudo-inverse, the matrix that the estimator returns is
    Hermitian: it is equal to its conjugate transpose. *)
Theorem estimate_hermitian
        (pinv : matrix -> result matrix)
        (results : list ExperimentResult) (qubits : list nat) (P : matrix) :
  NoDup qubits -> results <> [] ->
  pauli_results qubits results ->
  NoDup (observables results) ->
  pinv (spec_measurement_matrix results qubits) = inr P ->
  moore_penrose (spec_measurement_matrix results qubits) P ->
  exists rho : matrix,
    linear_inv_state_estimate pinv results qubits = inr rho /\
    conj (transpose rho) = rho.
Proof.
  intros Hq Hne Hpauli Hdistinct HP Hmp.
  exists (pauli_expansion results qubits). split.
  - exact (estimator_expansion qubits Hq results Hne Hpauli Hdistinct
             pinv P HP Hmp).
  - apply hermitian_conj_transpose with (d := 2 ^ length qubits).
    + apply pow2_pos.
    + apply pauli_expansion_well_formed.
    + now apply pauli_expansion_hermitian.
Qed.

Lemma estimate_hermitian_witness :
  NoDup [0] /\ results_1q_short <> [] /\
  exists rho : matrix,
    linear_inv_state_estimate (pauli_pinv 1) results_1q_short [0] = inr rho /\
    conj (transpose rho) = rho.
Proof.
  split; [exact NoDup_qubit_0|]. split; [discriminate|].
  exact (estimate_hermitian (pauli_pinv 1) results_1q_short [0] _
           NoDup_qubit_0 ltac:(discriminate)
           results_1q_short_pauli results_1q_short_distinct eq_refl
           (pauli_moore_penrose [0] results_1q_short
              NoDup_qubit_0 ltac:(discriminate)
              results_1q_short_pauli results_1q_short_distinct)).
Defined.

Lemma pauli_expansion_Permutation (qubits : list nat)
      (results results' : list ExperimentResult) :
  Permutation results results' ->
  pauli_expansion results qubits = pauli_expansion results' qubits.
Proof.
  intros Hperm.
  apply matrix_ext with (m := 2 ^ length qubits) (n := 2 ^ length qubits);
    try apply pauli_expansion_well_formed.
  intros i j Hi Hj. unfold pauli_expansion.
  rewrite !ent_mk_matrix by assumption. do 2 f_equal.
  apply Csum_list_Permutation. now apply Permutation_map.
Qed.

(** X15.  The order of the results does not matter: on two lists of
    results that are permutations of each other, with different Pauli
    tensor products as observables, the estimator returns the same
    matrix. *)
Theorem estimate_permutation_invariant
        (pinv : matrix -> result matrix)
        (results results' : list ExperimentResult) (qubits : list nat)
        (P P' : matrix) :
  NoDup qubits -> results <> [] ->
  pauli_results qubits results ->
  NoDup (observables results) ->
  Permutation results results' ->
  pinv (spec_measurement_matrix results qubits) = inr P ->
  moore_penrose (spec_measurement_matrix results qubits) P ->
  pinv (spec_measurement_matrix results' qubits) = inr P' ->
  moore_penrose (spec_measurement_matrix results' qubits) P' ->
  linear_inv_state_estimate pinv results' qubits
  = linear_inv_state_estimate pinv results qubits.
Proof.
  intros Hq Hne Hpauli Hdistinct Hperm HP Hmp HP' Hmp'.
  assert (Hne' : results' <> []).
  { intros ->. apply Permutation_sym, Permutation_nil in Hperm. contradiction. }
  assert (Hpauli' : pauli_results qubits results').
  { unfold pauli_results in *. now apply (Permutation_Forall Hperm). }
  assert (Hdistinct' : NoDup (observables results')).
  { unfold observables in *.
    apply (Permutation_NoDup
             (Permutation_map (fun r => out_operator (setting r)) Hperm)).
    exact Hdistinct. }
  rewrite (estimator_expansion qubits Hq results Hne Hpauli Hdistinct
             pinv P HP Hmp).
  rewrite (estimator_expansion qubits Hq results' Hne' Hpauli' Hdistinct'
             pinv P' HP' Hmp').
  f_equal. symmetry. now apply pauli_expansion_Permutation.
Qed.

End EstimatorProperties.

Section Completeness.

Lemma term_hilbert_labels (term : PauliTerm) :
  forall (qubits : list nat) (labels : list pauli_op) (acc : matrix),
    length labels = length qubits ->
    (forall q o, In (q, o) (combine qubits labels) -> term_getitem term q = o) ->
    term_hilbert term qubits acc = pauli_kron labels acc.
Proof.
  induction qubits as [|q qs IH]; intros labels acc Hlen Hget;
    destruct labels as [|o ls]; try discriminate; [reflexivity|].
  cbn [term_hilbert pauli_kron fold_left].
  rewrite (Hget q o (or_introl eq_refl)).
  apply (IH ls).
  - now injection Hlen.
  - intros q' o' Hin. apply Hget. now right.
Qed.

Lemma pauli_kron_shape (labels : list pauli_op) :
  forall (acc : matrix) (s : nat),
    nrows acc = s -> ncols acc = s -> 0 < s ->
    nrows (pauli_kron labels acc) = 2 ^ length labels * s /\
    ncols (pauli_kron labels acc) = 2 ^ length labels * s.
Proof.
  induction labels as [|o ls IH]; intros acc s Hr Hc Hs.
  - cbn [pauli_kron fold_left length]. rewrite Hr, Hc. cbn. lia.
  - cbn [pauli_kron fold_left length].
    destruct (IH (kron (QUANTUM_GATES o) acc) (2 * s)) as [IH1 IH2].
    + now rewrite kron_nrows, QUANTUM_GATES_nrows, Hr.
    + rewrite kron_ncols by (rewrite QUANTUM_GATES_nrows; lia).
      now rewrite QUANTUM_GATES_ncols, Hc.
    + lia.
    + unfold pauli_kron in *. rewrite IH1, IH2.
      rewrite Nat.pow_succ_r'. lia.
Qed.

(** Index arithmetic of a block of side [a] in a block of side [2 * a]. *)
Lemma mod_2a_mod (x a : nat) : 0 < a -> (x mod (2 * a)) mod a = x mod a.
Proof.
  intros Ha. rewrite (Nat.mul_comm 2 a), Nat.Div0.mod_mul_r.
  rewrite (Nat.mul_comm a), Nat.Div0.mod_add. apply Nat.Div0.mod_mod.
Qed.

Lemma mod_2a_div (x a : nat) : 0 < a -> (x mod (2 * a)) / a = (x / a) mod 2.
Proof.
  intros Ha. rewrite (Nat.mul_comm 2 a), Nat.Div0.mod_mul_r.
  rewrite (Nat.mul_comm a), Nat.div_add by lia.
  rewrite Nat.div_small; [reflexivity|]. apply Nat.mod_upper_bound. lia.
Qed.

Lemma div_2a (x a : nat) : x / (2 * a) = (x / a) / 2.
Proof. rewrite (Nat.mul_comm 2 a). symmetry. apply Nat.Div0.div_div. Qed.

Lemma eqb_div2_mod2 (x y : nat) :
  Nat.eqb x y = Nat.eqb (x / 2) (y / 2) && Nat.eqb (x mod 2) (y mod 2).
Proof.
  pose proof (Nat.div_mod_eq x 2). pose proof (Nat.div_mod_eq y 2).
  destruct (Nat.eqb_spec x y) as [->|Hne].
  - now rewrite !Nat.eqb_refl.
  - destruct (Nat.eqb_spec (x / 2) (y / 2)) as [E1|]; [|reflexivity].
    destruct (Nat.eqb_spec (x mod 2) (y mod 2)) as [E2|]; [|reflexivity].
    exfalso. apply Hne. lia.
Qed.

Lemma pow2_S_INR (n : nat) :
  RtoC (INR (2 ^ S n)) = Cmul (RtoC 2) (RtoC (INR (2 ^ n))).
Proof. rewrite Nat.pow_succ_r', mult_INR. c_arith. cbn [INR]. ring. Qed.

(** The four Pauli matrices resolve the swap of the two indices. *)
Lemma QUANTUM_GATES_complete (p q r s : nat) :
  p < 2 -> q < 2 -> r < 2 -> s < 2 ->
  Cadd (Cmul (ent (QUANTUM_GATES op_I) p q) (ent (QUANTUM_GATES op_I) r s))
   (Cadd (Cmul (ent (QUANTUM_GATES op_X) p q) (ent (QUANTUM_GATES op_X) r s))
    (Cadd (Cmul (ent (QUANTUM_GATES op_Y) p q) (ent (QUANTUM_GATES op_Y) r s))
     (Cadd (Cmul (ent (QUANTUM_GATES op_Z) p q) (ent (QUANTUM_GATES op_Z) r s))
           C0)))
  = if Nat.eqb p s && Nat.eqb q r then RtoC 2 else C0.
Proof.
  intros Hp Hq Hr Hs.
  assert (Hcases : (p = 0 \/ p = 1) /\ (q = 0 \/ q = 1) /\
                   (r = 0 \/ r = 1) /\ (s = 0 \/ s = 1)) by lia.
  destruct Hcases as [[-> | ->] [[-> | ->] [[-> | ->] [-> | ->]]]];
    cbn [QUANTUM_GATES ent nth Nat.eqb andb]; c_arith.
Qed.

Lemma sum_product_IXYZ_S (n : nat) (F : list pauli_op -> C) :
  Csum_list (map F (product_IXYZ (S n)))
  = Cadd (Csum_list (map (fun ls => F (op_I :: ls)) (product_IXYZ n)))
     (Cadd (Csum_list (map (fun ls => F (op_X :: ls)) (product_IXYZ n)))
      (Cadd (Csum_list (map (fun ls => F (op_Y :: ls)) (product_IXYZ n)))
       (Cadd (Csum_list (map (fun ls => F (op_Z :: ls)) (product_IXYZ n)))
             C0))).
Proof.
  cbn [product_IXYZ flat_map]. rewrite app_nil_r.
  rewrite !map_app, !Csum_list_app, !map_map. ring.
Qed.

(** Completeness of the Pauli tensor products: summed over the [4^n]
    label vectors, the products of two entries resolve the swap of the
    indices. *)
Lemma pauli_kron_complete (n : nat) :
  forall (A A' : matrix) (a : nat),
    nrows A = a -> ncols A = a -> nrows A' = a -> ncols A' = a -> 0 < a ->
    forall i j k l,
      i < 2 ^ n * a -> j < 2 ^ n * a -> k < 2 ^ n * a -> l < 2 ^ n * a ->
      Csum_list (map (fun ls => Cmul (ent (pauli_kron ls A) i j)
                                     (ent (pauli_kron ls A') k l))
                     (product_IXYZ n))
      = if Nat.eqb (i / a) (l / a) && Nat.eqb (j / a) (k / a)
        then Cmul (RtoC (INR (2 ^ n)))
                  (Cmul (ent A (i mod a) (j mod a)) (ent A' (k mod a) (l mod a)))
        else C0.
Proof.
  induction n as [|n IH]; intros A A' a H1 H2 H3 H4 Ha i j k l Hi Hj Hk Hl.
  - cbn [Nat.pow] in Hi, Hj, Hk, Hl. rewrite Nat.mul_1_l in Hi, Hj, Hk, Hl.
    cbn [product_IXYZ map Csum_list pauli_kron fold_left Nat.pow INR].
    rewrite !Nat.div_small, !Nat.mod_small by assumption.
    cbn [Nat.eqb andb]. c_arith.
  - assert (Hb : forall o, nrows (kron (QUANTUM_GATES o) A) = 2 * a
                           /\ ncols (kron (QUANTUM_GATES o) A) = 2 * a
                           /\ nrows (kron (QUANTUM_GATES o) A') = 2 * a
                           /\ ncols (kron (QUANTUM_GATES o) A') = 2 * a).
    { intros o. rewrite !kron_nrows, !kron_ncols
        by (rewrite QUANTUM_GATES_nrows; lia).
      rewrite QUANTUM_GATES_nrows, QUANTUM_GATES_ncols. lia. }
    assert (Hstep : forall o,
               Csum_list
                 (map (fun ls => Cmul (ent (pauli_kron (o :: ls) A) i j)
                                      (ent (pauli_kron (o :: ls) A') k l))
                      (product_IXYZ n))
               = if Nat.eqb (i / a / 2) (l / a / 2)
                    && Nat.eqb (j / a / 2) (k / a / 2)
                 then Cmul (RtoC (INR (2 ^ n)))
                        (Cmul
                           (Cmul (ent (QUANTUM_GATES o)
                                      ((i / a) mod 2) ((j / a) mod 2))
                                 (ent (QUANTUM_GATES o)
                                      ((k / a) mod 2) ((l / a) mod 2)))
                           (Cmul (ent A (i mod a) (j mod a))
                                 (ent A' (k mod a) (l mod a))))
                 else C0).
    { intros o. destruct (Hb o) as (B1 & B2 & B3 & B4).
      assert (Hbound : 2 ^ n * (2 * a) = 2 ^ S n * a)
        by (rewrite Nat.pow_succ_r'; lia).
      cbn [pauli_kron fold_left].
      pose proof (IH (kron (QUANTUM_GATES o) A) (kron (QUANTUM_GATES o) A')
                     (2 * a) B1 B2 B3 B4 ltac:(lia) i j k l
                     ltac:(lia) ltac:(lia) ltac:(lia) ltac:(lia)) as E.
      unfold pauli_kron in E. rewrite E. clear E.
      rewrite !div_2a.
      destruct (Nat.eqb (i / a / 2) (l / a / 2)
                && Nat.eqb (j / a / 2) (k / a / 2)); [|reflexivity].
      assert (Hm : forall x, x mod (2 * a) < 2 * a)
        by (intros x; apply Nat.mod_upper_bound; lia).
      rewrite !kron_ent
        by (rewrite ?QUANTUM_GATES_nrows, ?QUANTUM_GATES_ncols, ?H1, ?H2,
              ?H3, ?H4; apply Hm).
      rewrite H1, H2, H3, H4.
      rewrite !mod_2a_mod, !mod_2a_div by exact Ha. ring. }
    rewrite sum_product_IXYZ_S.
    rewrite !Hstep.
    rewrite (eqb_div2_mod2 (i / a) (l / a)), (eqb_div2_mod2 (j / a) (k / a)).
    assert (Hm2 : forall x, x mod 2 < 2)
      by (intros x; apply Nat.mod_upper_bound; lia).
    pose proof (QUANTUM_GATES_complete
                  ((i / a) mod 2) ((j / a) mod 2) ((k / a) mod 2) ((l / a) mod 2)
                  (Hm2 _) (Hm2 _) (Hm2 _) (Hm2 _)) as Hc.
    rewrite pow2_S_INR.
    destruct (Nat.eqb (i / a / 2) (l / a / 2));
      destruct (Nat.eqb (j / a / 2) (k / a / 2)); cbn [andb];
        try (destruct (Nat.eqb ((i / a) mod 2) ((l / a) mod 2));
             destruct (Nat.eqb ((j / a) mod 2) ((k / a) mod 2));
             cbn [andb]; ring).
    set (GI := Cmul (ent (QUANTUM_GATES op_I) _ _) _) in *.
    set (GX := Cmul (ent (QUANTUM_GATES op_X) _ _) _) in *.
    set (GY := Cmul (ent (QUANTUM_GATES op_Y) _ _) _) in *.
    set (GZ := Cmul (ent (QUANTUM_GATES op_Z) _ _) _) in *.
    set (AA := Cmul (ent A _ _) (ent A' _ _)) in *.
    transitivity
      (Cmul (Cmul (RtoC (INR (2 ^ n))) AA)
            (Cadd GI (Cadd GX (Cadd GY (Cadd GZ C0))))); [ring|].
    rewrite Hc.
    destruct (Nat.eqb ((i / a) mod 2) ((l / a) mod 2)
              && Nat.eqb ((j / a) mod 2) ((k / a) mod 2)); ring.
Qed.

(** The tensor product of identities is the identity. *)
Lemma pauli_kron_identity (n : nat) :
  forall (A : matrix) (a : nat),
    nrows A = a -> ncols A = a -> 0 < a ->
    forall i j,
      i < 2 ^ n * a -> j < 2 ^ n * a ->
      ent (pauli_kron (repeat op_I n) A) i j
      = if Nat.eqb (i / a) (j / a) then ent A (i mod a) (j mod a) else C0.
Proof.
  induction n as [|n IH]; intros A a H1 H2 Ha i j Hi Hj.
  - cbn [Nat.pow] in Hi, Hj. rewrite Nat.mul_1_l in Hi, Hj.
    cbn [repeat pauli_kron fold_left].
    now rewrite !Nat.div_small, !Nat.mod_small by assumption.
  - cbn [repeat pauli_kron fold_left].
    assert (Hbound : 2 ^ n * (2 * a) = 2 ^ S n * a)
      by (rewrite Nat.pow_succ_r'; lia).
    pose proof (IH (kron (QUANTUM_GATES op_I) A) (2 * a)) as E.
    unfold pauli_kron in E. rewrite E; clear E.
    + rewrite !div_2a, (eqb_div2_mod2 (i / a) (j / a)).
      destruct (Nat.eqb (i / a / 2) (j / a / 2)); [|reflexivity].
      assert (Hm : forall x, x mod (2 * a) < 2 * a)
        by (intros x; apply Nat.mod_upper_bound; lia).
      rewrite kron_ent
        by (rewrite ?QUANTUM_GATES_nrows, ?QUANTUM_GATES_ncols, ?H1, ?H2;
            apply Hm).
      rewrite H1, H2, !mod_2a_mod, !mod_2a_div by exact Ha.
      assert (Hm2 : forall x, x mod 2 < 2)
        by (intros x; apply Nat.mod_upper_bound; lia).
      pose proof (Hm2 (i / a)) as Hi2. pose proof (Hm2 (j / a)) as Hj2.
      assert (Hcases : ((i / a) mod 2 = 0 \/ (i / a) mod 2 = 1) /\
                       ((j / a) mod 2 = 0 \/ (j / a) mod 2 = 1)) by lia.
      destruct Hcases as [[-> | ->] [-> | ->]];
        cbn [QUANTUM_GATES ent nth Nat.eqb andb]; ring.
    + now rewrite kron_nrows, QUANTUM_GATES_nrows, H1.
    + rewrite kron_ncols by (rewrite QUANTUM_GATES_nrows; lia).
      now rewrite QUANTUM_GATES_ncols, H2.
    + lia.
    + lia.
    + lia.
Qed.

End Completeness.

Section RoundTrip.

Lemma Csum_list_mul_l (c : C) (l : list C) :
  Csum_list (map (Cmul c) l) = Cmul c (Csum_list l).
Proof.
  induction l as [|x l IH]; cbn [map Csum_list]; [ring|].
  rewrite IH. ring.
Qed.

Lemma Csum_list_Csum {A} (n : nat) (f : A -> nat -> C) (l : list A) :
  Csum_list (map (fun x => Csum n (fun k => f x k)) l)
  = Csum n (fun k => Csum_list (map (fun x => f x k) l)).
Proof.
  induction l as [|x l IH]; cbn [map Csum_list].
  - symmetry. now apply Csum_zero.
  - rewrite IH. now rewrite <- Csum_add.
Qed.

Variable qubits : list nat.
Hypothesis qubits_NoDup : NoDup qubits.

Let n := length qubits.
Let d := 2 ^ length qubits.

(** The entries of the matrix of the term of a label vector. *)
Lemma lifted_labels_ent (labels : list pauli_op) (i j : nat) :
  length labels = length qubits -> i < d -> j < d ->
  ent (lifted_pauli (pauli_term_of qubits labels) qubits) i j
  = ent (pauli_kron labels [[C1]]) i j.
Proof.
  intros Hlen Hi Hj. rewrite lifted_pauli_ent by assumption.
  rewrite (term_hilbert_labels (pauli_term_of qubits labels) qubits labels
             [[C1]] Hlen).
  - cbn [pauli_term_of coefficient]. ring.
  - intros q o Hin.
    now apply (term_getitem_pauli_term_of qubits qubits_NoDup labels).
Qed.

Lemma lifted_identity_ent (i j : nat) :
  i < d -> j < d ->
  ent (lifted_pauli (pauli_term_of qubits (repeat op_I (length qubits))) qubits)
      i j
  = if Nat.eqb i j then C1 else C0.
Proof.
  intros Hi Hj.
  rewrite lifted_labels_ent by (try assumption; apply repeat_length).
  rewrite (pauli_kron_identity (length qubits) [[C1]] 1 eq_refl eq_refl
             Nat.lt_0_1)
    by (rewrite Nat.mul_1_r; assumption).
  rewrite !Nat.div_1_r. now destruct (Nat.eqb i j).
Qed.

(** [trace (A @ B)] for square arrays of side [d]. *)
Lemma trace_matmul (A B : matrix) :
  nrows A = d -> ncols A = d -> ncols B = d ->
  trace (matmul A B)
  = Csum d (fun k => Csum d (fun l => Cmul (ent A k l) (ent B l k))).
Proof.
  intros HA1 HA2 HB. unfold trace. rewrite matmul_nrows, HA1.
  apply Csum_ext. intros k Hk.
  rewrite matmul_ent by (rewrite ?HA1, ?HB; exact Hk).
  now rewrite HA2.
Qed.

Variable rho : matrix.
Hypothesis rho_shape : well_formed d d rho.

Lemma rho_nrows : nrows rho = d.
Proof. exact (well_formed_nrows d d rho rho_shape). Qed.

Lemma rho_ncols : ncols rho = d.
Proof. exact (well_formed_ncols d d rho rho_shape (pow2_pos (length qubits))). Qed.

(** The Pauli expansion of a matrix: summed over all the label vectors,
    the expectations [trace (L @ rho)] times the matrices [L] give
    [2^n rho]. *)
Lemma pauli_resolution (i j : nat) :
  i < d -> j < d ->
  Csum_list
    (map (fun ls =>
            Cmul (trace (matmul (lifted_pauli (pauli_term_of qubits ls) qubits)
                                rho))
                 (ent (lifted_pauli (pauli_term_of qubits ls) qubits) i j))
         (product_IXYZ (length qubits)))
  = Cmul (RtoC (INR d)) (ent rho i j).
Proof.
  intros Hi Hj.
  rewrite (Csum_list_ext_in _
             (fun ls => Csum d (fun k => Csum d (fun l =>
                Cmul (ent rho l k)
                     (Cmul (ent (pauli_kron ls [[C1]]) k l)
                           (ent (pauli_kron ls [[C1]]) i j)))))).
  2:{ intros ls Hls. apply product_IXYZ_In in Hls.
      rewrite trace_matmul
        by (rewrite ?lifted_pauli_nrows, ?lifted_pauli_ncols, ?rho_ncols;
            reflexivity).
      rewrite lifted_labels_ent by assumption.
      rewrite <- Csum_mul_r. apply Csum_ext. intros k Hk.
      rewrite <- Csum_mul_r. apply Csum_ext. intros l Hl.
      rewrite lifted_labels_ent by assumption. ring. }
  rewrite (Csum_list_Csum d
             (fun ls k => Csum d (fun l =>
                Cmul (ent rho l k)
                     (Cmul (ent (pauli_kron ls [[C1]]) k l)
                           (ent (pauli_kron ls [[C1]]) i j))))).
  rewrite (Csum_ext d _
             (fun k => if Nat.eqb j k
                       then Cmul (RtoC (INR d)) (ent rho i k) else C0)).
  { now rewrite (Csum_delta d j (fun k => Cmul (RtoC (INR d)) (ent rho i k))). }
  intros k Hk.
  rewrite (Csum_list_Csum d
             (fun ls l =>
                Cmul (ent rho l k)
                     (Cmul (ent (pauli_kron ls [[C1]]) k l)
                           (ent (pauli_kron ls [[C1]]) i j)))).
  rewrite (Csum_ext d _
             (fun l => if Nat.eqb i l
                       then (if Nat.eqb j k
                             then Cmul (RtoC (INR d)) (ent rho l k) else C0)
                       else C0)).
  { now rewrite (Csum_delta d i
                   (fun l => if Nat.eqb j k
                             then Cmul (RtoC (INR d)) (ent rho l k) else C0)). }
  intros l Hl.
  rewrite <- (map_map (fun ls => Cmul (ent (pauli_kron ls [[C1]]) k l)
                                      (ent (pauli_kron ls [[C1]]) i j))
                      (Cmul (ent rho l k))).
  rewrite Csum_list_mul_l.
  rewrite (pauli_kron_complete (length qubits) [[C1]] [[C1]] 1
             eq_refl eq_refl eq_refl eq_refl Nat.lt_0_1 k l i j)
    by (rewrite Nat.mul_1_r; assumption).
  rewrite !Nat.div_1_r, !Nat.mod_1_r. fold d.
  rewrite (Nat.eqb_sym k j), (Nat.eqb_sym l i).
  destruct (Nat.eqb j k), (Nat.eqb i l); cbn [andb ent nth]; ring.
Qed.

Hypothesis rho_trace : trace rho = C1.

Lemma trace_identity_rho :
  trace (matmul (lifted_pauli
                   (pauli_term_of qubits (repeat op_I (length qubits))) qubits)
                rho) = C1.
Proof.
  rewrite trace_matmul
    by (rewrite ?lifted_pauli_nrows, ?lifted_pauli_ncols, ?rho_ncols;
        reflexivity).
  rewrite <- rho_trace. unfold trace. rewrite rho_nrows.
  apply Csum_ext. intros k Hk.
  rewrite (Csum_ext d _ (fun l => if Nat.eqb k l then ent rho l k else C0)).
  - now rewrite (Csum_delta d k (fun l => ent rho l k)).
  - intros l Hl. rewrite lifted_identity_ent by assumption.
    destruct (Nat.eqb k l); ring.
Qed.

Variable results : list ExperimentResult.
Hypothesis results_observables :
  observables results = all_traceless_pauli_terms qubits.
Hypothesis results_expectations :
  Forall (fun r =>
            RtoC (expectation r)
            = trace (matmul (lifted_pauli (out_operator (setting r)) qubits) rho))
         results.

(** On the exact expectations of [rho] for all the traceless Pauli tensor
    products, the closed form is [rho]. *)
Lemma pauli_expansion_round_trip : pauli_expansion results qubits = rho.
Proof.
  pose proof (pow2_pos (length qubits)) as Hd. fold d in Hd.
  apply matrix_ext with (m := d) (n := d);
    [apply pauli_expansion_well_formed | exact rho_shape |].
  intros i j Hi Hj. unfold pauli_expansion. fold d.
  rewrite ent_mk_matrix by assumption.
  set (T := fun t : PauliTerm =>
              Cmul (trace (matmul (lifted_pauli t qubits) rho))
                   (ent (lifted_pauli t qubits) i j)).
  assert (Hsum : Csum_list
                   (map (fun r => Cmul (RtoC (expectation r))
                                       (ent (lifted_pauli
                                               (out_operator (setting r))
                                               qubits) i j)) results)
                 = Csum_list (map T (all_traceless_pauli_terms qubits))).
  { rewrite <- results_observables. unfold observables. rewrite map_map.
    apply Csum_list_ext_in. intros r Hr. unfold T.
    rewrite Forall_forall in results_expectations.
    now rewrite (results_expectations r Hr). }
  rewrite Hsum.
  pose proof (pauli_resolution i j Hi Hj) as Hres.
  unfold all_traceless_pauli_terms.
  destruct (product_IXYZ_head (length qubits)) as (rest & E).
  rewrite E in *. cbn [map tl Csum_list] in *.
  rewrite trace_identity_rho, lifted_identity_ent in Hres by assumption.
  rewrite <- (map_map (pauli_term_of qubits) T) in Hres.
  assert (Hfull : Cadd (if Nat.eqb i j then C1 else C0)
                       (Csum_list (map T (map (pauli_term_of qubits) rest)))
                  = Cmul (RtoC (INR d)) (ent rho i j)).
  { rewrite <- Hres. ring. }
  rewrite Hfull.
  assert (Hdnz : INR d <> 0%R) by (apply not_0_INR; lia).
  destruct (ent rho i j) as [x y]. c_arith; field; exact Hdnz.
Qed.

End RoundTrip.

Section Consistency.

Lemma Csum_list_zero {A} (f : A -> C) (l : list A) :
  (forall x, In x l -> f x = C0) -> Csum_list (map f l) = C0.
Proof.
  induction l as [|x l IH]; intros Hf; cbn [map Csum_list]; [reflexivity|].
  rewrite (Hf x (or_introl eq_refl)), IH; [ring|].
  intros y Hy. apply Hf. now right.
Qed.

Lemma Csum_list_scale {A} (c : C) (f g : A -> C) (l : list A) :
  (forall x, In x l -> g x = Cmul c (f x)) ->
  Csum_list (map g l) = Cmul c (Csum_list (map f l)).
Proof.
  induction l as [|x l IH]; intros Hg; cbn [map Csum_list]; [ring|].
  rewrite (Hg x (or_introl eq_refl)), IH; [ring|].
  intros y Hy. apply Hg. now right.
Qed.

(** A sum over results of which one only counts. *)
Lemma Csum_list_single (F : ExperimentResult -> C) (r : ExperimentResult) :
  forall results : list ExperimentResult,
    NoDup (observables results) -> In r results ->
    (forall r', In r' results ->
                out_operator (setting r') <> out_operator (setting r) ->
                F r' = C0) ->
    Csum_list (map F results) = F r.
Proof.
  induction results as [|x xs IH]; intros Hnd Hin HF; [destruct Hin|].
  unfold observables in Hnd. cbn [map] in Hnd.
  inversion Hnd as [|? ? Hx Hxs]; subst.
  cbn [map Csum_list]. destruct Hin as [->|Hin].
  - rewrite Csum_list_zero; [ring|]. intros r' Hr'.
    apply HF; [now right|]. intros E. apply Hx. rewrite <- E.
    now apply (in_map (fun r => out_operator (setting r))).
  - rewrite (HF x (or_introl eq_refl)).
    + rewrite IH; [ring | exact Hxs | exact Hin |].
      intros r' Hr'. apply HF. now right.
    + intros E. apply Hx. rewrite E.
      now apply (in_map (fun r => out_operator (setting r))).
Qed.

Variable qubits : list nat.
Hypothesis qubits_NoDup : NoDup qubits.
Variable results : list ExperimentResult.
Hypothesis results_traceless :
  Forall (fun r => In (out_operator (setting r))
                      (all_traceless_pauli_terms qubits)) results.
Hypothesis results_distinct : NoDup (observables results).

Let d := 2 ^ length qubits.

Lemma traceless_pauli_results : pauli_results qubits results.
Proof.
  unfold pauli_results. eapply Forall_impl; [|exact results_traceless].
  intros r Hr. apply all_traceless_pauli_terms_In in Hr.
  destruct Hr as (labels & Hl & _ & Et). now exists labels.
Qed.

(** The inner products of the matrices of the observables. *)
Lemma hs_results_same (r : ExperimentResult) :
  In r results ->
  hs d (lifted_pauli (out_operator (setting r)) qubits)
       (lifted_pauli (out_operator (setting r)) qubits)
  = RtoC (INR d).
Proof.
  intros Hr. pose proof traceless_pauli_results as Hp.
  unfold pauli_results in Hp. rewrite Forall_forall in Hp.
  destruct (Hp r Hr) as (labels & _ & E).
  unfold d. rewrite hs_lifted_pauli, overlap_same, E.
  cbn [pauli_term_of coefficient]. c_arith.
Qed.

Lemma hs_results_different (r r' : ExperimentResult) :
  In r results -> In r' results ->
  out_operator (setting r') <> out_operator (setting r) ->
  hs d (lifted_pauli (out_operator (setting r)) qubits)
       (lifted_pauli (out_operator (setting r')) qubits)
  = C0.
Proof.
  intros Hr Hr' Hne. pose proof traceless_pauli_results as Hp.
  unfold pauli_results in Hp. rewrite Forall_forall in Hp.
  destruct (Hp r Hr) as (l1 & Hl1 & E1).
  destruct (Hp r' Hr') as (l2 & Hl2 & E2).
  unfold d. rewrite hs_lifted_pauli, E1, E2.
  rewrite (overlap_pauli_terms qubits qubits_NoDup l1 l2 Hl1 Hl2); [ring|].
  intros ->. apply Hne. now rewrite E1, E2.
Qed.

(** The closed form has the expectations of the results. *)
Lemma pauli_expansion_expectation (r : ExperimentResult) :
  In r results ->
  trace (matmul (lifted_pauli (out_operator (setting r)) qubits)
                (pauli_expansion results qubits))
  = RtoC (expectation r).
Proof.
  intros Hr.
  pose proof (pow2_pos (length qubits)) as Hd. fold d in Hd.
  assert (Hdnz : INR d <> 0%R) by (apply not_0_INR; lia).
  set (L := lifted_pauli (out_operator (setting r)) qubits).
  assert (HL : hermitian d L).
  { apply (pauli_results_hermitian qubits results r);
      [apply traceless_pauli_results | exact Hr]. }
  assert (Htr : Csum d (fun k => ent L k k) = C0).
  { rewrite Forall_forall in results_traceless.
    pose proof (all_traceless_pauli_terms_traceless qubits _
                  (results_traceless r Hr)) as Ht.
    unfold trace in Ht. now rewrite lifted_pauli_nrows in Ht. }
  rewrite (trace_matmul qubits)
    by (unfold L; rewrite ?lifted_pauli_nrows, ?lifted_pauli_ncols;
        try reflexivity;
        exact (well_formed_ncols _ _ _
                 (pauli_expansion_well_formed qubits results) Hd)).
  fold d.
  set (G := fun (k l : nat) (r' : ExperimentResult) =>
              Cmul (Cdivr (RtoC (expectation r')) (INR d))
                   (Cmul (Cconj (ent L l k))
                         (ent (lifted_pauli (out_operator (setting r')) qubits)
                              l k))).
  rewrite (Csum_ext d _
             (fun k => Cadd (Cdivr (ent L k k) (INR d))
                            (Csum d (fun l => Csum_list (map (G k l) results))))).
  2:{ intros k Hk.
      rewrite (Csum_ext d _
                 (fun l => Cadd (if Nat.eqb k l
                                 then Cdivr (ent L k l) (INR d) else C0)
                                (Csum_list (map (G k l) results)))).
      - rewrite Csum_add. f_equal.
        exact (Csum_delta d k (fun l => Cdivr (ent L k l) (INR d)) Hk).
      - intros l Hl. unfold pauli_expansion. fold d.
        rewrite ent_mk_matrix by assumption.
        rewrite (Csum_list_scale
                   (Cdivr (ent L k l) (INR d))
                   (fun r' => Cmul (RtoC (expectation r'))
                                   (ent (lifted_pauli
                                           (out_operator (setting r')) qubits)
                                        l k))
                   (G k l) results).
        + rewrite (Nat.eqb_sym l k).
          destruct (Nat.eqb k l); c_arith; unfold Rdiv; ring.
        + intros r' _. unfold G. rewrite <- (HL l k Hl Hk).
          c_arith; unfold Rdiv; ring. }
  rewrite Csum_add, Csum_divr, Htr.
  rewrite (Csum_ext d _
             (fun k => Csum_list
                         (map (fun r' => Csum d (fun l => G k l r')) results))).
  2:{ intros k _. symmetry.
      exact (Csum_list_Csum d (fun r' l => G k l r') results). }
  rewrite <- (Csum_list_Csum d
                (fun r' k => Csum d (fun l => G k l r')) results).
  rewrite (Csum_list_ext_in _
             (fun r' => Cmul (Cdivr (RtoC (expectation r')) (INR d))
                             (hs d L (lifted_pauli (out_operator (setting r'))
                                                   qubits)))).
  2:{ intros r' _. unfold hs, G. rewrite <- Csum_mul_l.
      apply Csum_ext. intros k _. now rewrite Csum_mul_l. }
  rewrite (Csum_list_single
             (fun r' => Cmul (Cdivr (RtoC (expectation r')) (INR d))
                             (hs d L (lifted_pauli (out_operator (setting r'))
                                                   qubits)))
             r results results_distinct Hr).
  - unfold L. rewrite (hs_results_same r Hr).
    c_arith; field; exact Hdnz.
  - intros r' Hr' Hne. unfold L.
    rewrite (hs_results_different r r' Hr Hr' Hne). ring.
Qed.

End Consistency.

Section EstimatorProperties2.

Lemma results_1q_rev_pauli (ex ey ez : R) :
  pauli_results [0] (rev (results_1q ex ey ez)).
Proof.
  repeat constructor; eexists; (split; [|reflexivity]); reflexivity.
Qed.

Lemma results_1q_pauli (ex ey ez : R) : pauli_results [0] (results_1q ex ey ez).
Proof.
  repeat constructor; eexists; (split; [|reflexivity]); reflexivity.
Qed.

Lemma results_1q_rev_distinct (ex ey ez : R) :
  NoDup (observables (rev (results_1q ex ey ez))).
Proof.
  repeat constructor; cbn; intros Hin;
    repeat (destruct Hin as [Hin|Hin]; [discriminate|]); exact Hin.
Qed.

Lemma estimate_permutation_invariant_witness :
  NoDup [0] /\ results_1q 0 0 1 <> [] /\
  Permutation (results_1q 0 0 1) (rev (results_1q 0 0 1)) /\
  linear_inv_state_estimate (pauli_pinv 1) (rev (results_1q 0 0 1)) [0]
  = linear_inv_state_estimate (pauli_pinv 1) (results_1q 0 0 1) [0].
Proof.
  split; [exact NoDup_qubit_0|]. split; [discriminate|].
  split; [apply Permutation_rev|].
  exact (estimate_permutation_invariant
           (pauli_pinv 1) (results_1q 0 0 1) (rev (results_1q 0 0 1)) [0] _ _
           NoDup_qubit_0 ltac:(discriminate)
           (results_1q_pauli 0 0 1) (results_1q_distinct 0 0 1)
           (Permutation_rev (results_1q 0 0 1))
           eq_refl (results_1q_moore_penrose 0 0 1)
           eq_refl
           (pauli_moore_penrose [0] (rev (results_1q 0 0 1))
              NoDup_qubit_0 ltac:(discriminate)
              (results_1q_rev_pauli 0 0 1) (results_1q_rev_distinct 0 0 1))).
Defined.

(** X16.  Tomography round trip, for any number of qubits: when the
    results hold the [4^n - 1] non-identity Pauli observables, each with
    the exact expectation [trace (L @ rho)] of a matrix [rho] of trace 1,
    the estimator returns [rho]. *)
Theorem tomography_round_trip
        (pinv : matrix -> result matrix)
        (results : list ExperimentResult) (qubits : list nat)
        (rho P : matrix) :
  NoDup qubits -> qubits <> [] ->
  observables results = all_traceless_pauli_terms qubits ->
  well_formed (2 ^ length qubits) (2 ^ length qubits) rho ->
  trace rho = C1 ->
  Forall (fun r =>
            RtoC (expectation r)
            = trace (matmul (lifted_pauli (out_operator (setting r)) qubits) rho))
         results ->
  pinv (spec_measurement_matrix results qubits) = inr P ->
  moore_penrose (spec_measurement_matrix results qubits) P ->
  linear_inv_state_estimate pinv results qubits = inr rho.
Proof.
  intros Hq Hne Hobs Hshape Htrace Hexp HP Hmp.
  assert (Hres : results <> []).
  { apply (tomography_results_nonempty qubits); [exact Hne|].
    rewrite <- (length_map (fun r => out_operator (setting r))).
    fold (observables results). rewrite Hobs.
    apply all_traceless_pauli_terms_length. }
  rewrite (estimator_expansion qubits Hq results Hres
             (all_traceless_results_pauli qubits results Hobs)
             ltac:(rewrite Hobs; now apply all_traceless_pauli_terms_NoDup)
             pinv P HP Hmp).
  f_equal.
  exact (pauli_expansion_round_trip qubits Hq rho Hshape Htrace results
           Hobs Hexp).
Qed.

Lemma tomography_round_trip_witness :
  NoDup [0] /\ [0] <> [] /\
  observables (results_1q 0 0 1) = all_traceless_pauli_terms [0] /\
  trace rho_ground = C1 /\
  linear_inv_state_estimate (pauli_pinv 1) (results_1q 0 0 1) [0]
  = inr rho_ground.
Proof.
  assert (Htrace : trace rho_ground = C1).
  { unfold trace. cbn [rho_ground nrows length Csum ent nth]. c_arith. }
  assert (Hshape : well_formed (2 ^ length [0]) (2 ^ length [0]) rho_ground).
  { repeat constructor. }
  assert (Hexp : Forall
                   (fun r => RtoC (expectation r)
                             = trace (matmul (lifted_pauli
                                                (out_operator (setting r)) [0])
                                             rho_ground))
                   (results_1q 0 0 1)).
  { repeat constructor; eval_arrays; f_equal; lra. }
  split; [exact NoDup_qubit_0|]. split; [discriminate|].
  split; [reflexivity|]. split; [exact Htrace|].
  exact (tomography_round_trip (pauli_pinv 1) (results_1q 0 0 1) [0]
           rho_ground _ NoDup_qubit_0 ltac:(discriminate) eq_refl
           Hshape Htrace Hexp eq_refl (results_1q_moore_penrose 0 0 1)).
Defined.

(** X17.  The estimate agrees with the data: on results whose observables
    are different non-identity Pauli tensor products, however many, the
    matrix [rho] returned has for each result the expectation that the
    result records, [trace (L @ rho) = e]. *)
Theorem estimate_reproduces_expectations
        (pinv : matrix -> result matrix)
        (results : list ExperimentResult) (qubits : list nat) (P : matrix) :
  NoDup qubits -> results <> [] ->
  Forall (fun r => In (out_operator (setting r))
                      (all_traceless_pauli_terms qubits)) results ->
  NoDup (observables results) ->
  pinv (spec_measurement_matrix results qubits) = inr P ->
  moore_penrose (spec_measurement_matrix results qubits) P ->
  exists rho : matrix,
    linear_inv_state_estimate pinv results qubits = inr rho /\
    Forall (fun r =>
              trace (matmul (lifted_pauli (out_operator (setting r)) qubits) rho)
              = RtoC (expectation r))
           results.
Proof.
  intros Hq Hne Hobs Hdistinct HP Hmp.
  exists (pauli_expansion results qubits). split.
  - exact (estimator_expansion qubits Hq results Hne
             (traceless_pauli_results qubits results Hobs) Hdistinct
             pinv P HP Hmp).
  - apply Forall_forall. intros r Hr.
    exact (pauli_expansion_expectation qubits Hq results Hobs Hdistinct r Hr).
Qed.

Lemma results_1q_short_traceless :
  Forall (fun r => In (out_operator (setting r))
                      (all_traceless_pauli_terms [0])) results_1q_short.
Proof. repeat constructor; cbn; tauto. Qed.

Lemma estimate_reproduces_expectations_witness :
  NoDup [0] /\ results_1q_short <> [] /\
  exists rho : matrix,
    linear_inv_state_estimate (pauli_pinv 1) results_1q_short [0] = inr rho /\
    Forall (fun r =>
              trace (matmul (lifted_pauli (out_operator (setting r)) [0]) rho)
              = RtoC (expectation r))
           results_1q_short.
Proof.
  split; [exact NoDup_qubit_0|]. split; [discriminate|].
  exact (estimate_reproduces_expectations
           (pauli_pinv 1) results_1q_short [0] _
           NoDup_qubit_0 ltac:(discriminate)
           results_1q_short_traceless results_1q_short_distinct eq_refl
           (pauli_moore_penrose [0] results_1q_short
              NoDup_qubit_0 ltac:(discriminate)
              results_1q_short_pauli results_1q_short_distinct)).
Defined.

(** X18.  The estimator raises in two cases only: on an empty list of
    results, where [np.vstack] raises [ValueError], and when [pinv] raises
    on the measurement matrix, whose exception goes through to the
    caller. *)
Theorem linear_inv_state_estimate_raises
        (pinv : matrix -> result matrix)
        (results : list ExperimentResult) (qubits : list nat) (e : exn) :
  linear_inv_state_estimate pinv results qubits = inl e <->
  (results = [] /\ e = ValueError) \/
  (results <> [] /\ pinv (spec_measurement_matrix results qubits) = inl e).
Proof.
  destruct results as [|r rs].
  - rewrite linear_inv_state_estimate_no_results. split.
    + intros E. left. split; [reflexivity|congruence].
    + intros [[_ ->]|[Hne _]]; [reflexivity|contradiction].
  - rewrite linear_inv_state_estimate_unfold by discriminate.
    destruct (pinv (spec_measurement_matrix (r :: rs) qubits)) as [e'|P].
    + split.
      * intros E. right. split; [discriminate|exact E].
      * intros [[E _]|[_ E]]; [discriminate|exact E].
    + split; [discriminate|].
      intros [[E _]|[_ E]]; discriminate.
Qed.

(** X19.  The estimator reads the observables and the expectations of the
    results and nothing else: two lists of results with the same
    observables and the same expectations, whatever their standard errors,
    counts and input states, give the same outcome, for any [pinv]. *)
Theorem linear_inv_state_estimate_reads
        (pinv : matrix -> result matrix)
        (results results' : list ExperimentResult) (qubits : list nat) :
  observables results = observables results' ->
  map expectation results = map expectation results' ->
  linear_inv_state_estimate pinv results' qubits
  = linear_inv_state_estimate pinv results qubits.
Proof.
  intros Hobs Hexp. unfold linear_inv_state_estimate.
  rewrite <- !(map_map (fun r => out_operator (setting r))
                       (fun t => conj (transpose (vec (lifted_pauli t qubits))))).
  rewrite <- !(map_map expectation RtoC).
  fold (observables results). fold (observables results').
  now rewrite Hobs, Hexp.
Qed.

Lemma linear_inv_state_estimate_reads_witness :
  observables (results_1q 0 0 1) = observables (results_1q_other 0 0 1) /\
  map expectation (results_1q 0 0 1) = map expectation (results_1q_other 0 0 1) /\
  map std_err (results_1q 0 0 1) <> map std_err (results_1q_other 0 0 1) /\
  linear_inv_state_estimate (pauli_pinv 1) (results_1q_other 0 0 1) [0]
  = linear_inv_state_estimate (pauli_pinv 1) (results_1q 0 0 1) [0].
Proof.
  split; [reflexivity|]. split; [reflexivity|]. split.
  - cbn. intros E. injection E as E. lra.
  - exact (linear_inv_state_estimate_reads
             (pauli_pinv 1) (results_1q 0 0 1) (results_1q_other 0 0 1) [0]
             eq_refl eq_refl).
Defined.

End EstimatorProperties2.

(** ** Correction and estimation composed *)

Section Pipeline.

Lemma unit_calibration_corrects (r c : ExperimentResult) :
  expectation c = 1%R ->
  exists r',
    correct_experiment_result r c = inr r' /\
    setting r' = setting r /\ expectation r' = expectation r.
Proof.
  intros Hc. unfold correct_experiment_result.
  destruct (Req_dec_T (expectation c) 0) as [E|_]; [lra|].
  eexists. split; [reflexivity|]. cbn [setting expectation].
  split; [reflexivity|]. rewrite Hc. field.
Qed.

Lemma correction_loop_unit (pairs : list (ExperimentResult * ExperimentResult)) :
  forall acc,
    Forall (fun rc => expectation (snd rc) = 1%R) pairs ->
    exists l,
      correction_loop correct_experiment_result pairs acc = (acc ++ l, None) /\
      observables l = observables (map fst pairs) /\
      map expectation l = map expectation (map fst pairs).
Proof.
  induction pairs as [|[r c] pairs IH]; intros acc Hunit.
  - exists []. cbn. now rewrite app_nil_r.
  - inversion Hunit as [|? ? Hc Hrest]; subst. cbn [snd] in Hc.
    destruct (unit_calibration_corrects r c Hc) as (r' & Hr' & Hs & He).
    destruct (IH (acc ++ [r']) Hrest) as (l & Hrun & Hobs & Hexp).
    exists (r' :: l). cbn [correction_loop]. rewrite Hr', Hrun, <- app_assoc.
    split; [reflexivity|]. unfold observables in *. cbn [map fst].
    now rewrite Hs, He, Hobs, Hexp.
Qed.

(** X24.  Correction and estimation composed: when every calibration has
    the expectation 1 (a perfect readout) and there is one calibration per
    result, the correction loop ends without an exception and the estimator
    returns on the corrected results what it returns on the raw ones. *)
Theorem perfect_readout_estimate
        (pinv : matrix -> result matrix)
        (results calibrations : list ExperimentResult) (qubits : list nat) :
  length calibrations = length results ->
  Forall (fun c => expectation c = 1%R) calibrations ->
  exists results_corrected,
    correct_results correct_experiment_result results calibrations
    = (results_corrected, None) /\
    linear_inv_state_estimate pinv results_corrected qubits
    = linear_inv_state_estimate pinv results qubits.
Proof.
  intros Hlen Hunit. unfold correct_results.
  destruct (correction_loop_unit (combine results calibrations) [])
    as (l & Hrun & Hobs & Hexp).
  { apply Forall_forall. intros [r c] Hin. cbn [snd].
    rewrite Forall_forall in Hunit. apply Hunit.
    now apply in_combine_r in Hin. }
  assert (Hfst : map fst (combine results calibrations) = results).
  { clear - Hlen. revert calibrations Hlen.
    induction results as [|r rs IH]; intros [|c cs] Hlen;
      try discriminate; [reflexivity|].
    cbn. f_equal. apply IH. now injection Hlen. }
  rewrite Hfst in Hobs, Hexp.
  exists l. split; [exact Hrun|].
  unfold linear_inv_state_estimate.
  rewrite <- !(map_map (fun r => out_operator (setting r))
                       (fun t => conj (transpose (vec (lifted_pauli t qubits))))).
  rewrite <- !(map_map expectation RtoC).
  fold (observables l). fold (observables results).
  now rewrite Hobs, Hexp.
Qed.

Lemma perfect_readout_estimate_witness :
  length [calibration_unit; calibration_unit; calibration_unit]
  = length (results_1q 0 0 1) /\
  Forall (fun c => expectation c = 1%R)
         [calibration_unit; calibration_unit; calibration_unit] /\
  exists results_corrected,
    correct_results correct_experiment_result (results_1q 0 0 1)
                    [calibration_unit; calibration_unit; calibration_unit]
    = (results_corrected, None) /\
    linear_inv_state_estimate (pauli_pinv 1) results_corrected [0]
    = linear_inv_state_estimate (pauli_pinv 1) (results_1q 0 0 1) [0].
Proof.
  assert (Hunit : Forall (fun c => expectation c = 1%R)
                         [calibration_unit; calibration_unit; calibration_unit])
    by (repeat constructor).
  split; [reflexivity|]. split; [exact Hunit|].
  exact (perfect_readout_estimate (pauli_pinv 1) (results_1q 0 0 1)
           [calibration_unit; calibration_unit; calibration_unit] [0]
           eq_refl Hunit).
Defined.

End Pipeline.

(** ** The Hinton plot *)

Section Hinton_proofs.
Import Hinton.
Local Open Scope R_scope.

Lemma In_enumerate_from {A} (l : list A) (s i : nat) (a : A) :
  In (i, a) (combine (seq s (length l)) l) <->
  (s <= i)%nat /\ nth_error l (i - s) = Some a.
Proof.
  revert s. induction l as [|x l IH]; intros s; cbn [length seq combine].
  - split; [intros [] | intros [_ E]]. destruct (i - s)%nat; discriminate.
  - split.
    + intros [E|Hin].
      * injection E as <- <-. split; [lia|]. now rewrite Nat.sub_diag.
      * apply IH in Hin as [Hle Hn]. split; [lia|].
        replace (i - s)%nat with (S (i - S s)) by lia. exact Hn.
    + intros [Hle Hn]. destruct (Nat.eq_dec i s) as [->|Hne].
      * rewrite Nat.sub_diag in Hn. injection Hn as ->. now left.
      * right. apply IH. split; [lia|].
        replace (i - s)%nat with (S (i - S s)) in Hn by lia. exact Hn.
Qed.

Lemma In_enumerate {A} (l : list A) (i : nat) (a : A) :
  In (i, a) (enumerate l) <-> nth_error l i = Some a.
Proof.
  unfold enumerate. rewrite In_enumerate_from, Nat.sub_0_r.
  split; [now intros [_ E] | intros E; split; [lia|exact E]].
Qed.

(** [np.ndenumerate] yields each entry once with its indices. *)
Lemma In_ndenumerate (A : matrix) (x y : nat) (w : C) :
  In ((x, y), w) (ndenumerate A) <->
  exists row, nth_error A x = Some row /\ nth_error row y = Some w.
Proof.
  unfold ndenumerate. rewrite in_flat_map. split.
  - intros [[i row] [Hrow Hin]]. cbn [fst snd] in Hin.
    apply in_map_iff in Hin as [[j w'] [E Hj]]. cbn [fst snd] in E.
    injection E as <- <- <-.
    exists row. split; now apply In_enumerate.
  - intros [row [Hrow Hw]]. exists (x, row). split; [now apply In_enumerate|].
    cbn [fst snd]. apply in_map_iff. exists (y, w). split; [reflexivity|].
    now apply In_enumerate.
Qed.

Lemma Cabs_nonneg (w : C) : 0 <= Cabs w.
Proof. apply sqrt_pos. Qed.

(** The square of an entry: centred on its indices, of area [|w|]. *)
Lemma patch_square (x y : nat) (w : C) :
  width (patch x y w) = height (patch x y w) /\
  width (patch x y w) * height (patch x y w) = Cabs w /\
  fst (xy (patch x y w)) + width (patch x y w) / 2 = INR x /\
  snd (xy (patch x y w)) + height (patch x y w) / 2 = INR y.
Proof.
  unfold patch, max_weight. cbn [width height xy fst snd].
  replace (Cabs w / 1.0) with (Cabs w) by lra.
  split; [reflexivity|]. split; [apply sqrt_sqrt, Cabs_nonneg|].
  split; lra.
Qed.

Lemma patch_size_le (x y : nat) (w : C) :
  Cabs w <= 1 -> 0 <= width (patch x y w) <= 1.
Proof.
  intros Hw. unfold patch, max_weight. cbn [width].
  replace (Cabs w / 1.0) with (Cabs w) by lra.
  split; [apply sqrt_pos|]. rewrite <- sqrt_1. now apply sqrt_le_1_alt.
Qed.

Lemma patch_size_gt (x y : nat) (w : C) :
  1 < Cabs w -> 1 < width (patch x y w).
Proof.
  intros Hw. unfold patch, max_weight. cbn [width].
  replace (Cabs w / 1.0) with (Cabs w) by lra.
  rewrite <- sqrt_1 at 1. apply sqrt_lt_1_alt. lra.
Qed.

(** X20.  Every rectangle that [hinton] draws is the square of an entry
    [matrix[x, y]]: centred on the point [(x, y)] and of area
    [|matrix[x, y]|].  When [|matrix[x, y]| <= 1] the square stays inside
    the unit cell of its entry and inside the limits set for the axes;
    when [|matrix[x, y]| > 1] its side exceeds the cell, [max_weight] being
    fixed to 1. *)
Theorem hinton_squares (A : matrix) (m n : nat) (p : Rectangle) :
  well_formed m n A -> (0 < m)%nat ->
  In p (fst (hinton A)) ->
  exists x y : nat,
    (x < m)%nat /\ (y < n)%nat /\
    width p = height p /\
    width p * height p = Cabs (ent A x y) /\
    fst (xy p) + width p / 2 = INR x /\
    snd (xy p) + height p / 2 = INR y /\
    (Cabs (ent A x y) <= 1 ->
     INR x - 1 / 2 <= fst (xy p) /\ fst (xy p) + width p <= INR x + 1 / 2 /\
     INR y - 1 / 2 <= snd (xy p) /\ snd (xy p) + height p <= INR y + 1 / 2 /\
     fst (fst (snd (hinton A))) <= fst (xy p) /\
     fst (xy p) + width p <= snd (fst (snd (hinton A))) /\
     fst (snd (snd (hinton A))) <= snd (xy p) /\
     snd (xy p) + height p <= snd (snd (snd (hinton A)))) /\
    (1 < Cabs (ent A x y) -> 1 < width p).
Proof.
  intros HA Hm Hin. cbn [hinton fst snd] in *.
  apply in_map_iff in Hin as [[[x y] w] [<- Hin]]. cbn [fst snd].
  apply In_ndenumerate in Hin as [row [Hrow Hw]].
  assert (Hx : (x < m)%nat).
  { destruct HA as [<- _]. apply nth_error_Some. congruence. }
  assert (Hrowlen : length row = n).
  { destruct HA as [_ Hrows]. rewrite Forall_forall in Hrows.
    apply Hrows. eapply nth_error_In. exact Hrow. }
  assert (Hy : (y < n)%nat).
  { rewrite <- Hrowlen. apply nth_error_Some. congruence. }
  assert (Hent : ent A x y = w).
  { unfold ent. rewrite (nth_error_nth A x [] Hrow).
    now apply nth_error_nth. }
  exists x, y. rewrite Hent.
  destruct (patch_square x y w) as (S1 & S2 & S3 & S4).
  split; [exact Hx|]. split; [exact Hy|]. split; [exact S1|].
  split; [exact S2|]. split; [exact S3|]. split; [exact S4|]. split.
  - intros Hle. pose proof (patch_size_le x y w Hle) as [Hs0 Hs1].
    rewrite <- S1 in *.
    assert (Hrows : nrows A = m) by (now apply well_formed_nrows in HA).
    assert (Hcols : ncols A = n) by (now apply well_formed_ncols in HA).
    rewrite Hrows, Hcols. unfold max_weight.
    assert (HX : INR x + 1 <= INR m).
    { rewrite <- S_INR. apply le_INR. lia. }
    assert (HY : INR y + 1 <= INR n).
    { rewrite <- S_INR. apply le_INR. lia. }
    pose proof (pos_INR x). pose proof (pos_INR y).
    repeat split; lra.
  - apply patch_size_gt.
Qed.

Lemma hinton_squares_witness :
  well_formed 2 2 [[C1; C0]; [C0; C0]] /\ (0 < 2)%nat /\
  In (patch 0 0 C1) (fst (hinton [[C1; C0]; [C0; C0]])) /\
  exists x y : nat,
    (x < 2)%nat /\ (y < 2)%nat /\
    width (patch 0 0 C1) * height (patch 0 0 C1)
    = Cabs (ent [[C1; C0]; [C0; C0]] x y).
Proof.
  assert (Hwf : well_formed 2 2 [[C1; C0]; [C0; C0]]) by (repeat constructor).
  assert (Hin : In (patch 0 0 C1) (fst (hinton [[C1; C0]; [C0; C0]])))
    by (left; reflexivity).
  split; [exact Hwf|]. split; [lia|]. split; [exact Hin|].
  destruct (hinton_squares [[C1; C0]; [C0; C0]] 2 2 (patch 0 0 C1)
              Hwf ltac:(lia) Hin)
    as (x & y & Hx & Hy & _ & Harea & _).
  exists x, y. split; [exact Hx|]. split; [exact Hy|]. exact Harea.
Defined.

(** X21.  The colour of a square is the angle [arctan2(w.real, w.imag)],
    the real part being the first argument: a positive real entry gets the
    angle [pi/2], a negative real entry [-pi/2], and an entry on the
    positive imaginary axis the angle 0. *)
Theorem hinton_color_axes (x y : nat) (a : R) :
  0 < a ->
  color (patch x y (a, 0)) = Some (PI / 2) /\
  color (patch x y (- a, 0)) = Some (- PI / 2) /\
  color (patch x y (0, a)) = Some 0.
Proof.
  intros Ha. unfold patch, arctan2. cbn [color fst snd].
  repeat split;
    repeat (match goal with
            | |- context [Rlt_dec ?u ?v] => destruct (Rlt_dec u v); try lra
            end);
    try reflexivity.
  replace (0 / a) with 0 by (field; lra). now rewrite atan_0.
Qed.

Lemma hinton_color_axes_witness :
  0 < 1 /\
  color (patch 0 0 (1, 0)) = Some (PI / 2) /\
  color (patch 0 0 (- 1, 0)) = Some (- PI / 2) /\
  color (patch 0 0 (0, 1)) = Some 0.
Proof.
  split; [lra|]. exact (hinton_color_axes 0 0 1 ltac:(lra)).
Defined.

End Hinton_proofs.

Section Hinton_count.
Import Hinton.

Lemma enumerate_length {A} (l : list A) : length (enumerate l) = length l.
Proof. unfold enumerate. rewrite length_combine, length_seq. lia. Qed.

Lemma ndenumerate_length (A : matrix) (m n : nat) :
  well_formed m n A -> length (ndenumerate A) = m * n.
Proof.
  intros [Hm Hrows]. subst m.
  assert (H : forall s,
             length (flat_map
                       (fun ir => map (fun jw => ((fst ir, fst jw), snd jw))
                                      (enumerate (snd ir)))
                       (combine (seq s (length A)) A))
             = length A * n).
  { induction A as [|row A IH]; intros s; [reflexivity|].
    inversion Hrows as [|? ? Hrow Hrest]; subst.
    cbn [length seq combine flat_map fst snd].
    rewrite length_app, length_map, enumerate_length.
    rewrite (IH Hrest (S s)). lia. }
  exact (H 0).
Qed.

(** X25.  [hinton] draws one rectangle per entry of the matrix: for an
    array of shape [(m, n)] it adds [m * n] rectangles, among them the
    square of every entry [matrix[x, y]]. *)
Theorem hinton_one_square_per_entry (A : matrix) (m n : nat) :
  well_formed m n A ->
  length (fst (hinton A)) = m * n /\
  forall x y, x < m -> y < n ->
              In (patch x y (ent A x y)) (fst (hinton A)).
Proof.
  intros HA. cbn [hinton fst]. split.
  - rewrite length_map. now apply ndenumerate_length.
  - intros x y Hx Hy.
    apply (in_map (fun e => patch (fst (fst e)) (snd (fst e)) (snd e))
                  (ndenumerate A) ((x, y), ent A x y)).
    apply In_ndenumerate. exists (nth x A []).
    destruct HA as [Hm Hrows]. split.
    + apply nth_error_nth'. lia.
    + unfold ent. apply nth_error_nth'.
      rewrite Forall_forall in Hrows. rewrite (Hrows (nth x A [])); [exact Hy|].
      apply nth_In. lia.
Qed.

Lemma hinton_one_square_per_entry_witness :
  well_formed 2 2 rho_ground /\
  length (fst (hinton rho_ground)) = 2 * 2 /\
  forall x y, x < 2 -> y < 2 ->
              In (patch x y (ent rho_ground x y)) (fst (hinton rho_ground)).
Proof.
  assert (Hwf : well_formed 2 2 rho_ground) by (repeat constructor).
  split; [exact Hwf|].
  exact (hinton_one_square_per_entry rho_ground 2 2 Hwf).
Defined.

End Hinton_count.
